(** * ctjson: a type-directed JSON marshalling engine

    A shallow embedding of the header-only library [ctjson] and the
    properties its specification states about it.

    Layout of the development:
    - [TypeUtils]    : the mixed-signedness comparisons and [in_range]
                       (detail/TypeUtils.hpp);
    - [Token]        : the lexical events (detail/Token.hpp);
    - [SimpleWriter] : the writer front-end (SimpleWriter.hpp);
    - [Path]         : the structural path tracker (detail/Path.hpp);
    - [ParseResult]  : the result/error model (ParseResult.hpp);
    - [TokenStream]  : the token cursor (TokenStream.hpp);
    - [Deserializer], [DeserializationHelper], [Serializer],
      [SerializationHelper], [Json] : the dispatchers, the record
      marshaller and the public entry points.

    The JSON lexer and printer (rapidjson's [Reader] and [Writer]) are
    external collaborators.  They appear here only through their
    interfaces: the writer as the sequence of primitive calls it receives,
    the reader as the sequence of answers it gives to
    [IterativeParseNext]. *)

From Stdlib Require Import ZArith Lia Bool List.
From Stdlib Require Import SpecFloat.
From stdpp Require Import base option list strings gmap pretty.

Local Open Scope Z_scope.
Local Set Warnings "-register-all".

(* ===================================================================== *)
(** * detail/TypeUtils.hpp                                                 *)
(* ===================================================================== *)

Module TypeUtils.

(** The integer types of the program: a signedness and a width.  [bool]
    is not one of them (the code always treats it apart). *)
Inductive IntWidth := W8 | W16 | W32 | W64.

Record IntType := mkInt { is_signed : bool; width : IntWidth }.

Definition bits (w : IntWidth) : Z :=
  match w with W8 => 8 | W16 => 16 | W32 => 32 | W64 => 64 end.

Definition int8_t   := mkInt true W8.
Definition int16_t  := mkInt true W16.
Definition int      := mkInt true W32.
Definition int64_t  := mkInt true W64.
Definition uint8_t  := mkInt false W8.
Definition uint16_t := mkInt false W16.
Definition unsigned := mkInt false W32.
Definition uint64_t := mkInt false W64.

(** [std::numeric_limits<T>::min()] and [max()]. *)
Definition numeric_limits_min (T : IntType) : Z :=
  if is_signed T then - 2 ^ (bits (width T) - 1) else 0.

Definition numeric_limits_max (T : IntType) : Z :=
  if is_signed T then 2 ^ (bits (width T) - 1) - 1
  else 2 ^ bits (width T) - 1.

(** A value that an object of type [T] can hold. *)
Definition representable (T : IntType) (v : Z) : Prop :=
  numeric_limits_min T <= v <= numeric_limits_max T.

(** [static_cast<T>(v)] between integer types: reduction modulo
    [2^bits], read back in two's complement for a signed [T]. *)
Definition static_cast (T : IntType) (v : Z) : Z :=
  let m := 2 ^ bits (width T) in
  if is_signed T then (v + m / 2) mod m - m / 2 else v mod m.

(** [std::make_unsigned_t<T>(t)], the conversion written [UT(t)] and
    [UU(u)] in the comparisons below. *)
Definition make_unsigned (T : IntType) (t : Z) : Z :=
  static_cast (mkInt false (width T)) t.

(** [cmp_equal<T, U>(t, u)]. *)
Definition cmp_equal (T U : IntType) (t u : Z) : bool :=
  if Bool.eqb (is_signed T) (is_signed U) then t =? u
  else if is_signed T then
    (if t <? 0 then false else make_unsigned T t =? u)
  else
    (if u <? 0 then false else t =? make_unsigned U u).

Definition cmp_not_equal (T U : IntType) (t u : Z) : bool :=
  negb (cmp_equal T U t u).

(** [cmp_less<T, U>(t, u)].  When both operands have the same signedness
    the built-in [<] is used; the usual arithmetic conversions keep the
    value of both operands in that case, so it is the comparison of the
    values. *)
Definition cmp_less (T U : IntType) (t u : Z) : bool :=
  if Bool.eqb (is_signed T) (is_signed U) then t <? u
  else if is_signed T then
    (if t <? 0 then true else make_unsigned T t <? u)
  else
    (if u <? 0 then false else t <? make_unsigned U u).

Definition cmp_greater (T U : IntType) (t u : Z) : bool :=
  cmp_less U T u t.

Definition cmp_less_equal (T U : IntType) (t u : Z) : bool :=
  negb (cmp_greater T U t u).

Definition cmp_greater_equal (T U : IntType) (t u : Z) : bool :=
  negb (cmp_less T U t u).

(** [in_range<R>(t)] for [t] of type [T]. *)
Definition in_range (R T : IntType) (t : Z) : bool :=
  cmp_greater_equal T R t (numeric_limits_min R)
  && cmp_less_equal T R t (numeric_limits_max R).

(** [call_on_nth(n, f, args...)]: [compile_switch] compares [n] with
    every index of the pack and calls [f] on the argument whose index
    is [n]; for [n] outside the pack nothing is called. *)
Definition call_on_nth {A B : Type} (n : nat) (f : A → B) (args : list A)
  : option B :=
  f <$> args !! n.

End TypeUtils.

Import TypeUtils.

(** ** Floating-point scalars

    [float] and [double] values are IEEE 754 binary32 and binary64 numbers,
    given by their specification [spec_float].  ([long double], whose
    format depends on the platform, is left out.) *)

Module Floating.

Inductive FloatingType := float_t | double_t.

Definition prec (F : FloatingType) : Z :=
  match F with float_t => 24 | double_t => 53 end.

Definition emax (F : FloatingType) : Z :=
  match F with float_t => 128 | double_t => 1024 end.

(** Conversion between the two formats: exact when widening, rounded to
    nearest when narrowing. *)
Definition convert (F : FloatingType) (x : spec_float) : spec_float :=
  match x with
  | S754_finite s m e =>
      binary_normalize (prec F) (emax F) (cond_Zopp s (Zpos m)) e s
  | _ => x
  end.

(** [static_cast<F>(z)] for an integer [z]. *)
Definition of_integer (F : FloatingType) (z : Z) : spec_float :=
  binary_normalize (prec F) (emax F) z 0 false.

(** [static_cast<F>(d)] for a [double] [d]. *)
Definition of_double (F : FloatingType) (d : spec_float) : spec_float :=
  match F with double_t => d | float_t => convert float_t d end.

(** The implicit conversion of an [F] to [double]. *)
Definition to_double (F : FloatingType) (x : spec_float) : spec_float :=
  match F with double_t => x | float_t => convert double_t x end.

End Floating.

(* ===================================================================== *)
(** * detail/Token.hpp                                                     *)
(* ===================================================================== *)

Module TokenType.

(** [enum class TokenType]. *)
Inductive t :=
| Null | Bool | Int | Uint | Int64 | Uint64 | Double | RawNumber
| String | StartObject | Key | EndObject | StartArray | EndArray.

Global Instance eq_dec : EqDecision t.
Proof. solve_decision. Defined.

(** [Token::name<t_type>()]. *)
Definition name (t_type : t) : string :=
  match t_type with
  | Null => "null"
  | Bool => "bool"
  | Int => "int"
  | Int64 => "int64"
  | Uint => "uint"
  | Uint64 => "uint64"
  | Double => "double"
  | RawNumber => "number"
  | String => "string"
  | StartObject => "start object"
  | Key => "key"
  | EndObject => "end object"
  | StartArray => "start array"
  | EndArray => "end array"
  end.

End TokenType.

(** The type of the value a token carries ([ExactToken::value_type]), as
    far as the value dispatcher distinguishes it. *)
Inductive ValueType :=
| bool_t
| integer_t (T : IntType)
| floating_t (F : Floating.FloatingType)
| string_t.

Module Token.

(** [class Token]: the variant over the exact token types. *)
Inductive t :=
| NullToken
| BoolToken (value : bool)
| IntToken (value : Z)
| UintToken (value : Z)
| Int64Token (value : Z)
| Uint64Token (value : Z)
| DoubleToken (value : spec_float)
| NumberToken (value : string)
| StringToken (value : string)
| StartObjectToken
| KeyToken (value : string)
| EndObjectToken (value : Z)
| StartArrayToken
| EndArrayToken (value : Z).

(** The alternative the variant holds. *)
Definition type (token : t) : TokenType.t :=
  match token with
  | NullToken => TokenType.Null
  | BoolToken _ => TokenType.Bool
  | IntToken _ => TokenType.Int
  | UintToken _ => TokenType.Uint
  | Int64Token _ => TokenType.Int64
  | Uint64Token _ => TokenType.Uint64
  | DoubleToken _ => TokenType.Double
  | NumberToken _ => TokenType.RawNumber
  | StringToken _ => TokenType.String
  | StartObjectToken => TokenType.StartObject
  | KeyToken _ => TokenType.Key
  | EndObjectToken _ => TokenType.EndObject
  | StartArrayToken => TokenType.StartArray
  | EndArrayToken _ => TokenType.EndArray
  end.

(** [token.is_of_type<t_type>()]. *)
Definition is_of_type (t_type : TokenType.t) (token : t) : bool :=
  bool_decide (type token = t_type).

(** [token.name()]. *)
Definition name (token : t) : string := TokenType.name (type token).

(** [ValueTokens]: the token types that carry a JSON scalar, in the
    order of the type list. *)
Definition ValueTokens : list TokenType.t :=
  [TokenType.Bool; TokenType.Int; TokenType.Uint; TokenType.Int64;
   TokenType.Uint64; TokenType.Double; TokenType.RawNumber;
   TokenType.String].

(** [Head::value_type] for the members of [ValueTokens] ([None] for the
    tokens without a scalar payload). *)
Definition value_type (t_type : TokenType.t) : option ValueType :=
  match t_type with
  | TokenType.Bool => Some bool_t
  | TokenType.Int => Some (integer_t int)
  | TokenType.Uint => Some (integer_t unsigned)
  | TokenType.Int64 => Some (integer_t int64_t)
  | TokenType.Uint64 => Some (integer_t uint64_t)
  | TokenType.Double => Some (floating_t Floating.double_t)
  | TokenType.RawNumber => Some string_t
  | TokenType.String => Some string_t
  | _ => None
  end.

(** The integer tokens and the value they carry. *)
Definition integer_value (token : t) : option (IntType * Z) :=
  match token with
  | IntToken v => Some (int, v)
  | UintToken v => Some (unsigned, v)
  | Int64Token v => Some (int64_t, v)
  | Uint64Token v => Some (uint64_t, v)
  | _ => None
  end.

(** A token whose integer payload fits the C++ type that holds it. *)
Definition well_formed (token : t) : Prop :=
  match integer_value token with
  | Some (T, v) => representable T v
  | None => True
  end.

End Token.

(* ===================================================================== *)
(** * SimpleWriter.hpp                                                     *)
(* ===================================================================== *)

(** The primitives of the external writer ([rapidjson::Writer]).  The
    writer is a black box: its state is the sequence of calls it has
    received. *)
Inductive WriterCall :=
| WNull
| WBool (value : bool)
| WInt (value : Z)
| WUint (value : Z)
| WInt64 (value : Z)
| WUint64 (value : Z)
| WDouble (value : spec_float)
| WString (value : string)
| WStartObject
| WKey (key : string)
| WEndObject
| WStartArray
| WEndArray.

Module SimpleWriter.

Definition t := list WriterCall.

Definition null (w : t) : t := w ++ [WNull].

Definition boolean (value : bool) (w : t) : t := w ++ [WBool value].

(** [integer<Int>(value)]: the argument of each primitive is converted
    to the primitive's parameter type. *)
Definition integer (Int : IntType) (value : Z) (w : t) : t :=
  if 0 <? value then
    if in_range unsigned Int value
    then w ++ [WUint (static_cast unsigned value)]
    else w ++ [WUint64 (static_cast uint64_t value)]
  else
    if in_range int Int value
    then w ++ [WInt (static_cast int value)]
    else w ++ [WInt64 (static_cast int64_t value)].

Definition floating (F : Floating.FloatingType) (value : spec_float)
    (w : t) : t :=
  w ++ [WDouble (Floating.to_double F value)].

Definition string (value : string) (w : t) : t := w ++ [WString value].

Definition start_object (w : t) : t := w ++ [WStartObject].

Definition key (k : String.string) (w : t) : t := w ++ [WKey k].

Definition end_object (w : t) : t := w ++ [WEndObject].

Definition start_array (w : t) : t := w ++ [WStartArray].

Definition end_array (w : t) : t := w ++ [WEndArray].

(** The integer emission policy in the words of the specification:
    negative values take the signed path, all others the unsigned
    path; on either path the 32-bit primitive when the value fits. *)
Definition signed_path (value : Z) : WriterCall :=
  if numeric_limits_min int <=? value then WInt value else WInt64 value.

Definition unsigned_path (value : Z) : WriterCall :=
  if value <=? numeric_limits_max unsigned
  then WUint value else WUint64 value.

Definition integer_policy_of_spec (value : Z) : WriterCall :=
  if value <? 0 then signed_path value else unsigned_path value.

End SimpleWriter.

(* ===================================================================== *)
(** * Outcomes of a call                                                   *)
(* ===================================================================== *)

(** A call either returns, or has no defined behaviour (a violated
    precondition of the standard library: [pop_back] on an empty vector,
    [std::get] on the wrong alternative, [value()] on an empty optional),
    or is cut by the bound that the model puts on the iterations of
    [while (true)]. *)
Inductive Outcome (A : Type) :=
| Done (a : A)
| Undefined
| OutOfFuel.

Arguments Done {A} a.
Arguments Undefined {A}.
Arguments OutOfFuel {A}.

Definition bind {A B : Type} (m : Outcome A) (k : A → Outcome B)
  : Outcome B :=
  match m with
  | Done a => k a
  | Undefined => Undefined
  | OutOfFuel => OutOfFuel
  end.

Notation "'let*' x ':=' m 'in' k" := (bind m (λ x, k))
  (at level 10, x name, m at level 100, k at level 200).
Notation "'let*' ' p ':=' m 'in' k" := (bind m (λ p, k))
  (at level 10, p pattern, m at level 100, k at level 200).

Definition of_option {A : Type} (o : option A) : Outcome A :=
  match o with Some a => Done a | None => Undefined end.

(* ===================================================================== *)
(** * detail/Path.hpp                                                      *)
(* ===================================================================== *)

Module Path.

(** [PathComponent]: [Object] with its optional key, [Array] with its
    index, [-1] before the first element. *)
Inductive PathComponent :=
| Object (key : option string)
| Array (index : Z).

(** [m_path]: the vector of components; its back is the last element
    of the list. *)
Definition t := list PathComponent.

Definition empty : t := [].

Definition render_component (c : PathComponent) : string :=
  match c with
  | Object (Some k) => "." +:+ k
  | Object None => ""
  | Array index =>
      if index =? -1 then "" else "[" +:+ pretty index +:+ "]"
  end.

Definition advance_array_if_needed (m_path : t) : t :=
  match last m_path with
  | Some (Array index) => removelast m_path ++ [Array (index + 1)]
  | _ => m_path
  end.

Definition start_object (m_path : t) : t :=
  advance_array_if_needed m_path ++ [Object None].

(** [key]: [std::get<Object>(m_path.back())] has no defined result on
    an empty path or on an array component. *)
Definition key (k : string) (m_path : t) : option t :=
  match last m_path with
  | Some (Object _) => Some (removelast m_path ++ [Object (Some k)])
  | _ => None
  end.

(** [pop_back] needs a non-empty vector. *)
Definition pop_back (m_path : t) : option t :=
  match m_path with
  | [] => None
  | _ => Some (removelast m_path)
  end.

Definition end_object (m_path : t) : option t := pop_back m_path.

Definition start_array (m_path : t) : t :=
  advance_array_if_needed m_path ++ [Array (-1)].

Definition value (m_path : t) : t := advance_array_if_needed m_path.

Definition end_array (m_path : t) : option t := pop_back m_path.

Definition render (m_path : t) : string :=
  fold_left (λ result c, result +:+ render_component c) m_path "root".

End Path.

(* ===================================================================== *)
(** * ParseResult.hpp                                                      *)
(* ===================================================================== *)

Module ParseResult.

(** The two error types ([NO_ERROR] is the [Ok] case below). *)
Inductive ErrorType := JSON_ERROR | PARSE_ERROR.

Record Error := mkError { error : string; path : option string }.

Definition render (e : Error) : string :=
  match path e with
  | Some p => error e +:+ " at " +:+ p
  | None => error e
  end.

(** [ParseResult<T>]: a value, or an error type with its [Error].
    [ParseResult<void>] is [t unit]. *)
Inductive t (T : Type) :=
| Ok (value : T)
| Err (error_type : ErrorType) (e : Error).

Arguments Ok {T} value.
Arguments Err {T} error_type e.

Definition result {T : Type} (value : T) : t T := Ok value.

Definition json_error {T : Type} (error : string) (path : option string)
  : t T :=
  Err JSON_ERROR (mkError error path).

Definition parse_error {T : Type} (error : string) (path : option string)
  : t T :=
  Err PARSE_ERROR (mkError error path).

(** [convert_error(other)]: same error type, same [Error].  Its
    precondition is that [other] holds an error; every caller checks
    [is_ok] first. *)
Definition convert_error {T : Type} (error_type : ErrorType)
    (e : Error) : t T :=
  Err error_type e.

Definition is_ok {T : Type} (r : t T) : bool :=
  match r with Ok _ => true | Err _ _ => false end.

Definition is_json_error {T : Type} (r : t T) : bool :=
  match r with Err JSON_ERROR _ => true | _ => false end.

Definition is_parse_error {T : Type} (r : t T) : bool :=
  match r with Err PARSE_ERROR _ => true | _ => false end.

End ParseResult.

(* ===================================================================== *)
(** * The external tokenizer                                               *)
(* ===================================================================== *)

(** [rapidjson::Reader], used by the token cursor through three members:
    [IterativeParseNext], [IterativeParseComplete], [GetParseErrorCode].
    A reader over a given text is a black box; seen from the cursor it is
    the list of answers it will give to successive calls of
    [IterativeParseNext]. *)
Module Reader.

(** A parse error code, with what the cursor asks about it: whether it
    is [kParseErrorTermination] or [kParseErrorNone], and its English
    message [GetParseError_En(code)]. *)
Record ParseErrorCode :=
  mkCode { is_termination_or_none : bool; GetParseError_En : string }.

(** One answer of [IterativeParseNext]: the token dispatched to the
    handler during the call (if any), the error code when the call
    returns [false], and whether [IterativeParseComplete] holds once
    the call has returned. *)
Record Answer := mkAnswer {
  dispatched : option Token.t;
  failure : option ParseErrorCode;
  completes : bool;
}.

Record t := mkReader { answers : list Answer; complete : bool }.

Definition IterativeParseInit (answers : list Answer) : t :=
  mkReader answers false.

Definition IterativeParseComplete (r : t) : bool := complete r.

(** A reader with nothing left to say returns [true] without calling
    the handler. *)
Definition IterativeParseNext (r : t)
  : option Token.t * option ParseErrorCode * t :=
  match answers r with
  | [] => (None, None, r)
  | a :: rest => (dispatched a, failure a, mkReader rest (completes a))
  end.

(** The answer that hands over [token] and returns [true]. *)
Definition deliver (token : Token.t) (completes : bool) : Answer :=
  mkAnswer (Some token) None completes.

End Reader.

(* ===================================================================== *)
(** * TokenStream.hpp                                                      *)
(* ===================================================================== *)

Module TokenStream.

(** [TokenStream<InputStream, Derived>].  [m_handler] is the token held
    by the [TokenHandler]; [context] tells the two instantiations
    apart: [Derived = void] ([false]) and [ContextTokenStream]
    ([true]), which owns [m_path]. *)
Record t := mkStream {
  m_reader : Reader.t;
  m_handler : option Token.t;
  m_error : option string;
  context : bool;
  m_path : Path.t;
}.

(** The constructors: [IterativeParseInit], no token, no error. *)
Definition TokenStream (input : list Reader.Answer) : t :=
  mkStream (Reader.IterativeParseInit input) None None false Path.empty.

Definition ContextTokenStream (input : list Reader.Answer) : t :=
  mkStream (Reader.IterativeParseInit input) None None true Path.empty.

Definition has_error (s : t) : bool :=
  match m_error s with Some _ => true | None => false end.

(** [get_error()] is [m_error.value()]; it is read together with
    [has_error()] by matching on [m_error]. *)

Definition has_token (s : t) : bool :=
  match m_handler s with Some _ => true | None => false end.

Definition is_complete (s : t) : bool :=
  Reader.IterativeParseComplete (m_reader s) && negb (has_token s).

(** [get_path()]: [std::nullopt] without path tracking, the rendering
    of the path with it. *)
Definition get_path (s : t) : option string :=
  if context s then Some (Path.render (m_path s)) else None.

(** [ContextTokenStream::on_advance]. *)
Definition on_advance (token : Token.t) (m_path : Path.t)
  : option Path.t :=
  match token with
  | Token.StartObjectToken => Some (Path.start_object m_path)
  | Token.KeyToken k => Path.key k m_path
  | Token.EndObjectToken _ => Path.end_object m_path
  | Token.StartArrayToken => Some (Path.start_array m_path)
  | Token.EndArrayToken _ => Path.end_array m_path
  | _ => Some (Path.value m_path)
  end.

Definition handle_parse_error (code : Reader.ParseErrorCode) : string :=
  let error := Reader.GetParseError_En code in
  if Reader.is_termination_or_none code
  then "Unexpected error: " +:+ error +:+ ", possibly a bug"
  else error.

(** [advance()]: one call of [IterativeParseNext]; a dispatched token
    replaces the handler's. *)
Definition advance (s : t) : Outcome t :=
  let '(token, result, reader) := Reader.IterativeParseNext (m_reader s) in
  let handler :=
    match token with Some _ => token | None => m_handler s end in
  match result with
  | Some code =>
      Done (mkStream reader handler (Some (handle_parse_error code))
              (context s) (m_path s))
  | None =>
      match handler with
      | None =>
          Done (mkStream reader handler
                  (Some "Unexpected state: no token acquired, possibly a bug")
                  (context s) (m_path s))
      | Some tok =>
          if context s then
            let* path := of_option (on_advance tok (m_path s)) in
            Done (mkStream reader handler (m_error s) (context s) path)
          else
            Done (mkStream reader handler (m_error s) (context s)
                    (m_path s))
      end
  end.

Definition acquire_token (s : t) : Outcome (bool * t) :=
  if has_error s || is_complete s then Done (false, s)
  else
    let* s' := (if has_token s then Done s else advance s) in
    Done (has_token s', s').

Definition peek (s : t) : Outcome (option Token.t * t) :=
  let* '(_, s') := acquire_token s in
  Done (m_handler s', s').

(** [m_handler.token()]: hand the token over and reset the handler. *)
Definition token (s : t) : option Token.t * t :=
  (m_handler s,
   mkStream (m_reader s) None (m_error s) (context s) (m_path s)).

Definition next (s : t) : Outcome (option Token.t * t) :=
  let* '(acquired, s') := acquire_token s in
  if acquired then Done (token s') else Done (None, s').

(** The number of answers the cursor has not asked the reader for. *)
Definition unread (s : t) : nat := length (Reader.answers (m_reader s)).

End TokenStream.

(* ===================================================================== *)
(** * The types and values that are marshalled                             *)
(* ===================================================================== *)

(** [detail/Typing.hpp] sorts the C++ types into structural categories;
    the dispatchers select an overload by category. *)

(** [is_array_like]: the three specialisations. *)
Inductive ArrayKind := std_vector | std_set | std_unordered_set.

(** [is_dict_like]: the two specialisations, both keyed by
    [std::string]. *)
Inductive DictKind := std_map | std_unordered_map.

Global Instance ArrayKind_eq_dec : EqDecision ArrayKind.
Proof. solve_decision. Defined.

Inductive JType :=
| Value (V : ValueType)                 (* [is_json_value] *)
| Optional (T : JType)                  (* [is_optional_v] *)
| ArrayLike (k : ArrayKind) (T : JType) (* [is_array_like_v] *)
| DictLike (k : DictKind) (T : JType)   (* [is_dict_like_v] *)
| Class (fields : list (string * JType)).
  (* a user class with [json_parse]/[json_dump] (or the [Deserializable]
     and [Serializable] traits) written with the two helpers, as in the
     helpers' documentation: one field descriptor per member, in the
     order of the members *)

(** The values of those types.  A container is given by its elements in
    iteration order; for the set-like and dict-like containers that order
    is the container's own business (sorted, or unspecified) and carries
    no information beyond which elements are present. *)
Inductive JValue :=
| VBool (b : bool)
| VInteger (z : Z)
| VFloating (x : spec_float)
| VString (s : string)
| VOptional (o : option JValue)
| VArray (k : ArrayKind) (l : list JValue)
| VDict (k : DictKind) (l : list (string * JValue))
| VClass (members : list JValue).

Section ListEqb.
Context {A : Type} (eqb : A → A → bool).

Fixpoint list_eqb (l1 l2 : list A) : bool :=
  match l1, l2 with
  | [], [] => true
  | x :: l1, y :: l2 => eqb x y && list_eqb l1 l2
  | _, _ => false
  end.
End ListEqb.

(** [operator==] on values: member-wise on sequences and classes, by
    content on the set-like and dict-like containers (both sides hold no
    element twice). *)
Fixpoint value_eqb (a b : JValue) {struct a} : bool :=
  match a, b with
  | VBool x, VBool y => Bool.eqb x y
  | VInteger x, VInteger y => x =? y
  | VFloating x, VFloating y => SFeqb x y
  | VString x, VString y => String.eqb x y
  | VOptional None, VOptional None => true
  | VOptional (Some x), VOptional (Some y) => value_eqb x y
  | VArray std_vector l1, VArray _ l2 => list_eqb value_eqb l1 l2
  | VArray _ l1, VArray _ l2 =>
      (length l1 =? length l2)%nat
      && forallb (λ x, existsb (value_eqb x) l2) l1
  | VDict _ l1, VDict _ l2 =>
      (length l1 =? length l2)%nat
      && forallb (λ e, existsb (λ e', String.eqb e.1 e'.1
                                     && value_eqb e.2 e'.2) l2) l1
  | VClass l1, VClass l2 => list_eqb value_eqb l1 l2
  | _, _ => false
  end.

(** [is_array_like<T>::emplace]: [emplace_back] on a vector; [emplace] on
    a set, which leaves the set alone when it holds an equal element. *)
Definition array_emplace (k : ArrayKind) (result : list JValue)
    (value : JValue) : list JValue :=
  match k with
  | std_vector => result ++ [value]
  | _ => if existsb (value_eqb value) result then result
         else result ++ [value]
  end.

(** [is_dict_like<T>::emplace]: [std::map::emplace] and
    [std::unordered_map::emplace] insert only when the container holds no
    element with that key. *)
Definition dict_emplace (result : list (string * JValue)) (key : string)
    (value : JValue) : list (string * JValue) :=
  if existsb (λ e, String.eqb key e.1) result then result
  else result ++ [(key, value)].

(** [find] on a dict-like container: the value stored under [key]. *)
Definition dict_find (key : string) (container : list (string * JValue))
  : option JValue :=
  snd <$> List.find (λ e, String.eqb key e.1) container.

(** The value of a default-initialised object.  (Arithmetic members of a
    default-initialised class are indeterminate in C++; they are given a
    fixed value here.) *)
Fixpoint default_value (T : JType) : JValue :=
  match T with
  | Value bool_t => VBool false
  | Value (integer_t _) => VInteger 0
  | Value (floating_t _) => VFloating (S754_zero false)
  | Value string_t => VString ""
  | Optional _ => VOptional None
  | ArrayLike k _ => VArray k []
  | DictLike k _ => VDict k []
  | Class fields => VClass (map (λ f, default_value f.2) fields)
  end.

(* ===================================================================== *)
(** * Deserializer.hpp                                                     *)
(* ===================================================================== *)

Module Deserializer.

Import ParseResult.

(** What a parse returns: its result and the token stream it leaves. *)
Definition Parsed (A : Type) : Type :=
  Outcome (ParseResult.t A * TokenStream.t).

Definition unexpected_token_error (t_types : list TokenType.t)
    (token : Token.t) : string :=
  "Expected "
  +:+ fold_right (λ t_type rest, (TokenType.name t_type +:+ ",") +:+ rest)
        "" t_types
  +:+ " got " +:+ Token.name token.

Definition unexpected_end_error : string := "Unexpected end of json".

(** The branch every overload takes when the cursor gives no token:
    a JSON error if the tokenizer failed, a parse error otherwise. *)
Definition no_token {A : Type} (tokens : TokenStream.t)
  : ParseResult.t A :=
  match TokenStream.m_error tokens with
  | Some error => json_error error (TokenStream.get_path tokens)
  | None => parse_error unexpected_end_error (TokenStream.get_path tokens)
  end.

(** The part of [parse_value_impl] that follows the test
    [token.is_of_type<t_type>()]: the compile-time category of the
    target [T] and of the token's value type select the branch. *)
Definition convert (T : ValueType) (token : Token.t)
    (path : option string) : ParseResult.t JValue :=
  match T, token with
  | bool_t, Token.BoolToken value => result (VBool value)
  | integer_t R, (Token.IntToken _ | Token.UintToken _
                 | Token.Int64Token _ | Token.Uint64Token _) =>
      match Token.integer_value token with
      | Some (V, value) =>
          if in_range R V value
          then result (VInteger (static_cast R value))
          else parse_error "Integer value not in range" path
      | None => parse_error ("Unexpected " +:+ Token.name token) path
      end
  | floating_t F, (Token.IntToken value | Token.UintToken value
                  | Token.Int64Token value | Token.Uint64Token value) =>
      result (VFloating (Floating.of_integer F value))
  | floating_t F, Token.DoubleToken value =>
      result (VFloating (Floating.of_double F value))
  | string_t, (Token.NumberToken value | Token.StringToken value) =>
      result (VString value)
  | _, _ => parse_error ("Unexpected " +:+ Token.name token) path
  end.

(** [parse_value_impl<T, Head, Tail...>]: walk the list of value
    tokens until the type of [token] is found. *)
Fixpoint parse_value_impl (T : ValueType) (token : Token.t)
    (path : option string) (Head : TokenType.t)
    (Tail : list TokenType.t) {struct Tail} : ParseResult.t JValue :=
  if negb (Token.is_of_type Head token) then
    match Tail with
    | Head' :: Tail' => parse_value_impl T token path Head' Tail'
    | [] => parse_error ("Unexpected " +:+ Token.name token) path
    end
  else convert T token path.

(** [parse_value<T>]: [parse_value_impl] over [ValueTokens]. *)
Definition parse_value (T : ValueType) (token : Token.t)
    (path : option string) : ParseResult.t JValue :=
  parse_value_impl T token path TokenType.Bool
    [TokenType.Int; TokenType.Uint; TokenType.Int64; TokenType.Uint64;
     TokenType.Double; TokenType.RawNumber; TokenType.String].

(** Specialization for values. *)
Definition parse_json_value (T : ValueType) (tokens : TokenStream.t)
  : Parsed JValue :=
  let* '(maybeToken, tokens) := TokenStream.next tokens in
  match maybeToken with
  | None => Done (no_token tokens, tokens)
  | Some token =>
      Done (parse_value T token (TokenStream.get_path tokens), tokens)
  end.

Section Specializations.
(** [parse<ValueType>], the overload selected for the element type. *)
Variable parse : TokenStream.t → Parsed JValue.

(** Specialization for optional. *)
Definition parse_optional (tokens : TokenStream.t) : Parsed JValue :=
  let* '(maybeToken, tokens) := TokenStream.peek tokens in
  match maybeToken with
  | None => Done (no_token tokens, tokens)
  | Some token =>
      if Token.is_of_type TokenType.Null token then
        let* '(_, tokens) := TokenStream.next tokens in
        Done (result (VOptional None), tokens)
      else
        let* '(r, tokens) := parse tokens in
        match r with
        | Ok value => Done (result (VOptional (Some value)), tokens)
        | Err error_type e => Done (convert_error error_type e, tokens)
        end
  end.

(** The [while (true)] of the specialization for arrays; [n] bounds
    the number of iterations. *)
Fixpoint array_loop (n : nat) (k : ArrayKind) (acc : list JValue)
    (tokens : TokenStream.t) : Parsed JValue :=
  match n with
  | O => OutOfFuel
  | S n =>
      let* '(maybeToken, tokens) := TokenStream.peek tokens in
      match maybeToken with
      | None => Done (no_token tokens, tokens)
      | Some token =>
          if Token.is_of_type TokenType.EndArray token then
            let* '(_, tokens) := TokenStream.next tokens in
            Done (result (VArray k acc), tokens)
          else
            let* '(member_result, tokens) := parse tokens in
            match member_result with
            | Err error_type e =>
                Done (convert_error error_type e, tokens)
            | Ok value =>
                array_loop n k (array_emplace k acc value) tokens
            end
      end
  end.

(** Specialization for arrays. *)
Definition parse_array_like (n : nat) (k : ArrayKind)
    (tokens : TokenStream.t) : Parsed JValue :=
  let* '(maybeToken, tokens) := TokenStream.next tokens in
  match maybeToken with
  | None => Done (no_token tokens, tokens)
  | Some token =>
      if negb (Token.is_of_type TokenType.StartArray token) then
        Done (parse_error
                (unexpected_token_error [TokenType.StartArray] token)
                (TokenStream.get_path tokens), tokens)
      else array_loop n k [] tokens
  end.

(** The [while (true)] of the specialization for dicts. *)
Fixpoint dict_loop (n : nat) (k : DictKind)
    (acc : list (string * JValue)) (tokens : TokenStream.t)
  : Parsed JValue :=
  match n with
  | O => OutOfFuel
  | S n =>
      let* '(maybeToken, tokens) := TokenStream.next tokens in
      match maybeToken with
      | None => Done (no_token tokens, tokens)
      | Some token =>
          match token with
          | Token.EndObjectToken _ => Done (result (VDict k acc), tokens)
          | Token.KeyToken key =>
              let* '(member_result, tokens) := parse tokens in
              match member_result with
              | Err error_type e =>
                  Done (convert_error error_type e, tokens)
              | Ok value =>
                  dict_loop n k (dict_emplace acc key value) tokens
              end
          | _ =>
              Done (parse_error
                      (unexpected_token_error
                         [TokenType.Key; TokenType.EndObject] token)
                      (TokenStream.get_path tokens), tokens)
          end
      end
  end.

(** Specialization for dicts. *)
Definition parse_dict_like (n : nat) (k : DictKind)
    (tokens : TokenStream.t) : Parsed JValue :=
  let* '(maybeToken, tokens) := TokenStream.next tokens in
  match maybeToken with
  | None => Done (no_token tokens, tokens)
  | Some token =>
      if negb (Token.is_of_type TokenType.StartObject token) then
        Done (parse_error
                (unexpected_token_error [TokenType.StartObject] token)
                (TokenStream.get_path tokens), tokens)
      else dict_loop n k [] tokens
  end.

End Specializations.

End Deserializer.

(* ===================================================================== *)
(** * DeserializationHelper.hpp                                            *)
(* ===================================================================== *)

Module DeserializationHelper.

Import ParseResult.

(** The object under construction: the members that the field
    descriptors refer to.  A reference is the position of a member. *)
Abbreviation Storage := (list JValue).

(** [Field<T>]: [name], the type [T], the reference [m_ref], and
    [m_set]. *)
Record Field := mkField {
  name : string;
  type : JType;
  m_ref : nat;
  m_set : bool;
}.

(** [FieldBase::is_opt]. *)
Definition is_opt (field : Field) : bool :=
  match type field with Optional _ => true | _ => false end.

Definition is_ready (field : Field) : bool := m_set field || is_opt field.

Definition is_set (field : Field) : bool := m_set field.

(** [set(value)]: assign through the reference, then mark. *)
Definition set (value : JValue) (field : Field) (object : Storage)
  : Field * Storage :=
  (mkField (name field) (type field) (m_ref field) true,
   <[m_ref field := value]> object).

(** What the helper returns: the [ParseResult<void>], the token stream,
    and the descriptors and the storage as the call leaves them. *)
Definition Helped : Type :=
  Outcome (ParseResult.t () * TokenStream.t * list Field * Storage).

Definition build_fields_map (fields : list Field) : gmap string nat :=
  (fold_left
     (λ '(result, counter) field,
        (<[name field := counter]> result, S counter))
     fields (∅, O)).1.

Definition missing_keys_error (fields : list Field) : string :=
  fold_left
    (λ acc field,
       acc +:+ (if is_ready field then "" else name field +:+ ", "))
    fields "Missing keys: "
  +:+ "got " +:+ TokenType.name TokenType.EndObject.

Section Helper.
(** [Deserializer::parse<FieldType>]. *)
Variable parse : JType → TokenStream.t → Deserializer.Parsed JValue.

(** [parse_field]: [call_on_nth] runs the lambda on the descriptor at
    [index], which fills [result]; without such a descriptor
    [result.value()] has no value to return. *)
Definition parse_field (tokens : TokenStream.t) (key : string)
    (index : nat) (fields : list Field) (object : Storage) : Helped :=
  let result :=
    call_on_nth index
      (λ field,
         if is_set field then
           Done (parse_error ("Duplicate key: " +:+ key)
                   (TokenStream.get_path tokens), tokens, fields, object)
         else
           let* '(field_result, tokens) := parse (type field) tokens in
           match field_result with
           | Err error_type e =>
               Done (convert_error error_type e, tokens, fields, object)
           | Ok value =>
               let '(field, object) := set value field object in
               Done (result (), tokens, <[index := field]> fields, object)
           end)
      fields in
  match result with
  | Some result => result
  | None => Undefined
  end.

(** The [while (true)] of [parse_object]; [n] bounds the number of
    iterations. *)
Fixpoint object_loop (n : nat) (map : gmap string nat)
    (tokens : TokenStream.t) (fields : list Field) (object : Storage)
  : Helped :=
  match n with
  | O => OutOfFuel
  | S n =>
      let* '(maybeToken, tokens) := TokenStream.next tokens in
      match maybeToken with
      | None => Done (Deserializer.no_token tokens, tokens, fields, object)
      | Some token =>
          let on_key :=
            match token with
            | Token.KeyToken key =>
                match map !! key with
                | None =>
                    Done (parse_error ("Unexpected key: " +:+ key)
                            (TokenStream.get_path tokens),
                          tokens, fields, object)
                | Some index =>
                    let* '(field_result, tokens, fields, object) :=
                      parse_field tokens key index fields object in
                    match field_result with
                    | Err _ _ =>
                        Done (field_result, tokens, fields, object)
                    | Ok _ => object_loop n map tokens fields object
                    end
                end
            | _ =>
                Done (parse_error
                        (Deserializer.unexpected_token_error
                           [TokenType.Key; TokenType.EndObject] token)
                        (TokenStream.get_path tokens),
                      tokens, fields, object)
            end in
          if Token.is_of_type TokenType.EndObject token then
            if forallb is_ready fields then
              Done (result (), tokens, fields, object)
            else
              match fields with
              | _ :: _ =>
                  Done (parse_error (missing_keys_error fields)
                          (TokenStream.get_path tokens),
                        tokens, fields, object)
              | [] => on_key
              end
          else on_key
      end
  end.

Definition parse_object (n : nat) (tokens : TokenStream.t)
    (fields : list Field) (object : Storage) : Helped :=
  let* '(maybeToken, tokens) := TokenStream.next tokens in
  match maybeToken with
  | None => Done (Deserializer.no_token tokens, tokens, fields, object)
  | Some token =>
      if negb (Token.is_of_type TokenType.StartObject token) then
        Done (parse_error
                (Deserializer.unexpected_token_error
                   [TokenType.StartObject] token)
                (TokenStream.get_path tokens), tokens, fields, object)
      else
        object_loop n (build_fields_map fields) tokens fields object
  end.

(** The descriptors of a class: one per member, each referring to its
    own member, none set. *)
Definition fields_of (members : list (string * JType)) : list Field :=
  imap (λ i member, mkField member.1 member.2 i false) members.

(** [T::json_parse] (or [Deserializable<T, Tokens>::parse]) as the
    documentation of the helper writes it: a default-initialised
    object, one descriptor per member, [parse_object], and either the
    object or the converted error. *)
Definition json_parse (n : nat) (members : list (string * JType))
    (tokens : TokenStream.t) : Deserializer.Parsed JValue :=
  let object := map (λ member, default_value member.2) members in
  let* '(r, tokens, _, object) :=
    parse_object n tokens (fields_of members) object in
  match r with
  | Ok _ => Done (result (VClass object), tokens)
  | Err error_type e => Done (convert_error error_type e, tokens)
  end.

End Helper.

End DeserializationHelper.

(** [Deserializer::parse<T>]: the overload that the category of [T]
    selects.  [fuel] bounds the depth of the calls and the iterations of
    each loop. *)
Fixpoint Deserializer_parse (fuel : nat) (T : JType)
    (tokens : TokenStream.t) : Deserializer.Parsed JValue :=
  match fuel with
  | O => OutOfFuel
  | S fuel =>
      match T with
      | Value V => Deserializer.parse_json_value V tokens
      | Optional T' =>
          Deserializer.parse_optional (Deserializer_parse fuel T') tokens
      | ArrayLike k T' =>
          Deserializer.parse_array_like (Deserializer_parse fuel T')
            fuel k tokens
      | DictLike k T' =>
          Deserializer.parse_dict_like (Deserializer_parse fuel T')
            fuel k tokens
      | Class members =>
          DeserializationHelper.json_parse (Deserializer_parse fuel)
            fuel members tokens
      end
  end.

(* ===================================================================== *)
(** * Serializer.hpp and SerializationHelper.hpp                           *)
(* ===================================================================== *)

Module Serializer.

(** [Serializer::dump<T>(value, writer)], with
    [SerializationHelper::dump] for the classes: [start_object], then
    [key] and the member for each field in order, then [end_object].
    Only values of type [T] are ever passed. *)
Fixpoint dump (T : JType) (value : JValue) (writer : SimpleWriter.t)
    {struct value} : SimpleWriter.t :=
  match T, value with
  | Value bool_t, VBool b => SimpleWriter.boolean b writer
  | Value (integer_t Int), VInteger z => SimpleWriter.integer Int z writer
  | Value (floating_t F), VFloating x => SimpleWriter.floating F x writer
  | Value string_t, VString s => SimpleWriter.string s writer
  | Optional T', VOptional (Some x) => dump T' x writer
  | Optional T', VOptional None => SimpleWriter.null writer
  | ArrayLike _ T', VArray _ l =>
      SimpleWriter.end_array
        (fold_left (λ writer m, dump T' m writer) l
           (SimpleWriter.start_array writer))
  | DictLike _ T', VDict _ l =>
      SimpleWriter.end_object
        (fold_left
           (λ writer e, dump T' e.2 (SimpleWriter.key e.1 writer)) l
           (SimpleWriter.start_object writer))
  | Class fields, VClass members =>
      SimpleWriter.end_object
        ((fix each (fields : list (string * JType))
              (members : list JValue) (writer : SimpleWriter.t)
              {struct members} : SimpleWriter.t :=
            match fields, members with
            | field :: fields, m :: members =>
                each fields members
                  (dump field.2 m (SimpleWriter.key field.1 writer))
            | _, _ => writer
            end) fields members (SimpleWriter.start_object writer))
  | _, _ => writer
  end.

End Serializer.

(* ===================================================================== *)
(** * Json.hpp                                                             *)
(* ===================================================================== *)

Module Json.

(** [parse<T>(json)]: a [ContextTokenStream] over the text, then
    [Deserializer::parse<T>]; the stream is dropped.  The text is given
    by what the tokenizer answers on it. *)
Definition parse (fuel : nat) (T : JType) (json : list Reader.Answer)
  : Outcome (ParseResult.t JValue) :=
  let* '(r, _) :=
    Deserializer_parse fuel T (TokenStream.ContextTokenStream json) in
  Done r.

(** [dump<T>(value)]: a fresh writer, [Serializer::dump]; the text is
    given by the calls the writer has received. *)
Definition dump (T : JType) (value : JValue) : list WriterCall :=
  Serializer.dump T value [].

End Json.

(* ===================================================================== *)
(** * The tokenizer on particular texts                                    *)
(* ===================================================================== *)

Module Tokenizer.

(** Modelled from the spec: the external tokenizer (rapidjson's
    [Reader]), which the specification treats as a black box producing
    one lexical event per pull.  An integer literal is handed over as
    the narrowest of the four integer events that holds it: [Int] or
    [Int64] when negative, [Uint] or [Uint64] otherwise. *)
Definition number (z : Z) : Token.t :=
  if z <? 0 then
    if numeric_limits_min int <=? z
    then Token.IntToken z else Token.Int64Token z
  else
    if z <=? numeric_limits_max unsigned
    then Token.UintToken z else Token.Uint64Token z.

(** Modelled from the spec: the answers of the tokenizer while it goes
    through the lexical events [tokens], one successful pull per event;
    [completes] tells whether the reader is complete once the last of
    them is out, and [rest] is what it answers afterwards. *)
Fixpoint events (tokens : list Token.t) (completes : bool)
    (rest : list Reader.Answer) : list Reader.Answer :=
  match tokens with
  | [] => rest
  | token :: tokens =>
      Reader.deliver token
        (match tokens with [] => completes | _ => false end)
      :: events tokens completes rest
  end.

(** Modelled from the spec: the answers of the tokenizer on a text that
    is one well-formed document with the lexical events [tokens]; the
    reader is complete once the last one is out. *)
Definition document (tokens : list Token.t) : list Reader.Answer :=
  events tokens true [].

(** Modelled from the spec: the contract between the external writer and
    the external tokenizer.  In the text that the writer produces for a
    sequence of primitive calls, the tokenizer finds one lexical event
    per call: the same literal, string or structural mark, an integer as
    [number] classifies it, and at the end of an object or array the
    count of members, about which nothing is assumed.  (Nothing is said
    about the decimal text of a floating-point number.) *)
Inductive reads : WriterCall → Token.t → Prop :=
| reads_null : reads WNull Token.NullToken
| reads_bool b : reads (WBool b) (Token.BoolToken b)
| reads_int z : reads (WInt z) (number z)
| reads_uint z : reads (WUint z) (number z)
| reads_int64 z : reads (WInt64 z) (number z)
| reads_uint64 z : reads (WUint64 z) (number z)
| reads_string s : reads (WString s) (Token.StringToken s)
| reads_start_object : reads WStartObject Token.StartObjectToken
| reads_key k : reads (WKey k) (Token.KeyToken k)
| reads_end_object n : reads WEndObject (Token.EndObjectToken n)
| reads_start_array : reads WStartArray Token.StartArrayToken
| reads_end_array n : reads WEndArray (Token.EndArrayToken n).

End Tokenizer.

(* ===================================================================== *)
(** * Well-typed values                                                    *)
(* ===================================================================== *)

(** A set-like container holds no two equal elements, a dict-like one no
    two entries with the same key: entering the elements one after the
    other never meets an element that is already there. *)
Definition no_duplicates (k : ArrayKind) (l : list JValue) : Prop :=
  fold_left (array_emplace k) l [] = l.

Definition no_duplicate_keys (l : list (string * JValue)) : Prop :=
  fold_left (λ acc e, dict_emplace acc e.1 e.2) l [] = l.

(** The values that an object of type [T] can hold. *)
Inductive has_type : JType → JValue → Prop :=
| type_bool b : has_type (Value bool_t) (VBool b)
| type_integer T z :
    representable T z → has_type (Value (integer_t T)) (VInteger z)
| type_floating F x : has_type (Value (floating_t F)) (VFloating x)
| type_string s : has_type (Value string_t) (VString s)
| type_absent T : has_type (Optional T) (VOptional None)
| type_present T v :
    has_type T v → has_type (Optional T) (VOptional (Some v))
| type_array k T l :
    Forall (has_type T) l → no_duplicates k l →
    has_type (ArrayLike k T) (VArray k l)
| type_dict k T l :
    Forall (λ e, has_type T e.2) l → no_duplicate_keys l →
    has_type (DictLike k T) (VDict k l)
| type_class fields members :
    Forall2 (λ field m, has_type field.2 m) fields members →
    has_type (Class fields) (VClass members).

(** The types whose text form is decided by this library alone: no
    floating-point scalar occurs in them (the decimal text of a [double]
    is written and read by the external collaborators), and the fields
    of each class have distinct names. *)
Inductive exact_type : JType → Prop :=
| exact_bool : exact_type (Value bool_t)
| exact_integer T : exact_type (Value (integer_t T))
| exact_string : exact_type (Value string_t)
| exact_optional T : exact_type T → exact_type (Optional T)
| exact_array k T : exact_type T → exact_type (ArrayLike k T)
| exact_dict k T : exact_type T → exact_type (DictLike k T)
| exact_class fields :
    NoDup fields.*1 → Forall (λ field, exact_type field.2) fields →
    exact_type (Class fields).

(** Whether somewhere in [v] a present optional holds an absent
    optional. *)
Fixpoint present_absent (v : JValue) : bool :=
  match v with
  | VOptional (Some (VOptional None)) => true
  | VOptional (Some x) => present_absent x
  | VArray _ l => existsb present_absent l
  | VDict _ l => existsb (λ e, present_absent e.2) l
  | VClass members => existsb present_absent members
  | _ => false
  end.

(* ===================================================================== *)
(** * The states of a path-tracking cursor during a parse                  *)
(* ===================================================================== *)

(** The cursor holds no token. *)
Definition fresh (path : Path.t) (answers : list Reader.Answer)
    (complete : bool) : TokenStream.t :=
  TokenStream.mkStream (Reader.mkReader answers complete) None None true
    path.

(** The cursor holds [token], pulled by a [peek]. *)
Definition primed (token : Token.t) (path : Path.t)
    (answers : list Reader.Answer) (complete : bool) : TokenStream.t :=
  TokenStream.mkStream (Reader.mkReader answers complete) (Some token) None
    true path.

(** The completion flag of the reader once the first of [token :: tokens]
    is out. *)
Definition after_first (tokens : list Token.t) (completes : bool) : bool :=
  match tokens with [] => completes | _ => false end.

(** [parses_back_at n T v tokens]: with fuel [n] or more, wherever the
    lexical events [tokens] come up in a document and whatever follows
    them, [Deserializer::parse<T>] started on a cursor that has just
    pulled the first of them returns [v], having consumed exactly these
    events; the path is then the one before the value, advanced if it
    ends in an array.  The first event does not close an array, and it
    is [Null] only for the absent optional. *)
Definition parses_back_at (n : nat) (T : JType) (v : JValue)
    (tokens : list Token.t) : Prop :=
  ∃ token tokens',
    tokens = token :: tokens'
    ∧ Token.is_of_type TokenType.EndArray token = false
    ∧ (Token.is_of_type TokenType.Null token = true → v = VOptional None)
    ∧ ∀ fuel, (n ≤ fuel)%nat → ∀ path completes rest,
        ∃ path',
          TokenStream.on_advance token path = Some path'
          ∧ Deserializer_parse fuel T
              (primed token path'
                 (Tokenizer.events tokens' completes rest)
                 (after_first tokens' completes))
            = Done (ParseResult.Ok v,
                    fresh (Path.advance_array_if_needed path) rest
                      completes).


(** The descriptors of a class once its first [j] members are set. *)
Definition descriptors (members : list (string * JType)) (j : nat)
  : list DeserializationHelper.Field :=
  imap (λ i member,
          DeserializationHelper.mkField member.1 member.2 i
            (bool_decide (i < j)%nat)) members.

(** What is proved of every value by induction: the events read from
    its dump parse back to it. *)
Definition ParsesBack (v : JValue) : Prop :=
  ∀ T tokens,
    exact_type T → has_type T v → present_absent v = false →
    Forall2 Tokenizer.reads (Json.dump T v) tokens →
    ∃ n, parses_back_at n T v tokens.

(** After an [acquire_token] the cursor is at rest: it has recorded an
    error, or it is complete, or it holds a token. *)
Definition at_rest (s : TokenStream.t) : Prop :=
  TokenStream.has_error s = true ∨ TokenStream.is_complete s = true
  ∨ TokenStream.has_token s = true.

Global Instance at_rest_dec s : Decision (at_rest s).
Proof. unfold at_rest. apply _. Defined.

(** The same cursor over a text that goes on: the tokenizer has the
    further answers [rest] to give. *)
Definition extend (rest : list Reader.Answer) (s : TokenStream.t)
  : TokenStream.t :=
  TokenStream.mkStream
    (Reader.mkReader (Reader.answers (TokenStream.m_reader s) ++ rest)
       (Reader.complete (TokenStream.m_reader s)))
    (TokenStream.m_handler s) (TokenStream.m_error s)
    (TokenStream.context s) (TokenStream.m_path s).

(** A parse of one element type whose successes do not depend on what
    the text holds after the value. *)
Definition ignores_rest (rest : list Reader.Answer)
    (parse : TokenStream.t → Deserializer.Parsed JValue) : Prop :=
  ∀ s v s1,
    parse s = Done (ParseResult.Ok v, s1) →
    parse (extend rest s) = Done (ParseResult.Ok v, extend rest s1).

(* ===================================================================== *)
(** * Documents and locations                                              *)
(* ===================================================================== *)

(** A JSON document as a tree: a scalar event, an array of documents, or
    an object of keyed documents. *)
Inductive Document :=
| Scalar (token : Token.t)
| ArrayOf (elements : list Document)
| ObjectOf (members : list (string * Document)).

(** The lexical events of a document, in the order of the text. *)
Fixpoint events_of (d : Document) : list Token.t :=
  match d with
  | Scalar token => [token]
  | ArrayOf elements =>
      Token.StartArrayToken
      :: concat (map events_of elements)
      ++ [Token.EndArrayToken (Z.of_nat (length elements))]
  | ObjectOf members =>
      Token.StartObjectToken
      :: concat (map (λ m, Token.KeyToken m.1 :: events_of m.2) members)
      ++ [Token.EndObjectToken (Z.of_nat (length members))]
  end.

(** The first of them. *)
Definition first_event (d : Document) : Token.t :=
  match d with
  | Scalar token => token
  | ArrayOf _ => Token.StartArrayToken
  | ObjectOf _ => Token.StartObjectToken
  end.

(** The events of [null] and of the scalars, as opposed to the
    structural marks. *)
Definition scalar_event (token : Token.t) : bool :=
  match token with
  | Token.StartObjectToken | Token.KeyToken _ | Token.EndObjectToken _
  | Token.StartArrayToken | Token.EndArrayToken _ => false
  | _ => true
  end.

Fixpoint well_formed (d : Document) : bool :=
  match d with
  | Scalar token => scalar_event token
  | ArrayOf elements => forallb well_formed elements
  | ObjectOf members => forallb (λ m, well_formed m.2) members
  end.

(** A structural location: the keys and indices that lead from the root
    to a value. *)
Inductive Step :=
| Member (key : string)
| Element (index : nat).

(** [at_location d location before sub]: in [d], [location] leads to the
    value [sub], and [before] are the events of [d] that precede those of
    [sub]. *)
Inductive at_location
  : Document → list Step → list Token.t → Document → Prop :=
| at_root d : at_location d [] [] d
| at_element elements index e location before sub :
    elements !! index = Some e →
    at_location e location before sub →
    at_location (ArrayOf elements) (Element index :: location)
      (Token.StartArrayToken
       :: concat (map events_of (take index elements)) ++ before)
      sub
| at_member members i key m location before sub :
    members !! i = Some (key, m) →
    at_location m location before sub →
    at_location (ObjectOf members) (Member key :: location)
      (Token.StartObjectToken
       :: concat (map (λ m, Token.KeyToken m.1 :: events_of m.2)
                    (take i members))
       ++ Token.KeyToken key :: before)
      sub.

(** The rendering of a location in the grammar of the error paths:
    [root], then [.key] for a member and [[index]] for an element. *)
Definition render_step (step : Step) : string :=
  match step with
  | Member key => "." +:+ key
  | Element index => "[" +:+ pretty (Z.of_nat index) +:+ "]"
  end.

Definition render_location (location : list Step) : string :=
  fold_left (λ result step, result +:+ render_step step) location "root".

(** The path of a [ContextTokenStream] that started at [path] and has
    pulled [tokens]: [on_advance] for each of them. *)
Fixpoint path_after (tokens : list Token.t) (path : Path.t)
  : option Path.t :=
  match tokens with
  | [] => Some path
  | token :: tokens =>
      match TokenStream.on_advance token path with
      | Some path => path_after tokens path
      | None => None
      end
  end.

(** Whether the first event of a value is a type mismatch for the target
    [T]: the scalar overload has no value for it, or the array, dict or
    class overload does not find its opening mark. *)
Fixpoint rejects (T : JType) (token : Token.t) : bool :=
  match T with
  | Value V => negb (ParseResult.is_ok (Deserializer.parse_value V token None))
  | Optional T =>
      negb (Token.is_of_type TokenType.Null token) && rejects T token
  | ArrayLike _ _ => negb (Token.is_of_type TokenType.StartArray token)
  | DictLike _ _ | Class _ =>
      negb (Token.is_of_type TokenType.StartObject token)
  end.

(** The depth of the optionals around the target. *)
Fixpoint optionals (T : JType) : nat :=
  match T with Optional T => S (optionals T) | _ => O end.

(* ===================================================================== *)
(** * Induction through the lists of values and documents                 *)
(* ===================================================================== *)

Section ValueInduction.

Variable P : JValue → Prop.
Hypothesis Hbool : ∀ b, P (VBool b).
Hypothesis Hinteger : ∀ z, P (VInteger z).
Hypothesis Hfloating : ∀ x, P (VFloating x).
Hypothesis Hstring : ∀ s, P (VString s).
Hypothesis Habsent : P (VOptional None).
Hypothesis Hpresent : ∀ v, P v → P (VOptional (Some v)).
Hypothesis Harray : ∀ k l, Forall P l → P (VArray k l).
Hypothesis Hdict : ∀ k l, Forall (λ e, P e.2) l → P (VDict k l).
Hypothesis Hclass : ∀ members, Forall P members → P (VClass members).

Fixpoint JValue_nested_ind (v : JValue) : P v :=
  match v with
  | VBool b => Hbool b
  | VInteger z => Hinteger z
  | VFloating x => Hfloating x
  | VString s => Hstring s
  | VOptional None => Habsent
  | VOptional (Some x) => Hpresent x (JValue_nested_ind x)
  | VArray k l =>
      Harray k l
        ((fix all (l : list JValue) : Forall P l :=
            match l with
            | [] => List.Forall_nil P
            | x :: l => List.Forall_cons P x l (JValue_nested_ind x) (all l)
            end) l)
  | VDict k l =>
      Hdict k l
        ((fix all (l : list (string * JValue)) : Forall (λ e, P e.2) l :=
            match l with
            | [] => List.Forall_nil _
            | e :: l => List.Forall_cons _ e l (JValue_nested_ind e.2) (all l)
            end) l)
  | VClass members =>
      Hclass members
        ((fix all (l : list JValue) : Forall P l :=
            match l with
            | [] => List.Forall_nil P
            | x :: l => List.Forall_cons P x l (JValue_nested_ind x) (all l)
            end) members)
  end.

End ValueInduction.

Section DocumentInduction.

Variable P : Document → Prop.
Hypothesis Hscalar : ∀ token, P (Scalar token).
Hypothesis Harray : ∀ elements, Forall P elements → P (ArrayOf elements).
Hypothesis Hobject :
  ∀ members, Forall (λ m, P m.2) members → P (ObjectOf members).

Fixpoint Document_nested_ind (d : Document) : P d :=
  match d with
  | Scalar token => Hscalar token
  | ArrayOf elements =>
      Harray elements
        ((fix all (l : list Document) : Forall P l :=
            match l with
            | [] => List.Forall_nil P
            | x :: l => List.Forall_cons P x l (Document_nested_ind x) (all l)
            end) elements)
  | ObjectOf members =>
      Hobject members
        ((fix all (l : list (string * Document)) : Forall (λ m, P m.2) l :=
            match l with
            | [] => List.Forall_nil _
            | m :: l =>
                List.Forall_cons _ m l (Document_nested_ind m.2) (all l)
            end) members)
  end.

End DocumentInduction.

(* ===================================================================== *)
(** * Notions for the further properties                                  *)
(* ===================================================================== *)

(** A parse that reports where it stopped: it keeps the kind of the
    cursor, an error it returns carries the path at which it leaves the
    cursor, and a JSON error carries the message the cursor recorded. *)
Definition reports (parse : TokenStream.t → Deserializer.Parsed JValue)
  : Prop :=
  ∀ s r s', parse s = Done (r, s') →
    TokenStream.context s' = TokenStream.context s
    ∧ ∀ error_type e, r = ParseResult.Err error_type e →
        ParseResult.path e = TokenStream.get_path s'
        ∧ (error_type = ParseResult.JSON_ERROR →
           TokenStream.m_error s' = Some (ParseResult.error e)).


(** A parse whose values have the target type. *)
Definition typed (T : JType)
    (parse : TokenStream.t → Deserializer.Parsed JValue) : Prop :=
  ∀ s v s', parse s = Done (ParseResult.Ok v, s') → has_type T v.

Section TypeInduction.

Variable P : JType → Prop.
Hypothesis Hvalue : ∀ V, P (Value V).
Hypothesis Hoptional : ∀ T, P T → P (Optional T).
Hypothesis Harray : ∀ k T, P T → P (ArrayLike k T).
Hypothesis Hdict : ∀ k T, P T → P (DictLike k T).
Hypothesis Hclass : ∀ fields, Forall (λ f, P f.2) fields → P (Class fields).

Fixpoint JType_nested_ind (T : JType) : P T :=
  match T with
  | Value V => Hvalue V
  | Optional T => Hoptional T (JType_nested_ind T)
  | ArrayLike k T => Harray k T (JType_nested_ind T)
  | DictLike k T => Hdict k T (JType_nested_ind T)
  | Class fields =>
      Hclass fields
        ((fix all (l : list (string * JType)) : Forall (λ f, P f.2) l :=
            match l with
            | [] => List.Forall_nil _
            | f :: l => List.Forall_cons _ f l (JType_nested_ind f.2) (all l)
            end) fields)
  end.

End TypeInduction.

(** The calls that make up one JSON value: one scalar primitive, or the
    values between the marks of an array, or, between the marks of an
    object, the values each after its key. *)
Inductive value_calls : list WriterCall → Prop :=
| calls_null : value_calls [WNull]
| calls_bool b : value_calls [WBool b]
| calls_int z : value_calls [WInt z]
| calls_uint z : value_calls [WUint z]
| calls_int64 z : value_calls [WInt64 z]
| calls_uint64 z : value_calls [WUint64 z]
| calls_double x : value_calls [WDouble x]
| calls_string s : value_calls [WString s]
| calls_array (elements : list (list WriterCall)) :
    Forall value_calls elements →
    value_calls (WStartArray :: concat elements ++ [WEndArray])
| calls_object (members : list (string * list WriterCall)) :
    Forall (λ m, value_calls m.2) members →
    value_calls
      (WStartObject :: concat (map (λ m, WKey m.1 :: m.2) members)
       ++ [WEndObject]).

(** The descriptors of a class once the members whose index is in
    [seen] are set. *)
Definition descriptors_in (members : list (string * JType))
    (seen : list nat) : list DeserializationHelper.Field :=
  imap (λ i member,
          DeserializationHelper.mkField member.1 member.2 i
            (bool_decide (i ∈ seen))) members.

(** The events of the members of an object in a text that gives the
    members with the indices [order], in that order, each after its
    key; [tss] holds the events of the value of every member. *)
Definition keyed_members (members : list (string * JType))
    (tss : list (list Token.t)) (order : list nat) : list Token.t :=
  concat
    (omap (λ i, match members !! i, tss !! i with
                | Some f, Some ts => Some (Token.KeyToken f.1 :: ts)
                | _, _ => None
                end) order).

(** What the cursor can still give: the token it holds and the answers
    the reader has left. *)
Definition avail (s : TokenStream.t) : nat :=
  (TokenStream.unread s + if TokenStream.has_token s then 1 else 0)%nat.

(** A reader never hands over [null] in a call that fails, and the
    cursor holds no [null] beside an error. *)
Definition orderly (s : TokenStream.t) : Prop :=
  Forall (λ a, Reader.failure a ≠ None →
               Reader.dispatched a ≠ Some Token.NullToken)
    (Reader.answers (TokenStream.m_reader s))
  ∧ (TokenStream.has_error s = true →
     TokenStream.m_handler s ≠ Some Token.NullToken).

(** The depth to which the overloads for [T] call one another. *)
Fixpoint depth (T : JType) : nat :=
  match T with
  | Value _ => O
  | Optional T | ArrayLike _ T | DictLike _ T => S (depth T)
  | Class fields =>
      S (fold_right (λ f d, Nat.max (depth f.2) d) O fields)
  end.

(** A parse that makes progress: it leaves the cursor orderly and with
    no more to give than before, and with less when it returns a
    value. *)
Definition progresses (parse : TokenStream.t → Deserializer.Parsed JValue)
  : Prop :=
  ∀ s r s', orderly s → parse s = Done (r, s') →
    orderly s' ∧ (avail s' ≤ avail s)%nat
    ∧ (ParseResult.is_ok r = true → (avail s' < avail s)%nat).

(** A parse whose values hold no present optional around an absent
    one. *)
Definition plain (parse : TokenStream.t → Deserializer.Parsed JValue)
  : Prop :=
  ∀ s v s', parse s = Done (ParseResult.Ok v, s') →
    present_absent v = false.

(** A parse that returns the absent optional only for [null]. *)
Definition absent_on_null
    (parse : TokenStream.t → Deserializer.Parsed JValue) : Prop :=
  ∀ s s', at_rest s →
    parse s = Done (ParseResult.Ok (VOptional None), s') →
    TokenStream.m_handler s = Some Token.NullToken.

(* ===================================================================== *)
(** * Properties                                                           *)
(* ===================================================================== *)

(** ** Strings *)

Lemma append_nil_r (s : string) : s +:+ "" = s.
Proof.
  induction s as [|c s IH]; [done|].
  change (String c (s +:+ "") = String c s). by rewrite IH.
Qed.

Lemma append_assoc (s1 s2 s3 : string) :
  (s1 +:+ s2) +:+ s3 = s1 +:+ (s2 +:+ s3).
Proof.
  induction s1 as [|c s1 IH]; [done|].
  change (String c ((s1 +:+ s2) +:+ s3) = String c (s1 +:+ (s2 +:+ s3))).
  by rewrite IH.
Qed.

Lemma concat_cons (x : string) (l : list string) :
  String.concat "" (x :: l) = x +:+ String.concat "" l.
Proof.
  destruct l as [|y l].
  - change (x = x +:+ ""). symmetry. apply append_nil_r.
  - reflexivity.
Qed.

(** ** The comparisons of detail/TypeUtils.hpp *)

Lemma representable_bounds T v :
  representable T v → - 2 ^ 63 <= v < 2 ^ 64.
Proof.
  unfold representable, numeric_limits_min, numeric_limits_max.
  destruct T as [[] []]; simpl; lia.
Qed.

Lemma make_unsigned_nonneg T t :
  representable T t → 0 <= t → make_unsigned T t = t.
Proof.
  unfold representable, numeric_limits_min, numeric_limits_max,
    make_unsigned, static_cast.
  destruct T as [[] []]; simpl; intros ? ?; apply Z.mod_small; lia.
Qed.

(** On operands that their types can hold, [cmp_less] is [<] on the
    mathematical values, whatever the signedness of either side. *)
Lemma cmp_less_exact T U t u :
  representable T t → representable U u →
  cmp_less T U t u = (t <? u).
Proof.
  intros Ht Hu. unfold cmp_less.
  destruct (Bool.eqb (is_signed T) (is_signed U)) eqn:E; [done|].
  destruct (is_signed T) eqn:ET.
  - destruct (is_signed U) eqn:EU; [done|].
    destruct (t <? 0) eqn:E0.
    + symmetry. apply Z.ltb_lt.
      assert (0 <= u); [|lia].
      unfold representable, numeric_limits_min in Hu.
      rewrite EU in Hu. lia.
    + rewrite make_unsigned_nonneg; [done|done|lia].
  - destruct (is_signed U) eqn:EU; [|done].
    destruct (u <? 0) eqn:E0.
    + symmetry. apply Z.ltb_ge.
      assert (0 <= t); [|lia].
      unfold representable, numeric_limits_min in Ht.
      rewrite ET in Ht. lia.
    + rewrite make_unsigned_nonneg; [done|done|lia].
Qed.

Lemma limits_representable R :
  representable R (numeric_limits_min R) ∧
  representable R (numeric_limits_max R).
Proof.
  unfold representable, numeric_limits_min, numeric_limits_max.
  destruct R as [[] []]; simpl; lia.
Qed.

Lemma in_range_exact R T t :
  representable T t →
  in_range R T t =
  (numeric_limits_min R <=? t) && (t <=? numeric_limits_max R).
Proof.
  intros Ht. destruct (limits_representable R) as [Hmin Hmax].
  unfold in_range, cmp_greater_equal, cmp_less_equal, cmp_greater.
  rewrite !cmp_less_exact by done.
  rewrite <- Z.leb_antisym. rewrite <- Z.leb_antisym. done.
Qed.

Lemma in_range_true R T t :
  representable T t → in_range R T t = true ↔ representable R t.
Proof.
  intros Ht. rewrite in_range_exact by done.
  unfold representable. rewrite andb_true_iff, !Z.leb_le. done.
Qed.

Lemma static_cast_representable T v :
  representable T v → static_cast T v = v.
Proof.
  unfold representable, numeric_limits_min, numeric_limits_max, static_cast.
  destruct T as [[] []]; cbn -[Z.modulo]; intros ?.
  all: try (apply Z.mod_small; lia).
  all: match goal with
       | |- (?a + ?h) mod ?m - _ = _ =>
           let c := eval vm_compute in h in
           change h with c; rewrite (Z.mod_small (a + c) m) by lia; lia
       end.
Qed.

(** ** The integer emission policy of the writer *)

Section IntegerEmission.

Lemma integer_positive Int value w :
  representable Int value → 0 < value →
  SimpleWriter.integer Int value w
  = w ++ [SimpleWriter.unsigned_path value].
Proof.
  intros Hrep Hpos. unfold SimpleWriter.integer, SimpleWriter.unsigned_path.
  assert ((0 <? value) = true) as -> by (apply Z.ltb_lt; lia).
  rewrite in_range_exact by done.
  assert ((numeric_limits_min unsigned <=? value) = true) as ->
    by (apply Z.leb_le; cbn; lia).
  cbn [andb].
  destruct (value <=? numeric_limits_max unsigned) eqn:E.
  - rewrite static_cast_representable; [done|].
    apply Z.leb_le in E. split; [cbn; lia | done].
  - rewrite static_cast_representable; [done|].
    apply representable_bounds in Hrep.
    unfold representable; cbn -[Z.pow]. lia.
Qed.

Lemma integer_not_positive Int value w :
  representable Int value → value <= 0 →
  SimpleWriter.integer Int value w
  = w ++ [SimpleWriter.signed_path value].
Proof.
  intros Hrep Hneg. unfold SimpleWriter.integer, SimpleWriter.signed_path.
  assert ((0 <? value) = false) as -> by (apply Z.ltb_ge; lia).
  rewrite in_range_exact by done.
  assert ((value <=? numeric_limits_max int) = true) as ->
    by (apply Z.leb_le; cbn; lia).
  rewrite andb_true_r.
  destruct (numeric_limits_min int <=? value) eqn:E.
  - rewrite static_cast_representable; [done|].
    apply Z.leb_le in E. split; [done | cbn; lia].
  - rewrite static_cast_representable; [done|].
    apply representable_bounds in Hrep.
    unfold representable; cbn -[Z.pow]. lia.
Qed.

End IntegerEmission.

(** C6, as stated, fails at zero: the sign test of the writer is
    [value > 0], so [0] is emitted through the signed 32-bit primitive,
    where the stated policy sends every non-negative value through the
    unsigned path. *)
Lemma integer_zero_takes_signed_path :
  SimpleWriter.integer int 0 [] = [WInt 0]
  ∧ SimpleWriter.integer int 0 []
    ≠ [SimpleWriter.integer_policy_of_spec 0].
Proof. split; [reflexivity | discriminate]. Qed.

(** C6 (amended): for every runtime integer value the writer's integer
    emission chooses the primitive by sign and magnitude: a positive
    value takes the unsigned path (32-bit unsigned primitive when it
    fits, else 64-bit unsigned); any other value, zero included, takes
    the signed path (32-bit signed primitive when it fits, else 64-bit
    signed).  The value is passed on unchanged. *)
Theorem integer_emission_policy Int value w :
  representable Int value →
  SimpleWriter.integer Int value w
  = w ++ [if 0 <? value
          then (if value <=? numeric_limits_max unsigned
                then WUint value else WUint64 value)
          else (if numeric_limits_min int <=? value
                then WInt value else WInt64 value)].
Proof.
  intros Hrep. destruct (0 <? value) eqn:E.
  - apply Z.ltb_lt in E. by rewrite integer_positive.
  - apply Z.ltb_ge in E. by rewrite integer_not_positive.
Qed.

Lemma integer_emission_policy_witness :
  representable int64_t (-5000000000)
  ∧ SimpleWriter.integer int64_t (-5000000000) [WStartArray]
    = [WStartArray; WInt64 (-5000000000)].
Proof.
  assert (representable int64_t (-5000000000)) as H
    by (unfold representable; cbn; lia).
  split; [exact H|].
  exact (integer_emission_policy int64_t (-5000000000) [WStartArray] H).
Defined.

(** ** The token cursor *)

Section Cursor.

Import TokenStream.

Lemma acquire_token_at_rest s b s' :
  acquire_token s = Done (b, s') → at_rest s'.
Proof.
  unfold acquire_token, at_rest.
  destruct (has_error s) eqn:He; cbn [orb].
  { intros [= <- <-]. by left. }
  destruct (is_complete s) eqn:Hc; cbn [orb].
  { intros [= <- <-]. right; by left. }
  destruct (has_token s) eqn:Ht; cbn [bind].
  { intros [= <- <-]. right; by right. }
  unfold advance.
  destruct (Reader.IterativeParseNext (m_reader s)) as [[token result] r].
  destruct result as [code|]; cbn [bind].
  { intros [= <- <-]. by left. }
  destruct token as [tok|].
  - destruct (context s).
    + destruct (on_advance tok (m_path s)); cbn; [|done].
      intros [= <- <-]. right; by right.
    + cbn. intros [= <- <-]. right; by right.
  - unfold has_token in Ht. destruct (m_handler s); [done|].
    cbn. intros [= <- <-]. by left.
Qed.

Lemma acquire_token_result s b s' :
  acquire_token s = Done (b, s') →
  b = negb (has_error s || is_complete s) && has_token s'.
Proof.
  unfold acquire_token.
  destruct (has_error s || is_complete s); cbn [negb andb].
  { by intros [= <- <-]. }
  destruct (if has_token s then Done s else advance s); cbn [bind]; [|done..].
  by intros [= <- <-].
Qed.

(** At rest [acquire_token] changes nothing: it pulls no further token. *)
Lemma acquire_token_idle s :
  at_rest s →
  acquire_token s
  = Done (negb (has_error s || is_complete s) && has_token s, s).
Proof.
  unfold acquire_token. intros [H|[H|H]].
  - by rewrite H.
  - rewrite H, orb_true_r. done.
  - destruct (has_error s || is_complete s); [done|].
    rewrite H. cbn. by rewrite H.
Qed.

Lemma acquire_token_unread s b s' :
  acquire_token s = Done (b, s') → (unread s ≤ unread s' + 1)%nat.
Proof.
  unfold acquire_token.
  destruct (has_error s || is_complete s).
  { intros [= <- <-]. lia. }
  destruct (has_token s); cbn [bind].
  { intros [= <- <-]. lia. }
  unfold advance, unread, Reader.IterativeParseNext.
  destruct (m_reader s) as [[|a rest] c]; cbn [Reader.answers].
  - destruct (m_handler s) as [tok|]; cbn.
    + destruct (context s); [destruct (on_advance tok (m_path s))|];
        cbn; [|done|]; intros [= <- <-]; cbn; lia.
    + intros [= <- <-]; cbn; lia.
  - destruct (Reader.failure a); cbn.
    + intros [= <- <-]; cbn; lia.
    + destruct (match Reader.dispatched a with
                | Some _ => Reader.dispatched a
                | None => m_handler s
                end) as [tok|]; cbn.
      * destruct (context s); [destruct (on_advance tok (m_path s))|];
          cbn; [|done|]; intros [= <- <-]; cbn; lia.
      * intros [= <- <-]; cbn; lia.
Qed.

Lemma peek_spec s tok s' :
  peek s = Done (tok, s') →
  tok = m_handler s' ∧ at_rest s' ∧ (unread s ≤ unread s' + 1)%nat.
Proof.
  unfold peek. destruct (acquire_token s) as [[b s1]| |] eqn:E; [|done..].
  cbn. intros [= <- <-]. split; [done|]. split.
  - by eapply acquire_token_at_rest.
  - by eapply acquire_token_unread.
Qed.

Lemma peek_idle s : at_rest s → peek s = Done (m_handler s, s).
Proof. intros H. unfold peek. by rewrite acquire_token_idle. Qed.

Lemma next_idle s :
  at_rest s →
  next s
  = if negb (has_error s || is_complete s) && has_token s
    then Done (token s) else Done (None, s).
Proof. intros H. unfold next. by rewrite acquire_token_idle. Qed.

End Cursor.

(** C8: a [next] that follows a [peek] does not always return the
    token that [peek] returned.  On the text [42 true] the tokenizer
    hands over [42] and reports the trailing text in the same call.
    [peek] then returns the token [42], and the [next] that follows
    returns no token: [acquire_token] gives up as soon as an error is
    recorded, although the handler still holds the token.  The
    documentation of [next] promises the next token whenever there is
    one; [is_complete], tested beside [has_error], keeps a cached token
    deliverable ("We could have one more token after peek"); and a
    [next] without the [peek] does return [42]. *)
Theorem next_after_peek_may_differ :
  let code :=
    Reader.mkCode false
      "The document root must not be followed by other values." in
  let s :=
    TokenStream.TokenStream
      [Reader.mkAnswer (Some (Token.UintToken 42)) (Some code) true] in
  ∃ s' s'',
    TokenStream.peek s = Done (Some (Token.UintToken 42), s')
    ∧ TokenStream.has_error s' = true
    ∧ TokenStream.is_complete s' = false
    ∧ TokenStream.next s' = Done (None, s')
    ∧ TokenStream.next s = Done (Some (Token.UintToken 42), s'').
Proof. do 2 eexists. repeat split; reflexivity. Qed.

(** X22: [peek] is idempotent and caches at most one token.  In every
    state of the token cursor from which [peek] returns, a second
    [peek] returns the same token and leaves the cursor as it is
    (nothing consumed, no further pull: at most one answer of the
    tokenizer has been used); and when the cursor has recorded no
    error, a [next] that follows the [peek] returns exactly the token
    that [peek] returned and empties the cache. *)
Theorem peek_idempotent s tok s' :
  TokenStream.peek s = Done (tok, s') →
  TokenStream.peek s' = Done (tok, s')
  ∧ tok = TokenStream.m_handler s'
  ∧ (TokenStream.unread s ≤ TokenStream.unread s' + 1)%nat
  ∧ (TokenStream.has_error s' = false →
     TokenStream.next s' = Done (tok, (TokenStream.token s').2)).
Proof.
  intros H. apply peek_spec in H as (-> & Hrest & Hunread).
  split; [by apply peek_idle|]. split; [done|]. split; [done|].
  rewrite next_idle by done. intros He; rewrite He.
  cbn [orb]. unfold TokenStream.is_complete.
  destruct (TokenStream.has_token s') eqn:Ht.
  - rewrite andb_false_r. done.
  - unfold TokenStream.has_token in Ht.
    destruct s' as [r [tok|] e c p]; [done|]. cbn.
    destruct (Reader.IterativeParseComplete r); done.
Qed.

Lemma peek_idempotent_witness :
  let s := TokenStream.ContextTokenStream
             (Tokenizer.document [Token.StartArrayToken;
                                  Token.EndArrayToken 0]) in
  ∃ s', TokenStream.peek s = Done (Some Token.StartArrayToken, s')
        ∧ TokenStream.peek s' = Done (Some Token.StartArrayToken, s')
        ∧ TokenStream.next s'
          = Done (Some Token.StartArrayToken, (TokenStream.token s').2).
Proof.
  eexists. split; [reflexivity|].
  pose proof (peek_idempotent
                (TokenStream.ContextTokenStream
                   (Tokenizer.document [Token.StartArrayToken;
                                        Token.EndArrayToken 0]))
                _ _ eq_refl) as (H1 & _ & _ & H2).
  split; [exact H1 | exact (H2 eq_refl)].
Defined.

(** ** The range check of integer targets *)

Lemma parse_value_integer R token V v path :
  Token.integer_value token = Some (V, v) →
  Deserializer.parse_value (integer_t R) token path
  = if in_range R V v
    then ParseResult.Ok (VInteger (static_cast R v))
    else ParseResult.parse_error "Integer value not in range" path.
Proof.
  destruct token; try discriminate; intros [= <- <-]; reflexivity.
Qed.

(** C4: an integer token with runtime value [v] parses into an integer
    target type [R] exactly when [v] lies in [[min R, max R]], compared
    as mathematical integers whatever the signedness of token and
    target; the result is then [v] itself.  Otherwise the parse fails
    with the parse error "Integer value not in range" at the current
    path.  In particular the literal 300 is rejected by an 8-bit signed
    target, and 42 is accepted. *)
Theorem integer_range_check R token V v tokens tokens' fuel :
  Token.integer_value token = Some (V, v) →
  representable V v →
  TokenStream.next tokens = Done (Some token, tokens') →
  (∃ r,
     Deserializer_parse (S fuel) (Value (integer_t R)) tokens
     = Done (r, tokens')
     ∧ (ParseResult.is_ok r = true ↔ representable R v)
     ∧ (representable R v → r = ParseResult.Ok (VInteger v))
     ∧ (¬ representable R v →
        r = ParseResult.Err ParseResult.PARSE_ERROR
              (ParseResult.mkError "Integer value not in range"
                 (TokenStream.get_path tokens'))))
  ∧ Json.parse 1 (Value (integer_t int8_t))
      (Tokenizer.document [Tokenizer.number 300])
    = Done (ParseResult.Err ParseResult.PARSE_ERROR
              (ParseResult.mkError "Integer value not in range"
                 (Some "root")))
  ∧ Json.parse 1 (Value (integer_t int8_t))
      (Tokenizer.document [Tokenizer.number 42])
    = Done (ParseResult.Ok (VInteger 42)).
Proof.
  intros Hv Hrep Hnext. split; [|split; reflexivity].
  cbn [Deserializer_parse]. unfold Deserializer.parse_json_value.
  rewrite Hnext. cbn [bind].
  rewrite (parse_value_integer _ _ _ _ _ Hv).
  pose proof (in_range_true R V v Hrep) as Hin.
  destruct (in_range R V v).
  - assert (representable R v) as HR by by apply Hin.
    rewrite static_cast_representable by done.
    eexists. split; [reflexivity|]. cbn. split; [done|]. split; done.
  - assert (¬ representable R v) as HR.
    { intros HR. apply Hin in HR. done. }
    eexists. split; [reflexivity|]. cbn. split; [|split]; [|done..].
    split; [done|]. intros; done.
Qed.

Lemma integer_range_check_witness :
  ∃ r,
    Deserializer_parse 1 (Value (integer_t int8_t))
      (TokenStream.ContextTokenStream
         (Tokenizer.document [Token.Int64Token (-5000000000)]))
    = Done (r, TokenStream.mkStream (Reader.mkReader [] true) None None
                 true [])
    ∧ ParseResult.is_ok r = false.
Proof.
  assert (representable int64_t (-5000000000)) as Hrep
    by (unfold representable; cbn; lia).
  destruct (integer_range_check int8_t (Token.Int64Token (-5000000000))
              int64_t (-5000000000)
              (TokenStream.ContextTokenStream
                 (Tokenizer.document [Token.Int64Token (-5000000000)]))
              _ O eq_refl Hrep eq_refl) as [(r & Hr & Hok & _ & _) _].
  exists r. split; [exact Hr|].
  destruct (ParseResult.is_ok r); [|reflexivity].
  exfalso. assert (representable int8_t (-5000000000)) as [H _]
    by (apply Hok; reflexivity).
  cbn in H. lia.
Defined.

(** ** The record marshaller *)

Section Record.

Import DeserializationHelper.
Variable parse : JType → TokenStream.t → Deserializer.Parsed JValue.

Lemma parse_field_unfold tokens key index fields object :
  parse_field parse tokens key index fields object
  = match fields !! index with
    | None => Undefined
    | Some field =>
        if is_set field then
          Done (ParseResult.parse_error ("Duplicate key: " +:+ key)
                  (TokenStream.get_path tokens), tokens, fields, object)
        else
          let* '(field_result, tokens) := parse (type field) tokens in
          match field_result with
          | ParseResult.Err error_type e =>
              Done (ParseResult.Err error_type e, tokens, fields, object)
          | ParseResult.Ok value =>
              Done (ParseResult.Ok (), tokens,
                    <[index := (set value field object).1]> fields,
                    (set value field object).2)
          end
    end.
Proof.
  unfold parse_field, call_on_nth. by destruct (fields !! index).
Qed.

Lemma object_loop_key n map tokens tokens' fields object key index :
  TokenStream.next tokens = Done (Some (Token.KeyToken key), tokens') →
  map !! key = Some index →
  object_loop parse (S n) map tokens fields object
  = let* '(field_result, tokens, fields, object) :=
      parse_field parse tokens' key index fields object in
    match field_result with
    | ParseResult.Err _ _ => Done (field_result, tokens, fields, object)
    | ParseResult.Ok _ => object_loop parse n map tokens fields object
    end.
Proof.
  intros Hnext Hmap. cbn [object_loop]. rewrite Hnext. cbn [bind].
  change (Token.is_of_type TokenType.EndObject (Token.KeyToken key))
    with false.
  cbn match. rewrite Hmap. reflexivity.
Qed.

Lemma parse_field_set tokens key index fields object field :
  fields !! index = Some field → is_set field = true →
  parse_field parse tokens key index fields object
  = Done (ParseResult.parse_error ("Duplicate key: " +:+ key)
            (TokenStream.get_path tokens), tokens, fields, object).
Proof. intros Hf Hs. rewrite parse_field_unfold. by rewrite Hf, Hs. Qed.

Lemma object_loop_end n map tokens tokens' fields object size :
  TokenStream.next tokens = Done (Some (Token.EndObjectToken size), tokens') →
  object_loop parse (S n) map tokens fields object
  = if forallb is_ready fields
    then Done (ParseResult.Ok (), tokens', fields, object)
    else Done (ParseResult.parse_error (missing_keys_error fields)
                 (TokenStream.get_path tokens'), tokens', fields, object).
Proof.
  intros Hnext. cbn [object_loop]. rewrite Hnext. cbn [bind].
  change (Token.is_of_type TokenType.EndObject (Token.EndObjectToken size))
    with true.
  cbn match. destruct fields; reflexivity.
Qed.

(** The message of [missing_keys_error] lists, in the order of the
    descriptors, the names of those that are not ready. *)
Lemma missing_keys_error_lists fields :
  missing_keys_error fields
  = "Missing keys: "
    +:+ String.concat ""
          (map (λ field, name field +:+ ", ")
             (filter (λ field, is_ready field = false) fields))
    +:+ "got end object".
Proof.
  unfold missing_keys_error. cbn [TokenType.name].
  assert (∀ acc,
    fold_left
      (λ acc field,
         acc +:+ (if is_ready field then "" else name field +:+ ", "))
      fields acc
    = acc +:+ String.concat ""
                (map (λ field, name field +:+ ", ")
                   (filter (λ field, is_ready field = false) fields)))
    as Hfold.
  { induction fields as [|f fields IH]; intros acc; cbn [fold_left].
    - cbn. by rewrite append_nil_r.
    - rewrite IH. rewrite filter_cons.
      destruct (is_ready f) eqn:Hr.
      + rewrite decide_False by done. by rewrite append_nil_r.
      + rewrite decide_True by done. cbn [map].
        rewrite concat_cons. by rewrite !append_assoc. }
  rewrite Hfold. by rewrite !append_assoc.
Qed.

End Record.

(** C2: when the loop of [parse_object] reads a [Key] token whose field
    descriptor is already set, it fails with the parse error
    "Duplicate key: " followed by the key, carrying the current path, and
    leaves descriptors and storage as they are.  In particular
    [{"a":1,"a":2}] parsed into a record with the field [a] gives that
    error at path [root.a]. *)
Theorem duplicate_key_rejected parse n tokens tokens' fields object key
    index field :
  TokenStream.next tokens = Done (Some (Token.KeyToken key), tokens') →
  DeserializationHelper.build_fields_map fields !! key = Some index →
  fields !! index = Some field →
  DeserializationHelper.is_set field = true →
  DeserializationHelper.object_loop parse (S n)
    (DeserializationHelper.build_fields_map fields) tokens fields object
  = Done (ParseResult.Err ParseResult.PARSE_ERROR
            (ParseResult.mkError ("Duplicate key: " +:+ key)
               (TokenStream.get_path tokens')),
          tokens', fields, object)
  ∧ Json.parse 3 (Class [("a", Value (integer_t int))])
      (Tokenizer.document
         [Token.StartObjectToken;
          Token.KeyToken "a"; Tokenizer.number 1;
          Token.KeyToken "a"; Tokenizer.number 2;
          Token.EndObjectToken 2])
    = Done (ParseResult.Err ParseResult.PARSE_ERROR
              (ParseResult.mkError "Duplicate key: a" (Some "root.a"))).
Proof.
  intros Hnext Hmap Hfield Hset. split; [|reflexivity].
  rewrite (object_loop_key _ _ _ _ _ _ _ _ _ Hnext Hmap).
  rewrite (parse_field_set _ _ _ _ _ _ _ Hfield Hset). reflexivity.
Qed.

Lemma duplicate_key_rejected_witness :
  let a := DeserializationHelper.mkField "a" (Value (integer_t int)) 0 true in
  let tokens :=
    TokenStream.mkStream
      (Reader.mkReader
         (Tokenizer.document [Token.KeyToken "a"; Tokenizer.number 2;
                              Token.EndObjectToken 2]) false)
      None None true [Path.Object (Some "a")] in
  ∃ tokens',
    DeserializationHelper.object_loop (Deserializer_parse 1) 1
      (DeserializationHelper.build_fields_map [a]) tokens [a] [VInteger 1]
    = Done (ParseResult.Err ParseResult.PARSE_ERROR
              (ParseResult.mkError "Duplicate key: a" (Some "root.a")),
            tokens', [a], [VInteger 1]).
Proof.
  eexists.
  exact (proj1 (duplicate_key_rejected (Deserializer_parse 1) O
                  (TokenStream.mkStream
                     (Reader.mkReader
                        (Tokenizer.document
                           [Token.KeyToken "a"; Tokenizer.number 2;
                            Token.EndObjectToken 2]) false)
                     None None true [Path.Object (Some "a")])
                  _
                  [DeserializationHelper.mkField "a"
                     (Value (integer_t int)) 0 true]
                  [VInteger 1] "a" O _
                  eq_refl eq_refl eq_refl eq_refl)).
Defined.

(** C3: when the loop of [parse_object] reads an [EndObject] token it
    succeeds if and only if every field descriptor is ready (set, or of
    an optional type); otherwise it fails with a parse error at the
    current path whose message lists the names of the descriptors that
    are not ready.  In particular [{}] parsed into a record with the one
    non-optional field [x] gives a parse error that lists [x], at path
    [root]. *)
Theorem end_object_needs_ready_fields parse n tokens tokens' fields object
    size :
  TokenStream.next tokens
  = Done (Some (Token.EndObjectToken size), tokens') →
  (∃ r,
     DeserializationHelper.object_loop parse (S n)
       (DeserializationHelper.build_fields_map fields) tokens fields object
     = Done (r, tokens', fields, object)
     ∧ (ParseResult.is_ok r = true
        ↔ Forall (λ field, DeserializationHelper.is_ready field = true)
            fields)
     ∧ (ParseResult.is_ok r = false →
        r = ParseResult.Err ParseResult.PARSE_ERROR
              (ParseResult.mkError
                 ("Missing keys: "
                  +:+ String.concat ""
                        (map (λ field,
                                DeserializationHelper.name field +:+ ", ")
                           (filter
                              (λ field,
                                 DeserializationHelper.is_ready field
                                 = false) fields))
                  +:+ "got end object")
                 (TokenStream.get_path tokens'))))
  ∧ Json.parse 3 (Class [("x", Value (integer_t int))])
      (Tokenizer.document [Token.StartObjectToken; Token.EndObjectToken 0])
    = Done (ParseResult.Err ParseResult.PARSE_ERROR
              (ParseResult.mkError "Missing keys: x, got end object"
                 (Some "root"))).
Proof.
  intros Hnext. split; [|reflexivity].
  rewrite (object_loop_end _ _ _ _ _ _ _ _ Hnext).
  destruct (forallb DeserializationHelper.is_ready fields) eqn:Hready.
  - eexists. split; [reflexivity|]. cbn [ParseResult.is_ok].
    split; [|done]. split; [|done]. intros _.
    apply Forall_forall. intros f Hf.
    rewrite forallb_forall in Hready. apply Hready.
    by apply list_elem_of_In.
  - eexists. split; [reflexivity|]. cbn [ParseResult.is_ok ParseResult.parse_error].
    split.
    + split; [done|]. intros Hall. exfalso.
      assert (forallb DeserializationHelper.is_ready fields = true);
        [|congruence].
      apply forallb_forall. intros f Hf.
      rewrite Forall_forall in Hall. apply Hall. by apply list_elem_of_In.
    + intros _. by rewrite missing_keys_error_lists.
Qed.

Lemma end_object_needs_ready_fields_witness :
  let x := DeserializationHelper.mkField "x" (Value (integer_t int)) 0 false in
  let o := DeserializationHelper.mkField "o"
             (Optional (Value string_t)) 1 false in
  let tokens :=
    TokenStream.mkStream
      (Reader.mkReader (Tokenizer.document [Token.EndObjectToken 0]) false)
      None None true [Path.Object None] in
  ∃ r tokens',
    DeserializationHelper.object_loop (Deserializer_parse 1) 1
      (DeserializationHelper.build_fields_map [x; o]) tokens [x; o]
      [VInteger 0; VOptional None]
    = Done (r, tokens', [x; o], [VInteger 0; VOptional None])
    ∧ ParseResult.is_ok r = false.
Proof.
  destruct (end_object_needs_ready_fields (Deserializer_parse 1) O
              (TokenStream.mkStream
                 (Reader.mkReader
                    (Tokenizer.document [Token.EndObjectToken 0]) false)
                 None None true [Path.Object None])
              _
              [DeserializationHelper.mkField "x" (Value (integer_t int))
                 0 false;
               DeserializationHelper.mkField "o"
                 (Optional (Value string_t)) 1 false]
              [VInteger 0; VOptional None] 0 eq_refl)
    as [(r & Hr & Hok & _) _].
  exists r. eexists. split; [exact Hr|].
  destruct (ParseResult.is_ok r); [|reflexivity].
  exfalso. assert (Forall
                     (λ field, DeserializationHelper.is_ready field = true)
                     [DeserializationHelper.mkField "x"
                        (Value (integer_t int)) 0 false;
                      DeserializationHelper.mkField "o"
                        (Optional (Value string_t)) 1 false]) as H
    by (apply Hok; reflexivity).
  inversion H as [|? ? Hx _]. discriminate Hx.
Defined.

(** ** Duplicate keys in a dict-like target *)

Lemma dict_find_app key l1 l2 :
  dict_find key (l1 ++ l2)
  = match dict_find key l1 with
    | Some v => Some v
    | None => dict_find key l2
    end.
Proof.
  unfold dict_find. induction l1 as [|e l1 IH]; [done|].
  cbn [app List.find]. destruct (String.eqb key e.1); [done|apply IH].
Qed.

Lemma dict_find_absent key l :
  existsb (λ e, String.eqb key e.1) l = false → dict_find key l = None.
Proof.
  unfold dict_find. induction l as [|e l IH]; [done|].
  cbn [existsb List.find]. destruct (String.eqb key e.1); [done|apply IH].
Qed.

Lemma dict_find_present key l :
  existsb (λ e, String.eqb key e.1) l = true → is_Some (dict_find key l).
Proof.
  unfold dict_find. induction l as [|e l IH]; [done|].
  cbn [existsb List.find]. destruct (String.eqb key e.1); [by eexists|apply IH].
Qed.

Lemma dict_emplace_find key value acc :
  dict_find key (dict_emplace acc key value)
  = Some (default value (dict_find key acc)).
Proof.
  unfold dict_emplace.
  destruct (existsb (λ e, String.eqb key e.1) acc) eqn:E.
  - apply dict_find_present in E as [v ->]. done.
  - rewrite dict_find_app. rewrite (dict_find_absent _ _ E).
    unfold dict_find. cbn. by rewrite String.eqb_refl.
Qed.

Lemma dict_emplace_find_other key key' value acc :
  key' ≠ key →
  dict_find key' (dict_emplace acc key value) = dict_find key' acc.
Proof.
  intros Hne. unfold dict_emplace.
  destruct (existsb (λ e, String.eqb key e.1) acc); [done|].
  rewrite dict_find_app. destruct (dict_find key' acc); [done|].
  unfold dict_find. cbn.
  destruct (String.eqb key' key) eqn:E; [|done].
  by apply String.eqb_eq in E.
Qed.

(** C5, as stated, fails on the later value: [emplace] on a map does
    nothing when the key is present, so of two occurrences of a key the
    first one stays. *)
Lemma dict_duplicate_key_keeps_first :
  ∃ m,
    Json.parse 4 (DictLike std_map (Value (integer_t int)))
      (Tokenizer.document
         [Token.StartObjectToken;
          Token.KeyToken "a"; Tokenizer.number 1;
          Token.KeyToken "a"; Tokenizer.number 2;
          Token.EndObjectToken 2])
    = Done (ParseResult.Ok (VDict std_map m))
    ∧ dict_find "a" m = Some (VInteger 1)
    ∧ dict_find "a" m ≠ Some (VInteger 2).
Proof.
  exists [("a", VInteger 1)].
  split; [reflexivity|]. split; [reflexivity|discriminate].
Qed.

(** One turn of the loop: the key is entered with [emplace] and the
    loop goes on; no error arises from the key being there already. *)
Lemma dict_loop_step parse n k acc tokens tokens1 tokens2 key value :
  TokenStream.next tokens = Done (Some (Token.KeyToken key), tokens1) →
  parse tokens1 = Done (ParseResult.Ok value, tokens2) →
  Deserializer.dict_loop parse (S n) k acc tokens
  = Deserializer.dict_loop parse n k (dict_emplace acc key value) tokens2.
Proof.
  intros Hnext Hparse. cbn [Deserializer.dict_loop].
  rewrite Hnext. cbn [bind]. by rewrite Hparse.
Qed.

(** ** The storage behind the field descriptors *)

Section Storage.

Import DeserializationHelper.
Variable parse : JType → TokenStream.t → Deserializer.Parsed JValue.

(** What one successful [parse_field] does to descriptors and storage. *)
Lemma parse_field_writes tokens tokens' key index fields object field value :
  fields !! index = Some field →
  is_set field = false →
  parse (type field) tokens = Done (ParseResult.Ok value, tokens') →
  parse_field parse tokens key index fields object
  = Done (ParseResult.Ok (), tokens',
          <[index := (set value field object).1]> fields,
          <[m_ref field := value]> object).
Proof.
  intros Hf Hs Hp. rewrite parse_field_unfold, Hf, Hs, Hp. reflexivity.
Qed.

(** Whatever [parse_field] returns, it keeps the references of the
    descriptors, and it leaves alone every descriptor that is set and the
    storage behind it. *)
Lemma parse_field_frame tokens tokens' key index fields fields' object
    object' r :
  NoDup (m_ref <$> fields) →
  parse_field parse tokens key index fields object
  = Done (r, tokens', fields', object') →
  m_ref <$> fields' = m_ref <$> fields
  ∧ ∀ i f, fields !! i = Some f → is_set f = true →
           fields' !! i = Some f
           ∧ object' !! m_ref f = object !! m_ref f.
Proof.
  intros Hnd. rewrite parse_field_unfold.
  destruct (fields !! index) as [field|] eqn:Hf; [|done].
  destruct (is_set field) eqn:Hs.
  { intros [= <- <- <- <-]. done. }
  destruct (parse (type field) tokens) as [[[value|ty e] tokens1]| |];
    cbn [bind]; [| |done..].
  - intros [= <- <- <- <-]. split.
    + rewrite list_fmap_insert. cbn. apply list_insert_id.
      by rewrite list_lookup_fmap, Hf.
    + intros i f Hi Hset.
      assert (i ≠ index) as Hne by (intros ->; congruence).
      split; [by rewrite list_lookup_insert_ne|].
      rewrite list_lookup_insert_ne; [done|].
      intros Href. apply Hne.
      apply (NoDup_lookup (m_ref <$> fields) i index (m_ref f) Hnd).
      * by rewrite list_lookup_fmap, Hi.
      * rewrite list_lookup_fmap, Hf. cbn. by rewrite Href.
  - intros [= <- <- <- <-]. done.
Qed.

Lemma object_loop_frame n map tokens tokens' fields fields' object object' r :
  NoDup (m_ref <$> fields) →
  object_loop parse n map tokens fields object
  = Done (r, tokens', fields', object') →
  ∀ i f, fields !! i = Some f → is_set f = true →
         fields' !! i = Some f
         ∧ object' !! m_ref f = object !! m_ref f.
Proof.
  revert tokens fields object.
  induction n as [|n IH]; intros tokens fields object Hnd; [done|].
  cbn [object_loop].
  destruct (TokenStream.next tokens) as [[[token|] tokens1]| |];
    cbn [bind]; [| |done..]; cycle 1.
  { intros [= <- <- <- <-]. done. }
  assert (∀ X : Helped,
            X = Done (r, tokens', fields', object') →
            (∃ key index, token = Token.KeyToken key
                          ∧ map !! key = Some index
                          ∧ X = (let* '(field_result, tokens, fields, object) :=
                                   parse_field parse tokens1 key index
                                     fields object in
                                 match field_result with
                                 | ParseResult.Err _ _ =>
                                     Done (field_result, tokens, fields, object)
                                 | ParseResult.Ok _ =>
                                     object_loop parse n map tokens fields
                                       object
                                 end))
            ∨ (fields' = fields ∧ object' = object) →
            ∀ i f, fields !! i = Some f → is_set f = true →
                   fields' !! i = Some f
                   ∧ object' !! m_ref f = object !! m_ref f) as Hcases.
  { intros X HX [(key & index & -> & Hmap & ->)|[-> ->]]; [|done].
    destruct (parse_field parse tokens1 key index fields object)
      as [[[[fr tokens2] fields2] object2]| |] eqn:Hpf; [|done..].
    destruct (parse_field_frame _ _ _ _ _ _ _ _ _ Hnd Hpf) as [Hrefs Hkeep].
    cbn [bind] in HX. intros i f Hi Hset.
    destruct (Hkeep i f Hi Hset) as [Hi2 Ho2].
    destruct fr as [[]|ty e].
    - assert (NoDup (m_ref <$> fields2)) as Hnd2 by by rewrite Hrefs.
      destruct (IH _ _ _ Hnd2 HX i f Hi2 Hset) as [Hi3 Ho3].
      split; [done|]. by rewrite Ho3.
    - injection HX as <- <- <- <-. done. }
  intros H. eapply Hcases; [exact H|]. clear Hcases.
  destruct token; cbn in H |- *;
    try (right; by injection H as <- <- <- <-).
  - (* Key *)
    destruct (map !! value) as [index|] eqn:Hmap.
    + left. exists value, index. done.
    + right. by injection H as <- <- <- <-.
  - (* EndObject *)
    destruct (forallb is_ready fields).
    + right. by injection H as <- <- <- <-.
    + destruct fields; right; by injection H as <- <- <- <-.
Qed.

End Storage.

(** C10: [parse_object] is not atomic with respect to the storage that
    the field descriptors refer to.  A field whose value parses is
    assigned at once; [parse_field] returns the storage with that member
    overwritten.  Whatever the loop returns afterwards, an error
    included, the member still holds the parsed value (the descriptors
    referring to distinct members).  For instance [{"a":1,"b":true}]
    parsed into the integer members [a] and [b] fails at [root.b] and
    leaves the parsed [1] in [a]. *)
Theorem parse_object_not_atomic parse n map tokens tokens1 tokens2 tokens'
    fields fields' object object' key index field value r :
  NoDup (DeserializationHelper.m_ref <$> fields) →
  (DeserializationHelper.m_ref field < length object)%nat →
  TokenStream.next tokens = Done (Some (Token.KeyToken key), tokens1) →
  map !! key = Some index →
  fields !! index = Some field →
  DeserializationHelper.is_set field = false →
  parse (DeserializationHelper.type field) tokens1
  = Done (ParseResult.Ok value, tokens2) →
  DeserializationHelper.object_loop parse (S n) map tokens fields object
  = Done (r, tokens', fields', object') →
  DeserializationHelper.parse_field parse tokens1 key index fields object
  = Done (ParseResult.Ok (), tokens2,
          <[index := (DeserializationHelper.set value field object).1]>
            fields,
          <[DeserializationHelper.m_ref field := value]> object)
  ∧ object' !! DeserializationHelper.m_ref field = Some value
  ∧ (let a := DeserializationHelper.mkField "a" (Value (integer_t int))
                0 false in
     let b := DeserializationHelper.mkField "b" (Value (integer_t int))
                1 false in
     DeserializationHelper.parse_object (Deserializer_parse 1) 3
       (TokenStream.ContextTokenStream
          (Tokenizer.document
             [Token.StartObjectToken;
              Token.KeyToken "a"; Tokenizer.number 1;
              Token.KeyToken "b"; Token.BoolToken true;
              Token.EndObjectToken 2]))
       [a; b] [VInteger 7; VInteger 8]
     = Done (ParseResult.Err ParseResult.PARSE_ERROR
               (ParseResult.mkError "Unexpected bool" (Some "root.b")),
             fresh [Path.Object (Some "b")]
               (Tokenizer.document [Token.EndObjectToken 2]) false,
             [DeserializationHelper.mkField "a" (Value (integer_t int))
                0 true; b],
             [VInteger 1; VInteger 8])).
Proof.
  intros Hnd Hlen Hnext Hmap Hfield Hunset Hparse Hloop.
  pose proof (parse_field_writes parse _ _ key _ _ object _ _
                Hfield Hunset Hparse) as Hpf.
  split; [exact Hpf|]. split; [|vm_compute; reflexivity].
  rewrite (object_loop_key _ _ _ _ _ _ _ _ _ Hnext Hmap) in Hloop.
  rewrite Hpf in Hloop. cbn [bind] in Hloop.
  assert (NoDup (DeserializationHelper.m_ref <$>
                   <[index := (DeserializationHelper.set value field
                                 object).1]> fields)) as Hnd'.
  { rewrite list_fmap_insert. cbn. rewrite list_insert_id; [done|].
    by rewrite list_lookup_fmap, Hfield. }
  destruct (object_loop_frame parse _ _ _ _ _ _ _ _ _ Hnd' Hloop index
              (DeserializationHelper.set value field object).1)
    as [_ Hkeep].
  - apply list_lookup_insert_eq. by eapply lookup_lt_Some.
  - reflexivity.
  - cbn in Hkeep. rewrite Hkeep. by apply list_lookup_insert_eq.
Qed.

Lemma parse_object_not_atomic_witness :
  let a := DeserializationHelper.mkField "a" (Value (integer_t int)) 0 false in
  let b := DeserializationHelper.mkField "b" (Value (integer_t int)) 1 false in
  let tokens :=
    fresh [Path.Object None]
      (Tokenizer.document [Token.KeyToken "a"; Tokenizer.number 1;
                           Token.KeyToken "b"; Token.BoolToken true;
                           Token.EndObjectToken 2]) false in
  ∃ r tokens' fields' object',
    DeserializationHelper.object_loop (Deserializer_parse 1) 2
      (DeserializationHelper.build_fields_map [a; b]) tokens [a; b]
      [VInteger 7; VInteger 8]
    = Done (r, tokens', fields', object')
    ∧ ParseResult.is_ok r = false
    ∧ object' !! 0%nat = Some (VInteger 1).
Proof.
  intros a b tokens.
  assert (DeserializationHelper.object_loop (Deserializer_parse 1) 2
            (DeserializationHelper.build_fields_map [a; b]) tokens [a; b]
            [VInteger 7; VInteger 8]
          = Done (ParseResult.Err ParseResult.PARSE_ERROR
                    (ParseResult.mkError "Unexpected bool" (Some "root.b")),
                  fresh [Path.Object (Some "b")]
                    (Tokenizer.document [Token.EndObjectToken 2]) false,
                  [DeserializationHelper.mkField "a"
                     (Value (integer_t int)) 0 true; b],
                  [VInteger 1; VInteger 8])) as Hloop
    by (vm_compute; reflexivity).
  do 4 eexists. split; [exact Hloop|]. split; [reflexivity|].
  refine (proj1 (proj2
    (parse_object_not_atomic (Deserializer_parse 1) 1
       (DeserializationHelper.build_fields_map [a; b]) tokens
       (fresh [Path.Object (Some "a")]
          (Tokenizer.document [Tokenizer.number 1;
                               Token.KeyToken "b"; Token.BoolToken true;
                               Token.EndObjectToken 2]) false)
       (fresh [Path.Object (Some "a")]
          (Tokenizer.document [Token.KeyToken "b"; Token.BoolToken true;
                               Token.EndObjectToken 2]) false)
       _ [a; b] _ [VInteger 7; VInteger 8] _ "a" O a (VInteger 1) _
       _ _ _ _ _ _ _ Hloop))).
  - vm_compute. compute_done.
  - vm_compute. lia.
  - vm_compute. reflexivity.
  - vm_compute. reflexivity.
  - reflexivity.
  - reflexivity.
  - vm_compute. reflexivity.
Defined.

(** ** The calls that [dump] makes *)

Lemma dump_each_app (f : JValue → SimpleWriter.t → SimpleWriter.t)
    (l : list JValue) (w : SimpleWriter.t) :
  Forall (λ x, ∀ w, f x w = w ++ f x []) l →
  fold_left (λ w m, f m w) l w = w ++ concat (map (λ m, f m []) l).
Proof.
  intros H. revert w. induction H as [|x l Hx _ IH]; intros w; cbn.
  - by rewrite app_nil_r.
  - rewrite IH, Hx. by rewrite <- app_assoc.
Qed.

Lemma dump_app T v w : Serializer.dump T v w = w ++ Serializer.dump T v [].
Proof.
  revert T w. induction v using JValue_nested_ind; intros T w.
  - destruct T as [[]| | | |]; cbn; by rewrite ?app_nil_r.
  - destruct T as [[| Int | |]| | | |]; cbn; rewrite ?app_nil_r; try done.
    unfold SimpleWriter.integer.
    repeat match goal with |- context [if ?c then _ else _] => destruct c end;
      done.
  - destruct T as [[]| | | |]; cbn; by rewrite ?app_nil_r.
  - destruct T as [[]| | | |]; cbn; by rewrite ?app_nil_r.
  - destruct T as [[]| | | |]; cbn; by rewrite ?app_nil_r.
  - destruct T as [[]| | | |]; cbn [Serializer.dump]; rewrite ?app_nil_r;
      done.
  - destruct T as [[]| | k' T'| |]; cbn [Serializer.dump];
      rewrite ?app_nil_r; try done.
    unfold SimpleWriter.end_array, SimpleWriter.start_array.
    rewrite !(dump_each_app (Serializer.dump T')).
    + cbn. by rewrite <- !app_assoc.
    + eapply Forall_impl; [exact H|]. intros x Hx w'. apply Hx.
    + eapply Forall_impl; [exact H|]. intros x Hx w'. apply Hx.
  - destruct T as [[]| | |k' T'|]; cbn [Serializer.dump];
      rewrite ?app_nil_r; try done.
    unfold SimpleWriter.end_object, SimpleWriter.start_object.
    assert (∀ w, fold_left (λ w e, Serializer.dump T' e.2
                                     (SimpleWriter.key e.1 w)) l w
                 = w ++ concat (map (λ e, WKey e.1
                                          :: Serializer.dump T' e.2 []) l))
      as Hfold.
    { clear w. induction H as [|e l He _ IH]; intros w; cbn.
      - by rewrite app_nil_r.
      - rewrite IH, He. unfold SimpleWriter.key.
        rewrite <- !app_assoc. done. }
    rewrite !Hfold. cbn. by rewrite <- !app_assoc.
  - destruct T as [[]| | | |fields]; cbn [Serializer.dump];
      rewrite ?app_nil_r; try done.
    unfold SimpleWriter.end_object, SimpleWriter.start_object.
    set (each := fix each (fields : list (string * JType))
                       (members : list JValue) (writer : SimpleWriter.t)
                       {struct members} : SimpleWriter.t :=
                   match fields, members with
                   | field :: fields, m :: members =>
                       each fields members
                         (Serializer.dump field.2 m
                            (SimpleWriter.key field.1 writer))
                   | _, _ => writer
                   end).
    assert (∀ fields w, each fields members w = w ++ each fields members [])
      as Heach.
    { clear w fields. induction H as [|m members Hm _ IH]; intros fields w.
      - destruct fields; cbn; by rewrite app_nil_r.
      - destruct fields as [|f fields]; cbn; [by rewrite app_nil_r|].
        rewrite IH. rewrite (IH _ (Serializer.dump _ _ [_])).
        rewrite Hm. rewrite (Hm _ [_]).
        unfold SimpleWriter.key. by rewrite <- !app_assoc. }
    rewrite Heach. rewrite (Heach _ ([] ++ _)). cbn.
    by rewrite <- !app_assoc.
Qed.

Lemma dump_array T k k' l :
  Json.dump (ArrayLike k T) (VArray k' l)
  = WStartArray :: concat (Json.dump T <$> l) ++ [WEndArray].
Proof.
  unfold Json.dump. cbn [Serializer.dump].
  unfold SimpleWriter.end_array, SimpleWriter.start_array.
  rewrite (dump_each_app (Serializer.dump T)); [reflexivity|].
  apply Forall_forall. intros x _ w. apply dump_app.
Qed.

Lemma dump_dict T k k' l :
  Json.dump (DictLike k T) (VDict k' l)
  = WStartObject
    :: concat (map (λ e, WKey e.1 :: Json.dump T e.2) l) ++ [WEndObject].
Proof.
  unfold Json.dump. cbn [Serializer.dump].
  unfold SimpleWriter.end_object, SimpleWriter.start_object.
  assert (∀ w, fold_left (λ w e, Serializer.dump T e.2
                                   (SimpleWriter.key e.1 w)) l w
               = w ++ concat (map (λ e, WKey e.1
                                        :: Serializer.dump T e.2 []) l))
    as Hfold.
  { induction l as [|e l IH]; intros w; cbn.
    - by rewrite app_nil_r.
    - rewrite IH, dump_app. unfold SimpleWriter.key.
      by rewrite <- !app_assoc. }
  by rewrite Hfold.
Qed.

Lemma dump_class fields members :
  Json.dump (Class fields) (VClass members)
  = WStartObject
    :: concat (zip_with (λ field m, WKey field.1 :: Json.dump field.2 m)
                 fields members)
    ++ [WEndObject].
Proof.
  unfold Json.dump. cbn [Serializer.dump].
  unfold SimpleWriter.end_object, SimpleWriter.start_object.
  set (each := fix each (fields : list (string * JType))
                     (members : list JValue) (writer : SimpleWriter.t)
                     {struct members} : SimpleWriter.t :=
                 match fields, members with
                 | field :: fields, m :: members =>
                     each fields members
                       (Serializer.dump field.2 m
                          (SimpleWriter.key field.1 writer))
                 | _, _ => writer
                 end).
  assert (∀ fields w,
            each fields members w
            = w ++ concat (zip_with (λ field m,
                                       WKey field.1
                                       :: Serializer.dump field.2 m [])
                             fields members)) as Heach.
  { clear fields. induction members as [|m members IH]; intros fields w.
    - destruct fields; cbn; by rewrite app_nil_r.
    - destruct fields as [|f fields]; cbn; [by rewrite app_nil_r|].
      rewrite IH, dump_app. unfold SimpleWriter.key.
      by rewrite <- !app_assoc. }
  by rewrite Heach.
Qed.

(** ** The path along the events of a value *)

Lemma advance_array_snoc_array path index :
  Path.advance_array_if_needed (path ++ [Path.Array index])
  = path ++ [Path.Array (index + 1)].
Proof.
  unfold Path.advance_array_if_needed.
  by rewrite last_snoc, removelast_last.
Qed.

Lemma advance_array_snoc_object path key :
  Path.advance_array_if_needed (path ++ [Path.Object key])
  = path ++ [Path.Object key].
Proof. unfold Path.advance_array_if_needed. by rewrite last_snoc. Qed.

Lemma pop_back_snoc path c : Path.pop_back (path ++ [c]) = Some path.
Proof.
  unfold Path.pop_back. rewrite removelast_last.
  destruct path; reflexivity.
Qed.

Lemma key_snoc_object path k key :
  Path.key key (path ++ [Path.Object k])
  = Some (path ++ [Path.Object (Some key)]).
Proof. unfold Path.key. by rewrite last_snoc, removelast_last. Qed.

(** ** The cursor on the events of the tokenizer *)

Lemma events_app tokens1 tokens2 completes rest :
  tokens2 ≠ [] →
  Tokenizer.events (tokens1 ++ tokens2) completes rest
  = Tokenizer.events tokens1 false (Tokenizer.events tokens2 completes rest).
Proof.
  intros Hne. induction tokens1 as [|t tokens1 IH]; [done|].
  cbn [app Tokenizer.events]. rewrite IH. f_equal.
  destruct tokens1; [|done]. by destruct tokens2.
Qed.

Lemma events_cons token tokens completes rest :
  Tokenizer.events (token :: tokens) completes rest
  = Reader.deliver token (after_first tokens completes)
    :: Tokenizer.events tokens completes rest.
Proof. done. Qed.

Lemma next_primed token path answers complete :
  TokenStream.next (primed token path answers complete)
  = Done (Some token, fresh path answers complete).
Proof. destruct complete; reflexivity. Qed.

Lemma peek_primed token path answers complete :
  TokenStream.peek (primed token path answers complete)
  = Done (Some token, primed token path answers complete).
Proof. destruct complete; reflexivity. Qed.

Lemma peek_fresh token path path' completes answers :
  TokenStream.on_advance token path = Some path' →
  TokenStream.peek (fresh path (Reader.deliver token completes :: answers)
                      false)
  = Done (Some token, primed token path' answers completes).
Proof.
  intros H. unfold TokenStream.peek, TokenStream.acquire_token.
  cbn. unfold TokenStream.advance. cbn. rewrite H. done.
Qed.

Lemma next_fresh token path path' completes answers :
  TokenStream.on_advance token path = Some path' →
  TokenStream.next (fresh path (Reader.deliver token completes :: answers)
                      false)
  = Done (Some token, fresh path' answers completes).
Proof.
  intros H. unfold TokenStream.next, TokenStream.acquire_token.
  cbn. unfold TokenStream.advance. cbn. rewrite H. done.
Qed.

(** Every overload starts with [next] or [peek]: it makes no difference
    whether the first token is still to be pulled or has just been. *)
Lemma parse_fresh fuel T token path path' completes answers :
  TokenStream.on_advance token path = Some path' →
  Deserializer_parse fuel T
    (fresh path (Reader.deliver token completes :: answers) false)
  = Deserializer_parse fuel T (primed token path' answers completes).
Proof.
  intros H. destruct fuel as [|fuel]; [done|].
  destruct T; cbn [Deserializer_parse].
  - unfold Deserializer.parse_json_value.
    by rewrite (next_fresh _ _ _ _ _ H), next_primed.
  - unfold Deserializer.parse_optional.
    by rewrite (peek_fresh _ _ _ _ _ H), peek_primed.
  - unfold Deserializer.parse_array_like.
    by rewrite (next_fresh _ _ _ _ _ H), next_primed.
  - unfold Deserializer.parse_dict_like.
    by rewrite (next_fresh _ _ _ _ _ H), next_primed.
  - unfold DeserializationHelper.json_parse,
      DeserializationHelper.parse_object.
    by rewrite (next_fresh _ _ _ _ _ H), next_primed.
Qed.

(** ** Reading back what was dumped *)

Lemma number_integer_value z :
  - 2 ^ 63 <= z < 2 ^ 64 →
  ∃ V, Token.integer_value (Tokenizer.number z) = Some (V, z)
       ∧ representable V z.
Proof.
  intros Hz. unfold Tokenizer.number.
  destruct (z <? 0) eqn:E0.
  - apply Z.ltb_lt in E0.
    destruct (numeric_limits_min int <=? z) eqn:E1.
    + apply Z.leb_le in E1. exists int. split; [done|].
      split; [done|]. cbn. lia.
    + exists int64_t. split; [done|].
      unfold representable; cbn -[Z.pow]. lia.
  - apply Z.ltb_ge in E0.
    destruct (z <=? numeric_limits_max unsigned) eqn:E1.
    + apply Z.leb_le in E1. exists unsigned. split; [done|].
      split; [cbn; lia|done].
    + exists uint64_t. split; [done|].
      unfold representable; cbn -[Z.pow]. lia.
Qed.

Lemma number_type z :
  Token.is_of_type TokenType.EndArray (Tokenizer.number z) = false
  ∧ Token.is_of_type TokenType.Null (Tokenizer.number z) = false
  ∧ TokenStream.on_advance (Tokenizer.number z) = λ path, Some (Path.value path).
Proof.
  unfold Tokenizer.number.
  destruct (z <? 0), (numeric_limits_min int <=? z),
    (z <=? numeric_limits_max unsigned); done.
Qed.

Lemma parse_value_number R z path :
  representable R z →
  Deserializer.parse_value (integer_t R) (Tokenizer.number z) path
  = ParseResult.Ok (VInteger z).
Proof.
  intros HR.
  destruct (number_integer_value z) as (V & HV & Hrep).
  { by eapply representable_bounds. }
  rewrite (parse_value_integer _ _ _ _ _ HV).
  assert (in_range R V z = true) as -> by by apply in_range_true.
  by rewrite static_cast_representable.
Qed.

Lemma parses_back_at_mono n m T v tokens :
  (n ≤ m)%nat → parses_back_at n T v tokens → parses_back_at m T v tokens.
Proof.
  intros Hle (token & tokens' & -> & H1 & H2 & H).
  exists token, tokens'. do 3 (split; [done|]).
  intros fuel Hfuel. apply H. lia.
Qed.

(** A value given by one scalar event. *)
Lemma parses_back_scalar T v token :
  Token.is_of_type TokenType.EndArray token = false →
  (Token.is_of_type TokenType.Null token = true → v = VOptional None) →
  TokenStream.on_advance token = (λ path, Some (Path.value path)) →
  (∀ fuel tokens,
     TokenStream.next tokens = Done (Some token, (TokenStream.token tokens).2) →
     TokenStream.peek tokens = Done (Some token, tokens) →
     Deserializer_parse (S fuel) T tokens
     = Done (ParseResult.Ok v, (TokenStream.token tokens).2)) →
  parses_back_at 1 T v [token].
Proof.
  intros H1 H2 Hadv Hparse. exists token, []. do 3 (split; [done|]).
  intros [|fuel] Hfuel path completes rest; [lia|].
  exists (Path.value path). rewrite Hadv. split; [done|].
  cbn [Tokenizer.events after_first].
  rewrite Hparse; [done|apply next_primed|apply peek_primed].
Qed.

Lemma uniform_fuel {A B : Type} (P : nat → A → B → Prop) l1 l2 :
  (∀ n m a b, (n ≤ m)%nat → P n a b → P m a b) →
  Forall2 (λ a b, ∃ n, P n a b) l1 l2 →
  ∃ N, Forall2 (P N) l1 l2.
Proof.
  intros Hmono H. induction H as [|a b l1 l2 [n Hn] _ [N IH]].
  - exists O. constructor.
  - exists (n `max` N)%nat. constructor.
    + eapply Hmono; [|exact Hn]. lia.
    + eapply Forall2_impl; [exact IH|]. intros a' b'.
      apply Hmono. lia.
Qed.

Lemma Forall2_concat_inv {A B : Type} (R : A → B → Prop) ls ts :
  Forall2 R (concat ls) ts →
  ∃ tss, ts = concat tss ∧ Forall2 (Forall2 R) ls tss.
Proof.
  revert ts. induction ls as [|l ls IH]; intros ts H.
  - apply Forall2_nil_inv_l in H as ->. exists []. split; [done|constructor].
  - cbn in H. apply Forall2_app_inv_l in H as (t1 & t2 & H1 & H2 & ->).
    destruct (IH _ H2) as (tss & -> & Htss).
    exists (t1 :: tss). split; [done|]. by constructor.
Qed.

Section Loops.

Import Deserializer.

Lemma array_loop_elements N T k l tss :
  Forall2 (parses_back_at N T) l tss →
  ∀ fuel n acc path index completes rest size,
    (N ≤ fuel)%nat → (length l < n)%nat →
    array_loop (Deserializer_parse fuel T) n k acc
      (fresh (path ++ [Path.Array index])
         (Tokenizer.events (concat tss ++ [Token.EndArrayToken size])
            completes rest) false)
    = Done (ParseResult.Ok (VArray k (fold_left (array_emplace k) l acc)),
            fresh path rest completes).
Proof.
  induction 1 as [|x tsx l tss Hx _ IH];
    intros fuel n acc path index completes rest size Hfuel Hn.
  - destruct n as [|n]; [cbn in Hn; lia|].
    cbn [concat app array_loop]. rewrite events_cons.
    rewrite (peek_fresh _ _ path); [|apply pop_back_snoc].
    cbn [bind]. change (Token.is_of_type _ _) with true. cbn match.
    rewrite next_primed. done.
  - destruct n as [|n]; [cbn in Hn; lia|].
    destruct Hx as (token & tokens' & -> & Hend & _ & Hx).
    destruct (Hx fuel Hfuel (path ++ [Path.Array index]) false
                (Tokenizer.events
                   (concat tss ++ [Token.EndArrayToken size])
                   completes rest)) as (path' & Hadv & Hparse).
    cbn [concat]. rewrite <- app_assoc. rewrite events_app by by destruct (concat tss).
    rewrite events_cons. cbn [array_loop].
    rewrite (peek_fresh _ _ _ _ _ Hadv). cbn [bind]. rewrite Hend.
    cbn match. rewrite Hparse. cbn [bind].
    rewrite advance_array_snoc_array. rewrite IH; [done|done|].
    cbn in Hn. lia.
Qed.

End Loops.

Section DictLoop.

Import Deserializer.

Lemma dict_loop_entries N T k (l : list (string * JValue)) tss :
  Forall2 (λ e tsv, parses_back_at N T e.2 tsv) l tss →
  ∀ fuel n acc path key0 completes rest size,
    (N ≤ fuel)%nat → (length l < n)%nat →
    dict_loop (Deserializer_parse fuel T) n k acc
      (fresh (path ++ [Path.Object key0])
         (Tokenizer.events
            (concat (zip_with (λ e tsv, Token.KeyToken e.1 :: tsv) l tss)
             ++ [Token.EndObjectToken size])
            completes rest) false)
    = Done (ParseResult.Ok
              (VDict k (fold_left (λ acc e, dict_emplace acc e.1 e.2) l acc)),
            fresh path rest completes).
Proof.
  induction 1 as [|e tsv l tss He _ IH];
    intros fuel n acc path key0 completes rest size Hfuel Hn.
  - destruct n as [|n]; [cbn in Hn; lia|].
    cbn [zip_with concat app dict_loop]. rewrite events_cons.
    rewrite (next_fresh _ _ path); [|apply pop_back_snoc]. done.
  - destruct n as [|n]; [cbn in Hn; lia|].
    destruct He as (token & tokens' & -> & _ & _ & He).
    set (more := concat (zip_with (λ e tsv, Token.KeyToken e.1 :: tsv) l tss)
                 ++ [Token.EndObjectToken size]).
    destruct (He fuel Hfuel (path ++ [Path.Object (Some e.1)]) false
                (Tokenizer.events more completes rest))
      as (path' & Hadv & Hparse).
    cbn [zip_with concat]. rewrite <- !app_comm_cons, <- app_assoc.
    fold more. rewrite events_cons. cbn [after_first].
    change (token :: tokens' ++ more) with ((token :: tokens') ++ more).
    rewrite events_app by by destruct (concat _).
    rewrite events_cons. cbn [dict_loop].
    rewrite (next_fresh _ _ (path ++ [Path.Object (Some e.1)]));
      [|apply key_snoc_object].
    cbn [bind]. rewrite (parse_fresh _ _ _ _ _ _ _ Hadv), Hparse.
    cbn [bind]. rewrite advance_array_snoc_object. subst more.
    rewrite IH; [done|done|]. cbn in Hn. lia.
Qed.

End DictLoop.

Lemma reads_keyed {X : Type} (keyf : X → string)
    (f : X → list WriterCall) (l : list X) tss' :
  Forall2 (Forall2 Tokenizer.reads) (map (λ x, WKey (keyf x) :: f x) l) tss' →
  ∃ tss,
    tss' = zip_with (λ x tsv, Token.KeyToken (keyf x) :: tsv) l tss
    ∧ Forall2 (λ x tsv, Forall2 Tokenizer.reads (f x) tsv) l tss.
Proof.
  revert tss'. induction l as [|x l IH]; intros tss' H.
  - apply Forall2_nil_inv_l in H as ->. exists []. split; [done|constructor].
  - cbn in H. apply Forall2_cons_inv_l in H as (ts & tss'' & Hx & Hl & ->).
    apply Forall2_cons_inv_l in Hx as (t & tsv & Ht & Hv & ->).
    inversion Ht; subst.
    destruct (IH _ Hl) as (tss & -> & Htss).
    exists (tsv :: tss). split; [done|]. by constructor.
Qed.

Section ClassLoop.

Import DeserializationHelper.

Lemma descriptors_O members : descriptors members O = fields_of members.
Proof.
  unfold descriptors, fields_of. apply imap_ext. intros i f _.
  by rewrite bool_decide_eq_false_2 by lia.
Qed.

Lemma descriptors_lookup members j i f :
  members !! i = Some f →
  descriptors members j !! i
  = Some (mkField f.1 f.2 i (bool_decide (i < j)%nat)).
Proof. intros H. unfold descriptors. by rewrite list_lookup_imap, H. Qed.

Lemma descriptors_set members j f :
  members !! j = Some f →
  <[j := mkField f.1 f.2 j true]> (descriptors members j)
  = descriptors members (S j).
Proof.
  intros Hj. apply list_eq. intros i.
  destruct (decide (i = j)) as [->|Hne].
  - rewrite list_lookup_insert_eq.
    + rewrite (descriptors_lookup _ _ _ _ Hj).
      by rewrite bool_decide_eq_true_2 by lia.
    + unfold descriptors. rewrite length_imap. by eapply lookup_lt_Some.
  - rewrite list_lookup_insert_ne by done.
    unfold descriptors. rewrite !list_lookup_imap.
    destruct (members !! i); [|done]. cbn. do 2 f_equal.
    apply bool_decide_ext. lia.
Qed.

Lemma descriptors_ready members :
  forallb is_ready (descriptors members (length members)) = true.
Proof.
  apply forallb_forall. intros f Hf. apply list_elem_of_In in Hf.
  apply list_elem_of_lookup in Hf as [i Hi].
  unfold descriptors in Hi. rewrite list_lookup_imap in Hi.
  destruct (members !! i) as [m|] eqn:Hm; [|done].
  injection Hi as <-. unfold is_ready. cbn.
  apply lookup_lt_Some in Hm. by rewrite bool_decide_eq_true_2.
Qed.

Lemma build_fields_map_fold (fields : list Field) (m0 : gmap string nat)
    (c0 : nat) (key : string) :
  let result :=
    (fold_left
       (λ '(result, counter) field,
          (<[name field := counter]> result, S counter))
       fields (m0, c0)).1 in
  (key ∉ name <$> fields → result !! key = m0 !! key)
  ∧ (NoDup (name <$> fields) →
     ∀ j f, fields !! j = Some f → name f = key →
            result !! key = Some (c0 + j)%nat).
Proof.
  revert m0 c0. induction fields as [|f0 fields IH]; intros m0 c0; cbn zeta.
  - split; [done|]. intros _ j f Hj. done.
  - cbn [fold_left]. destruct (IH (<[name f0 := c0]> m0) (S c0)) as [IH1 IH2].
    cbn zeta in IH1, IH2. split.
    + intros Hnot. rewrite fmap_cons in Hnot.
      apply not_elem_of_cons in Hnot as [Hne Hnot].
      rewrite IH1 by done. by rewrite lookup_insert_ne.
    + intros Hnd j f Hj Hname. rewrite fmap_cons in Hnd.
      apply NoDup_cons in Hnd as [Hnot Hnd].
      destruct j as [|j].
      * injection Hj as ->. rewrite Hname in Hnot.
        rewrite IH1 by done. rewrite Hname, lookup_insert_eq.
        f_equal. lia.
      * rewrite (IH2 Hnd j f Hj Hname). f_equal. lia.
Qed.

Lemma fields_of_names members : name <$> fields_of members = members.*1.
Proof.
  unfold fields_of. apply list_eq. intros i.
  rewrite !list_lookup_fmap, list_lookup_imap.
  by destruct (members !! i).
Qed.

Lemma build_fields_map_lookup members j f :
  NoDup members.*1 → members !! j = Some f →
  build_fields_map (fields_of members) !! f.1 = Some j.
Proof.
  intros Hnd Hj. unfold build_fields_map.
  destruct (build_fields_map_fold (fields_of members) ∅ O f.1) as [_ H].
  cbn zeta in H. rewrite (H ltac:(by rewrite fields_of_names) j
                            (mkField f.1 f.2 j false)); [done| |done].
  unfold fields_of. by rewrite list_lookup_imap, Hj.
Qed.

Lemma object_loop_members N all map :
  NoDup all.*1 → map = build_fields_map (fields_of all) →
  ∀ todo mtodo tss,
    Forall3 (λ f m tsv, parses_back_at N f.2 m tsv) todo mtodo tss →
    ∀ done_ mdone rest_of_object fuel n path key0 completes rest size,
      all = done_ ++ todo →
      length mdone = length done_ →
      length rest_of_object = length todo →
      (N ≤ fuel)%nat → (length todo < n)%nat →
      object_loop (Deserializer_parse fuel) n map
        (fresh (path ++ [Path.Object key0])
           (Tokenizer.events
              (concat (zip_with (λ f tsv, Token.KeyToken f.1 :: tsv)
                         todo tss)
               ++ [Token.EndObjectToken size])
              completes rest) false)
        (descriptors all (length done_)) (mdone ++ rest_of_object)
      = Done (ParseResult.Ok (), fresh path rest completes,
              descriptors all (length all), mdone ++ mtodo).
Proof.
  intros Hnd ->. induction 1 as [|f m tsv todo mtodo tss Hf _ IH];
    intros done_ mdone rest_of_object fuel n path key0 completes rest size
      Hall Hmdone Hrest Hfuel Hn.
  - destruct n as [|n]; [cbn in Hn; lia|].
    destruct rest_of_object; [|done].
    rewrite app_nil_r in Hall. subst all.
    cbn [zip_with concat app]. rewrite events_cons.
    erewrite object_loop_end;
      [|rewrite (next_fresh _ _ path); [done|apply pop_back_snoc]].
    by rewrite descriptors_ready.
  - destruct n as [|n]; [cbn in Hn; lia|].
    destruct rest_of_object as [|d rest_of_object]; [done|].
    destruct Hf as (token & tokens' & -> & _ & _ & Hf).
    set (more := concat (zip_with (λ f tsv, Token.KeyToken f.1 :: tsv)
                           todo tss)
                 ++ [Token.EndObjectToken size]).
    destruct (Hf fuel Hfuel (path ++ [Path.Object (Some f.1)]) false
                (Tokenizer.events more completes rest))
      as (path' & Hadv & Hparse).
    assert (all !! length done_ = Some f) as Hj.
    { subst all. by rewrite list_lookup_middle. }
    cbn [zip_with concat]. rewrite <- !app_comm_cons, <- app_assoc.
    fold more. rewrite events_cons. cbn [after_first].
    change (token :: tokens' ++ more) with ((token :: tokens') ++ more).
    rewrite events_app by by destruct (concat _).
    rewrite events_cons.
    erewrite object_loop_key;
      [|rewrite (next_fresh _ _ (path ++ [Path.Object (Some f.1)]));
        [done|apply key_snoc_object]
       |by apply build_fields_map_lookup].
    erewrite parse_field_writes;
      [|by apply descriptors_lookup
       |cbn; by rewrite bool_decide_eq_false_2 by lia
       |cbn [type]; rewrite (parse_fresh _ _ _ _ _ _ _ Hadv); exact Hparse].
    cbn [bind set fst m_ref name type].
    rewrite advance_array_snoc_object.
    rewrite (descriptors_set _ _ _ Hj).
    replace (<[length done_ := m]> (mdone ++ d :: rest_of_object))
      with ((mdone ++ [m]) ++ rest_of_object).
    2:{ rewrite <- Hmdone. rewrite insert_app_r_alt by lia.
        rewrite Nat.sub_diag. cbn. by rewrite <- app_assoc. }
    replace (S (length done_)) with (length (done_ ++ [f]))
      by (rewrite length_app; cbn; lia).
    subst more.
    rewrite (IH (done_ ++ [f]) (mdone ++ [m]) rest_of_object fuel n).
    + by rewrite <- app_assoc.
    + by rewrite <- app_assoc.
    + rewrite !length_app. cbn. lia.
    + cbn in Hrest. lia.
    + done.
    + cbn in Hn. lia.
Qed.

End ClassLoop.

Lemma uniform_fuel3 {A B C : Type} (P : nat → A → B → C → Prop) l1 l2 l3 :
  (∀ n m a b c, (n ≤ m)%nat → P n a b c → P m a b c) →
  Forall3 (λ a b c, ∃ n, P n a b c) l1 l2 l3 →
  ∃ N, Forall3 (P N) l1 l2 l3.
Proof.
  intros Hmono H. induction H as [|a b c l1 l2 l3 [n Hn] _ [N IH]].
  - exists O. constructor.
  - exists (n `max` N)%nat. constructor.
    + eapply Hmono; [|exact Hn]. lia.
    + eapply Forall3_impl; [exact IH|]. intros a' b' c'.
      apply Hmono. lia.
Qed.

Lemma Forall2_impl_elem {A B : Type} (R Q : A → B → Prop) l k :
  Forall2 R l k → (∀ a b, a ∈ l → R a b → Q a b) → Forall2 Q l k.
Proof.
  induction 1 as [|a b l k Hab _ IH]; intros H; constructor.
  - apply H; [left|done].
  - apply IH. intros a' b' Ha'. apply H. by right.
Qed.

Lemma existsb_false {A : Type} (f : A → bool) l x :
  existsb f l = false → x ∈ l → f x = false.
Proof.
  intros H Hx. destruct (f x) eqn:E; [|done].
  assert (existsb f l = true); [|congruence].
  apply existsb_exists. exists x. split; [by apply list_elem_of_In|done].
Qed.

Lemma present_absent_present x :
  present_absent (VOptional (Some x)) = false →
  x ≠ VOptional None ∧ present_absent x = false.
Proof. destruct x as [| | | |[x|]| | |]; cbn; intros H; done. Qed.

Lemma class_members_read fields members tss' :
  Forall2 (λ f m, has_type f.2 m) fields members →
  Forall (λ f, exact_type f.2) fields →
  Forall ParsesBack members →
  existsb present_absent members = false →
  Forall2 (Forall2 Tokenizer.reads)
    (zip_with (λ f m, WKey f.1 :: Json.dump f.2 m) fields members) tss' →
  ∃ tss,
    tss' = zip_with (λ f tsv, Token.KeyToken f.1 :: tsv) fields tss
    ∧ Forall3 (λ f m tsv, ∃ n, parses_back_at n f.2 m tsv)
        fields members tss.
Proof.
  intros H. revert tss'.
  induction H as [|f m fields members Hfm _ IH];
    intros tss' Hexact Hback Hsafe Hreads.
  - apply Forall2_nil_inv_l in Hreads as ->. exists [].
    split; [done|constructor].
  - cbn in Hreads.
    apply Forall2_cons_inv_l in Hreads as (ts & tss'' & Hx & Hl & ->).
    apply Forall2_cons_inv_l in Hx as (t & tsv & Ht & Hv & ->).
    inversion Ht; subst.
    apply Forall_cons in Hexact as [Hf Hexact].
    apply Forall_cons in Hback as [Hm Hback].
    cbn in Hsafe. apply orb_false_iff in Hsafe as [Hs Hsafe].
    destruct (IH _ Hexact Hback Hsafe Hl) as (tss & -> & Htss).
    exists (tsv :: tss). split; [done|]. constructor; [|done].
    by apply Hm.
Qed.

Lemma parses_back_dump v : ParsesBack v.
Proof.
  induction v using JValue_nested_ind;
    intros T tokens Hexact Htype Hsafe Hreads.
  - (* bool *)
    inversion Htype; subst. cbn in Hreads.
    apply Forall2_cons_inv_l in Hreads as (t & ts & Ht & Hts & ->).
    apply Forall2_nil_inv_l in Hts as ->. inversion Ht; subst.
    exists 1%nat. apply parses_back_scalar; [done..|].
    intros fuel st Hnext _. cbn [Deserializer_parse].
    unfold Deserializer.parse_json_value. by rewrite Hnext.
  - (* integer *)
    inversion Htype as [|T0 z0 Hrep| | | | | | |]; subst.
    unfold Json.dump in Hreads. cbn [Serializer.dump] in Hreads.
    rewrite integer_emission_policy in Hreads by done. cbn [app] in Hreads.
    apply Forall2_cons_inv_l in Hreads as (t & ts & Ht & Hts & ->).
    apply Forall2_nil_inv_l in Hts as ->.
    assert (t = Tokenizer.number z) as ->.
    { destruct (0 <? z), (z <=? numeric_limits_max unsigned),
        (numeric_limits_min int <=? z); by inversion Ht. }
    destruct (number_type z) as (Hend & Hnull & Hadv).
    exists 1%nat. apply parses_back_scalar; [done|by rewrite Hnull|done|].
    intros fuel st Hnext _. cbn [Deserializer_parse].
    unfold Deserializer.parse_json_value. rewrite Hnext. cbn [bind].
    by rewrite parse_value_number.
  - (* floating *)
    inversion Htype; subst. inversion Hexact.
  - (* string *)
    inversion Htype; subst. cbn in Hreads.
    apply Forall2_cons_inv_l in Hreads as (t & ts & Ht & Hts & ->).
    apply Forall2_nil_inv_l in Hts as ->. inversion Ht; subst.
    exists 1%nat. apply parses_back_scalar; [done..|].
    intros fuel st Hnext _. cbn [Deserializer_parse].
    unfold Deserializer.parse_json_value. by rewrite Hnext.
  - (* absent *)
    inversion Htype; subst. cbn in Hreads.
    apply Forall2_cons_inv_l in Hreads as (t & ts & Ht & Hts & ->).
    apply Forall2_nil_inv_l in Hts as ->. inversion Ht; subst.
    exists 1%nat. apply parses_back_scalar; [done..|].
    intros fuel st Hnext Hpeek. cbn [Deserializer_parse].
    unfold Deserializer.parse_optional. rewrite Hpeek. cbn [bind].
    change (Token.is_of_type _ _) with true. cbn match.
    by rewrite Hnext.
  - (* present *)
    inversion Htype as [| | | | |T0 v0 Hv| | |]; subst.
    inversion Hexact; subst.
    apply present_absent_present in Hsafe as [Hne Hsafe].
    destruct (IHv T0 tokens) as (n & token & tokens' & -> & Hend & Hnull & H);
      [done..|].
    exists (S n), token, tokens'. do 2 (split; [done|]).
    split. { intros Hn. destruct (Hne (Hnull Hn)). }
    intros [|fuel] Hfuel path completes rest; [lia|].
    destruct (H fuel ltac:(lia) path completes rest) as (path' & Hadv & Hp).
    exists path'. split; [done|]. cbn [Deserializer_parse].
    unfold Deserializer.parse_optional. rewrite peek_primed. cbn [bind].
    destruct (Token.is_of_type TokenType.Null token) eqn:E.
    { destruct Hne. by apply Hnull. }
    by rewrite Hp.
  - (* array *)
    inversion Htype as [| | | | | |k0 T0 l0 Hl Hnodup| |]; subst.
    inversion Hexact; subst. rewrite dump_array in Hreads.
    apply Forall2_cons_inv_l in Hreads as (t & ts & Ht & Hts & ->).
    inversion Ht; subst.
    apply Forall2_app_inv_l in Hts as (ts1 & ts2 & Hts1 & Hts2 & ->).
    apply Forall2_cons_inv_l in Hts2 as (t2 & ts3 & Ht2 & Hts3 & ->).
    apply Forall2_nil_inv_l in Hts3 as ->. inversion Ht2; subst.
    apply Forall2_concat_inv in Hts1 as (tss & -> & Htss).
    rewrite Forall2_fmap_l in Htss.
    assert (Forall2 (λ x tsx, ∃ n, parses_back_at n T0 x tsx) l tss) as Hall.
    { eapply Forall2_impl_elem; [exact Htss|]. intros x tsx Hx Hr.
      rewrite Forall_forall in H. apply (H x Hx); [done| |by eapply existsb_false|done].
      rewrite Forall_forall in Hl. by apply Hl. }
    apply uniform_fuel in Hall as [N Hall];
      [|intros; by eapply parses_back_at_mono].
    exists (N + length l + 2)%nat, Token.StartArrayToken,
      (concat tss ++ [Token.EndArrayToken n]).
    do 3 (split; [done|]).
    intros [|fuel] Hfuel path completes rest; [lia|].
    exists (Path.start_array path). split; [done|].
    cbn [Deserializer_parse]. unfold Deserializer.parse_array_like.
    rewrite next_primed. cbn [bind].
    change (Token.is_of_type _ _) with true. cbn [negb].
    replace (after_first (concat tss ++ [Token.EndArrayToken n]) completes)
      with false by by destruct (concat tss).
    unfold Path.start_array.
    rewrite (array_loop_elements N T0 k l tss Hall) by lia.
    by rewrite Hnodup.
  - (* dict *)
    inversion Htype as [| | | | | | |k0 T0 l0 Hl Hnodup|]; subst.
    inversion Hexact; subst. rewrite dump_dict in Hreads.
    apply Forall2_cons_inv_l in Hreads as (t & ts & Ht & Hts & ->).
    inversion Ht; subst.
    apply Forall2_app_inv_l in Hts as (ts1 & ts2 & Hts1 & Hts2 & ->).
    apply Forall2_cons_inv_l in Hts2 as (t2 & ts3 & Ht2 & Hts3 & ->).
    apply Forall2_nil_inv_l in Hts3 as ->. inversion Ht2; subst.
    apply Forall2_concat_inv in Hts1 as (tss' & -> & Htss).
    apply reads_keyed in Htss as (tss & -> & Htss).
    assert (Forall2 (λ e tsv, ∃ n, parses_back_at n T0 e.2 tsv) l tss)
      as Hall.
    { eapply Forall2_impl_elem; [exact Htss|]. intros e tsv He Hr.
      rewrite Forall_forall in H. apply (H e He); [done| | |done].
      - rewrite Forall_forall in Hl. by apply Hl.
      - by apply (existsb_false (λ e, present_absent e.2) l). }
    apply (uniform_fuel (λ n e tsv, parses_back_at n T0 e.2 tsv))
      in Hall as [N Hall];
      [|intros; by eapply parses_back_at_mono].
    exists (N + length l + 2)%nat, Token.StartObjectToken,
      (concat (zip_with (λ e tsv, Token.KeyToken e.1 :: tsv) l tss)
       ++ [Token.EndObjectToken n]).
    do 3 (split; [done|]).
    intros [|fuel] Hfuel path completes rest; [lia|].
    exists (Path.start_object path). split; [done|].
    cbn [Deserializer_parse]. unfold Deserializer.parse_dict_like.
    rewrite next_primed. cbn [bind].
    change (Token.is_of_type _ _) with true. cbn [negb].
    replace (after_first _ completes) with false by by destruct (concat _).
    unfold Path.start_object.
    rewrite (dict_loop_entries N T0 k l tss Hall) by lia.
    by rewrite Hnodup.
  - (* class *)
    inversion Htype as [| | | | | | | |fields ms Hms]; subst.
    inversion Hexact as [| | | | | |fs Hnames Hfields]; subst.
    rewrite dump_class in Hreads.
    apply Forall2_cons_inv_l in Hreads as (t & ts & Ht & Hts & ->).
    inversion Ht; subst.
    apply Forall2_app_inv_l in Hts as (ts1 & ts2 & Hts1 & Hts2 & ->).
    apply Forall2_cons_inv_l in Hts2 as (t2 & ts3 & Ht2 & Hts3 & ->).
    apply Forall2_nil_inv_l in Hts3 as ->. inversion Ht2; subst.
    apply Forall2_concat_inv in Hts1 as (tss' & -> & Htss).
    apply (class_members_read _ _ _ Hms Hfields H Hsafe) in Htss
      as (tss & -> & Hall).
    apply (uniform_fuel3 (λ n f m tsv, parses_back_at n f.2 m tsv))
      in Hall as [N Hall];
      [|intros; by eapply parses_back_at_mono].
    exists (N + length fields + 2)%nat, Token.StartObjectToken,
      (concat (zip_with (λ f tsv, Token.KeyToken f.1 :: tsv) fields tss)
       ++ [Token.EndObjectToken n]).
    do 3 (split; [done|]).
    intros [|fuel] Hfuel path completes rest; [lia|].
    exists (Path.start_object path). split; [done|].
    cbn [Deserializer_parse].
    unfold DeserializationHelper.json_parse,
      DeserializationHelper.parse_object.
    rewrite next_primed. cbn [bind].
    change (Token.is_of_type _ _) with true. cbn [negb].
    replace (after_first _ completes) with false by by destruct (concat _).
    unfold Path.start_object.
    pose proof (object_loop_members N fields _ Hnames eq_refl fields members
                  tss Hall [] []
                  (map (λ member, default_value member.2) fields)
                  fuel fuel (Path.advance_array_if_needed path) None
                  completes rest n eq_refl eq_refl
                  ltac:(by rewrite length_map) ltac:(lia) ltac:(lia))
      as Hloop.
    cbn [length app] in Hloop. rewrite descriptors_O in Hloop.
    by rewrite Hloop.
Qed.

(** C1, as stated, fails for nested optionals: a present optional that
    holds an absent one is dumped as [null], which parses back as the
    absent outer optional. *)
Lemma present_absent_does_not_round_trip :
  let T := Optional (Optional (Value bool_t)) in
  let v := VOptional (Some (VOptional None)) in
  has_type T v
  ∧ Json.dump T v = [WNull]
  ∧ (∀ tokens, Forall2 Tokenizer.reads (Json.dump T v) tokens →
               tokens = [Token.NullToken])
  ∧ (∀ fuel, Json.parse (S fuel) T (Tokenizer.document [Token.NullToken])
             = Done (ParseResult.Ok (VOptional None)))
  ∧ VOptional None ≠ v.
Proof.
  split; [repeat constructor|]. split; [reflexivity|].
  split; [|split; [intros fuel; reflexivity|discriminate]].
  intros tokens H. cbn in H.
  apply Forall2_cons_inv_l in H as (t & ts & Ht & Hts & ->).
  apply Forall2_nil_inv_l in Hts as ->. by inversion Ht.
Qed.

(** C1 (amended): round trip.  Let [T] be a type built from booleans,
    integers, strings, optionals, sequences (vector, set, unordered
    set), string-keyed maps and records with distinct field names, and
    let [v] be a value of [T] in which no present optional holds an
    absent optional.  Then parsing the text produced by dumping [v]
    yields [Ok v]: whatever lexical events the tokenizer finds in the
    written text, [parse] returns [v] once it is given enough fuel.  The
    result is the very container that was dumped, so it is equal to [v]
    also in the order-insensitive sense of the unordered containers. *)
Theorem round_trip T v tokens :
  exact_type T → has_type T v → present_absent v = false →
  Forall2 Tokenizer.reads (Json.dump T v) tokens →
  ∃ n, ∀ fuel, (n ≤ fuel)%nat →
    Json.parse fuel T (Tokenizer.document tokens)
    = Done (ParseResult.Ok v).
Proof.
  intros Hexact Htype Hsafe Hreads.
  destruct (parses_back_dump v T tokens Hexact Htype Hsafe Hreads)
    as (n & token & tokens' & -> & _ & _ & H).
  exists n. intros fuel Hfuel.
  destruct (H fuel Hfuel [] true []) as (path' & Hadv & Hparse).
  unfold Json.parse, Tokenizer.document. rewrite events_cons.
  change (TokenStream.ContextTokenStream ?a) with (fresh [] a false).
  rewrite (parse_fresh _ _ _ _ _ _ _ Hadv), Hparse. done.
Qed.

Lemma round_trip_witness :
  let Inner := Class [("n", Value (integer_t int8_t));
                      ("tag", Optional (Value string_t))] in
  let T := Class [("items", ArrayLike std_vector Inner);
                  ("seen", ArrayLike std_set (Value (integer_t int64_t)));
                  ("flags", DictLike std_unordered_map (Value bool_t))] in
  let v := VClass [VArray std_vector
                     [VClass [VInteger (-7); VOptional None];
                      VClass [VInteger 0; VOptional (Some (VString "x"))]];
                   VArray std_set [VInteger 5000000000; VInteger (-1)];
                   VDict std_unordered_map [("on", VBool true)]] in
  ∃ n, ∀ fuel, (n ≤ fuel)%nat →
    Json.parse fuel T
      (Tokenizer.document
         [Token.StartObjectToken;
          Token.KeyToken "items"; Token.StartArrayToken;
            Token.StartObjectToken;
              Token.KeyToken "n"; Token.IntToken (-7);
              Token.KeyToken "tag"; Token.NullToken;
            Token.EndObjectToken 2;
            Token.StartObjectToken;
              Token.KeyToken "n"; Token.UintToken 0;
              Token.KeyToken "tag"; Token.StringToken "x";
            Token.EndObjectToken 2;
          Token.EndArrayToken 2;
          Token.KeyToken "seen"; Token.StartArrayToken;
            Token.Uint64Token 5000000000; Token.IntToken (-1);
          Token.EndArrayToken 2;
          Token.KeyToken "flags"; Token.StartObjectToken;
            Token.KeyToken "on"; Token.BoolToken true;
          Token.EndObjectToken 1;
          Token.EndObjectToken 3])
    = Done (ParseResult.Ok v).
Proof.
  intros Inner T v. apply round_trip.
  - repeat (constructor || compute_done).
  - repeat (constructor; try (unfold representable; cbn; lia));
      reflexivity.
  - reflexivity.
  - vm_compute Json.dump. repeat constructor.
Defined.

(** ** Duplicate keys, from the text to the map *)

Lemma dict_find_cons key e l :
  dict_find key (e :: l)
  = if String.eqb key e.1 then Some e.2 else dict_find key l.
Proof. unfold dict_find. cbn. by destruct (String.eqb key e.1). Qed.

Lemma dict_find_fold key (l acc : list (string * JValue)) :
  dict_find key (fold_left (λ acc e, dict_emplace acc e.1 e.2) l acc)
  = match dict_find key acc with
    | Some v => Some v
    | None => dict_find key l
    end.
Proof.
  revert acc. induction l as [|e l IH]; intros acc; cbn [fold_left].
  - by destruct (dict_find key acc).
  - rewrite IH, dict_find_cons.
    destruct (String.eqb key e.1) eqn:E.
    + apply String.eqb_eq in E as ->. rewrite dict_emplace_find.
      by destruct (dict_find e.1 acc).
    + rewrite dict_emplace_find_other; [done|].
      intros ->. by rewrite String.eqb_refl in E.
Qed.

(** C5 (amended): when a JSON object is parsed into a generic
    string-keyed map type (not a record), duplicate keys are not detected
    and are resolved first-write-wins.  Take any object text whose
    members are keys, repeated or not, each followed by the text of a
    value of the mapped type: the parse raises no error and returns a
    map in which every key is bound to the value of its first occurrence
    in the text.  For an input object with the same key twice the
    resulting map holds the value of the earlier occurrence. *)
Theorem dict_first_write_wins k T (entries : list (string * JValue)) tss
    size :
  exact_type T →
  Forall2 (λ e tsv, has_type T e.2 ∧ present_absent e.2 = false
                    ∧ Forall2 Tokenizer.reads (Json.dump T e.2) tsv)
    entries tss →
  (∃ n, ∀ fuel, (n ≤ fuel)%nat →
     ∃ m,
       Json.parse fuel (DictLike k T)
         (Tokenizer.document
            (Token.StartObjectToken
             :: concat (zip_with (λ e tsv, Token.KeyToken e.1 :: tsv)
                          entries tss)
             ++ [Token.EndObjectToken size]))
       = Done (ParseResult.Ok (VDict k m))
       ∧ ∀ key, dict_find key m = dict_find key entries)
  ∧ Json.parse 4 (DictLike k (Value (integer_t int)))
      (Tokenizer.document
         [Token.StartObjectToken;
          Token.KeyToken "a"; Tokenizer.number 1;
          Token.KeyToken "a"; Tokenizer.number 2;
          Token.EndObjectToken 2])
    = Done (ParseResult.Ok (VDict k [("a", VInteger 1)])).
Proof.
  intros Hexact Hentries. split; [|by destruct k].
  assert (Forall2 (λ e tsv, ∃ n, parses_back_at n T e.2 tsv) entries tss)
    as Hall.
  { eapply Forall2_impl; [exact Hentries|].
    intros e tsv (Ht & Hs & Hr). by apply parses_back_dump. }
  apply (uniform_fuel (λ n e tsv, parses_back_at n T e.2 tsv))
    in Hall as [N Hall];
    [|intros; by eapply parses_back_at_mono].
  exists (N + length entries + 2)%nat. intros [|fuel] Hfuel; [lia|].
  exists (fold_left (λ acc e, dict_emplace acc e.1 e.2) entries []).
  split; [|intros key; by rewrite dict_find_fold].
  unfold Json.parse, Tokenizer.document. rewrite events_cons.
  change (TokenStream.ContextTokenStream ?a) with (fresh [] a false).
  rewrite (parse_fresh _ _ Token.StartObjectToken []
             (Path.start_object []) _ _ eq_refl).
  cbn [Deserializer_parse]. unfold Deserializer.parse_dict_like.
  rewrite next_primed. cbn [bind].
  change (Token.is_of_type _ _) with true. cbn [negb].
  replace (after_first _ true) with false by by destruct (concat _).
  unfold Path.start_object.
  by rewrite (dict_loop_entries N T k entries tss Hall) by lia.
Qed.

Lemma dict_first_write_wins_witness :
  ∃ n, ∀ fuel, (n ≤ fuel)%nat →
    ∃ m,
      Json.parse fuel
        (DictLike std_unordered_map (Optional (Value string_t)))
        (Tokenizer.document
           [Token.StartObjectToken;
            Token.KeyToken "k"; Token.StringToken "first";
            Token.KeyToken "other"; Token.NullToken;
            Token.KeyToken "k"; Token.StringToken "second";
            Token.EndObjectToken 3])
      = Done (ParseResult.Ok (VDict std_unordered_map m))
      ∧ dict_find "k" m = Some (VOptional (Some (VString "first"))).
Proof.
  destruct (dict_first_write_wins std_unordered_map
              (Optional (Value string_t))
              [("k", VOptional (Some (VString "first")));
               ("other", VOptional None);
               ("k", VOptional (Some (VString "second")))]
              [[Token.StringToken "first"]; [Token.NullToken];
               [Token.StringToken "second"]] 3) as [[n H] _].
  - repeat constructor.
  - repeat constructor.
  - exists n. intros fuel Hfuel. destruct (H fuel Hfuel) as (m & Hm & Hfind).
    exists m. split; [exact Hm|]. by rewrite Hfind.
Defined.

(** ** What follows the value *)

Section Extend.

Import TokenStream.
Variable rest : list Reader.Answer.

Lemma acquire_token_extend s b s1 :
  acquire_token s = Done (b, s1) →
  at_rest s ∨ b = true →
  acquire_token (extend rest s) = Done (b, extend rest s1).
Proof.
  intros H Hor.
  destruct (decide (at_rest s)) as [Hrest|Hnot].
  - rewrite acquire_token_idle in H by done. injection H as <- <-.
    by rewrite acquire_token_idle.
  - destruct Hor as [?| ->]; [done|].
    unfold at_rest in Hnot.
    destruct (has_error s) eqn:He; [destruct Hnot; by left|].
    destruct (is_complete s) eqn:Hc; [destruct Hnot; right; by left|].
    destruct (has_token s) eqn:Ht; [destruct Hnot; right; by right|].
    unfold acquire_token in *.
    change (has_error (extend rest s)) with (has_error s).
    change (is_complete (extend rest s)) with (is_complete s).
    change (has_token (extend rest s)) with (has_token s).
    rewrite He, Hc, Ht in *. cbn [orb] in *.
    unfold advance in *. unfold Reader.IterativeParseNext in *.
    unfold has_token in Ht.
    destruct s as [[[|a answers] c] [tok|] e ctx p]; try done;
      cbn in H |- *.
    destruct (Reader.failure a); cbn in H |- *.
    + injection H as Hb <-. unfold extend, has_token in *. cbn in Hb |- *.
      by rewrite Hb.
    + destruct (Reader.dispatched a) as [tok|]; cbn in H |- *.
      * destruct ctx; [destruct (on_advance tok p)|]; cbn in H |- *;
          try done; by injection H as <-.
      * done.
Qed.

Lemma peek_extend s tok s1 :
  peek s = Done (Some tok, s1) →
  peek (extend rest s) = Done (Some tok, extend rest s1).
Proof.
  unfold peek. destruct (acquire_token s) as [[b s']| |] eqn:E; [|done..].
  cbn [bind]. intros [= Htok <-].
  rewrite (acquire_token_extend _ _ _ E); [by rewrite <- Htok|].
  destruct (decide (at_rest s)) as [|Hnot]; [by left|right].
  rewrite (acquire_token_result _ _ _ E).
  unfold has_token. rewrite Htok.
  unfold at_rest in Hnot.
  destruct (has_error s); [destruct Hnot; by left|].
  destruct (is_complete s); [destruct Hnot; right; by left|]. done.
Qed.

Lemma next_extend s tok s1 :
  next s = Done (Some tok, s1) →
  next (extend rest s) = Done (Some tok, extend rest s1).
Proof.
  unfold next. destruct (acquire_token s) as [[b s']| |] eqn:E; [|done..].
  cbn [bind]. destruct b; [|done]. intros [= Htok <-].
  rewrite (acquire_token_extend _ _ _ E); [|by right].
  cbn [bind]. unfold token. cbn. by rewrite Htok.
Qed.

(** A [next] whose result is dropped, after a [peek]. *)
Lemma next_extend_at_rest s tok s1 :
  at_rest s →
  next s = Done (tok, s1) →
  next (extend rest s) = Done (tok, extend rest s1).
Proof.
  intros Hrest. rewrite !next_idle by done.
  change (has_error (extend rest s)) with (has_error s).
  change (is_complete (extend rest s)) with (is_complete s).
  change (has_token (extend rest s)) with (has_token s).
  destruct (negb (has_error s || is_complete s) && has_token s);
    by intros [= <- <-].
Qed.

Lemma peek_at_rest s tok s1 : peek s = Done (tok, s1) → at_rest s1.
Proof. intros H. by apply peek_spec in H as (_ & ? & _). Qed.

Section Overloads.

Import Deserializer ParseResult.
Variable parse : TokenStream.t → Parsed JValue.
Hypothesis parse_ignores_rest : ignores_rest rest parse.

Lemma parse_json_value_extend T : ignores_rest rest (parse_json_value T).
Proof.
  intros s v s1. unfold parse_json_value.
  destruct (next s) as [[[t|] s']| |] eqn:E; cbn [bind]; try done.
  - rewrite (next_extend _ _ _ E). cbn [bind].
    change (get_path (extend rest s')) with (get_path s').
    by intros [= -> <-].
  - unfold no_token. by destruct (m_error s').
Qed.

Lemma parse_optional_extend : ignores_rest rest (parse_optional parse).
Proof.
  intros s v s1. unfold parse_optional.
  destruct (peek s) as [[[t|] s']| |] eqn:E; cbn [bind]; try done.
  - rewrite (peek_extend _ _ _ E). cbn [bind].
    destruct (Token.is_of_type TokenType.Null t).
    + destruct (next s') as [[x s'']| |] eqn:En; cbn [bind]; try done.
      rewrite (next_extend_at_rest _ _ _ (peek_at_rest _ _ _ E) En).
      by intros [= <- <-].
    + destruct (parse s') as [[[x|ty e] s'']| |] eqn:Ep; cbn [bind];
        try done.
      rewrite (parse_ignores_rest _ _ _ Ep). by intros [= <- <-].
  - unfold no_token. by destruct (m_error s').
Qed.

Lemma array_loop_extend n k acc : ignores_rest rest (array_loop parse n k acc).
Proof.
  revert acc. induction n as [|n IH]; intros acc s v s1; [done|].
  cbn [array_loop].
  destruct (peek s) as [[[t|] s']| |] eqn:E; cbn [bind]; try done.
  - rewrite (peek_extend _ _ _ E). cbn [bind].
    destruct (Token.is_of_type TokenType.EndArray t).
    + destruct (next s') as [[x s'']| |] eqn:En; cbn [bind]; try done.
      rewrite (next_extend_at_rest _ _ _ (peek_at_rest _ _ _ E) En).
      by intros [= <- <-].
    + destruct (parse s') as [[[x|ty e] s'']| |] eqn:Ep; cbn [bind];
        try done.
      rewrite (parse_ignores_rest _ _ _ Ep). cbn [bind]. apply IH.
  - unfold no_token. by destruct (m_error s').
Qed.

Lemma parse_array_like_extend n k :
  ignores_rest rest (parse_array_like parse n k).
Proof.
  intros s v s1. unfold parse_array_like.
  destruct (next s) as [[[t|] s']| |] eqn:E; cbn [bind]; try done.
  - rewrite (next_extend _ _ _ E). cbn [bind].
    destruct (negb (Token.is_of_type TokenType.StartArray t)); [done|].
    apply array_loop_extend.
  - unfold no_token. by destruct (m_error s').
Qed.

Lemma dict_loop_extend n k acc : ignores_rest rest (dict_loop parse n k acc).
Proof.
  revert acc. induction n as [|n IH]; intros acc s v s1; [done|].
  cbn [dict_loop].
  destruct (next s) as [[[t|] s']| |] eqn:E; cbn [bind]; try done.
  - rewrite (next_extend _ _ _ E). cbn [bind].
    destruct t; try done.
    + destruct (parse s') as [[[x|ty e] s'']| |] eqn:Ep; cbn [bind];
        try done.
      rewrite (parse_ignores_rest _ _ _ Ep). cbn [bind]. apply IH.
    + by intros [= <- <-].
  - unfold no_token. by destruct (m_error s').
Qed.

Lemma parse_dict_like_extend n k :
  ignores_rest rest (parse_dict_like parse n k).
Proof.
  intros s v s1. unfold parse_dict_like.
  destruct (next s) as [[[t|] s']| |] eqn:E; cbn [bind]; try done.
  - rewrite (next_extend _ _ _ E). cbn [bind].
    destruct (negb (Token.is_of_type TokenType.StartObject t)); [done|].
    apply dict_loop_extend.
  - unfold no_token. by destruct (m_error s').
Qed.

End Overloads.

Section Helper.

Import DeserializationHelper ParseResult.
Variable parse : JType → TokenStream.t → Deserializer.Parsed JValue.
Hypothesis parse_ignores_rest : ∀ T, ignores_rest rest (parse T).

Lemma object_loop_extend n map s fields object u s1 fields1 object1 :
  object_loop parse n map s fields object
  = Done (Ok u, s1, fields1, object1) →
  object_loop parse n map (extend rest s) fields object
  = Done (Ok u, extend rest s1, fields1, object1).
Proof.
  revert s fields object. induction n as [|n IH]; intros s fields object;
    [done|].
  cbn [object_loop].
  destruct (next s) as [[[t|] s']| |] eqn:E; cbn [bind]; try done.
  - rewrite (next_extend _ _ _ E). cbn [bind].
    change (get_path (extend rest s')) with (get_path s').
    assert (∀ X Y : Helped,
              (X = Done (Ok u, s1, fields1, object1) →
               Y = Done (Ok u, extend rest s1, fields1, object1)) →
              (if Token.is_of_type TokenType.EndObject t
               then if forallb is_ready fields
                    then Done (result (), s', fields, object)
                    else match fields with
                         | [] => X
                         | _ :: _ =>
                             Done (parse_error (missing_keys_error fields)
                                     (get_path s'), s', fields, object)
                         end
               else X) = Done (Ok u, s1, fields1, object1) →
              (if Token.is_of_type TokenType.EndObject t
               then if forallb is_ready fields
                    then Done (result (), extend rest s', fields, object)
                    else match fields with
                         | [] => Y
                         | _ :: _ =>
                             Done (parse_error (missing_keys_error fields)
                                     (get_path s'), extend rest s', fields,
                                   object)
                         end
               else Y) = Done (Ok u, extend rest s1, fields1, object1))
      as Hshape.
    { intros X Y HXY.
      destruct (Token.is_of_type TokenType.EndObject t); [|done].
      destruct (forallb is_ready fields); [by intros [= <- <- <- <-]|].
      destruct fields; done. }
    apply Hshape. clear Hshape.
    destruct t; try done.
    destruct (map !! value) as [index|]; [|done].
    rewrite !parse_field_unfold.
    destruct (fields !! index) as [field|]; [|done].
    destruct (is_set field); [done|].
    destruct (parse (type field) s') as [[[x|ty e] s'']| |] eqn:Ep;
      cbn [bind]; try done.
    rewrite (parse_ignores_rest _ _ _ _ Ep). cbn [bind]. apply IH.
  - unfold Deserializer.no_token. by destruct (m_error s').
Qed.

Lemma json_parse_extend n members :
  ignores_rest rest (json_parse parse n members).
Proof.
  intros s v s1. unfold json_parse, parse_object.
  destruct (next s) as [[[t|] s']| |] eqn:E; cbn [bind]; try done.
  - rewrite (next_extend _ _ _ E). cbn [bind].
    destruct (negb (Token.is_of_type TokenType.StartObject t)); [done|].
    destruct (object_loop parse n (build_fields_map (fields_of members)) s'
                (fields_of members)
                (map (λ member, default_value member.2) members))
      as [[[[[[]|ty e] s''] fields1] object1]| |] eqn:El; cbn [bind];
      try done.
    rewrite (object_loop_extend _ _ _ _ _ _ _ _ _ El). cbn [bind].
    by intros [= <- <-].
  - unfold Deserializer.no_token. by destruct (m_error s').
Qed.

End Helper.

Lemma Deserializer_parse_extend fuel T :
  ignores_rest rest (Deserializer_parse fuel T).
Proof.
  revert T. induction fuel as [|fuel IH]; intros T; [done|].
  destruct T; cbn [Deserializer_parse].
  - apply parse_json_value_extend.
  - by apply parse_optional_extend.
  - by apply parse_array_like_extend.
  - by apply parse_dict_like_extend.
  - by apply json_parse_extend.
Qed.

End Extend.

(** C9: trailing text is not ignored for every target type.  On the
    text [42 true] the tokenizer hands over [42] and reports the
    trailing text in the same call.  [parse<int>] returns 42, but
    [parse<std::optional<int>>], which returns 42 on the text [42],
    fails with the tokenizer's error: the overload for optionals peeks
    the token, and the [next] of the overload for values then returns
    nothing, because [acquire_token] gives up as soon as an error is
    recorded although the handler still holds the token (the defect
    of C8). *)
Theorem optional_scalar_rejects_trailing_text :
  let code :=
    Reader.mkCode false
      "The document root must not be followed by other values." in
  let text :=
    [Reader.mkAnswer (Some (Tokenizer.number 42)) (Some code) true] in
  Json.parse 2 (Optional (Value (integer_t int))) text
  = Done (ParseResult.Err ParseResult.JSON_ERROR
            (ParseResult.mkError
               "The document root must not be followed by other values."
               (Some "root")))
  ∧ Json.parse 2 (Optional (Value (integer_t int)))
      (Tokenizer.document [Tokenizer.number 42])
    = Done (ParseResult.Ok (VOptional (Some (VInteger 42))))
  ∧ Json.parse 1 (Value (integer_t int)) text
    = Done (ParseResult.Ok (VInteger 42)).
Proof. repeat split; vm_compute; reflexivity. Qed.

(** X23: a parse looks at nothing beyond what it consumes.  Whenever
    the public [parse] returns [Ok] with a value on the answers that
    the tokenizer gives for a text, it returns [Ok] with the same value
    when the tokenizer has any further answers to give after those.
    And [parse<int>] returns 42 as soon as the first pull hands over
    the number, whatever error is reported in that pull and whatever
    is answered later. *)
Theorem parse_ignores_what_follows fuel T json rest v :
  Json.parse fuel T json = Done (ParseResult.Ok v) →
  Json.parse fuel T (json ++ rest) = Done (ParseResult.Ok v)
  ∧ ∀ failure completes more,
      Json.parse 1 (Value (integer_t int))
        (Reader.mkAnswer (Some (Tokenizer.number 42)) failure completes
         :: more)
      = Done (ParseResult.Ok (VInteger 42)).
Proof.
  intros H. split.
  - unfold Json.parse in *.
    destruct (Deserializer_parse fuel T (TokenStream.ContextTokenStream json))
      as [[[x|ty e] s1]| |] eqn:E; cbn [bind] in H; try done.
    injection H as ->.
    change (TokenStream.ContextTokenStream (json ++ rest))
      with (extend rest (TokenStream.ContextTokenStream json)).
    by rewrite (Deserializer_parse_extend rest _ _ _ _ _ E).
  - intros [code|] completes more; reflexivity.
Qed.

Lemma parse_ignores_what_follows_witness :
  Json.parse 3 (ArrayLike std_vector (Value (integer_t int)))
    (Tokenizer.document
       [Token.StartArrayToken; Tokenizer.number 1; Token.EndArrayToken 1]
     ++ Tokenizer.document [Token.BoolToken true])
  = Done (ParseResult.Ok (VArray std_vector [VInteger 1])).
Proof.
  exact (proj1 (parse_ignores_what_follows 3
                  (ArrayLike std_vector (Value (integer_t int)))
                  (Tokenizer.document
                     [Token.StartArrayToken; Tokenizer.number 1;
                      Token.EndArrayToken 1])
                  (Tokenizer.document [Token.BoolToken true])
                  (VArray std_vector [VInteger 1]) eq_refl)).
Defined.

(** ** The path and the structural location *)

Lemma path_after_app tokens1 tokens2 path :
  path_after (tokens1 ++ tokens2) path
  = path_after tokens1 path ≫= path_after tokens2.
Proof.
  revert path. induction tokens1 as [|t tokens1 IH]; intros path; [done|].
  cbn. destruct (TokenStream.on_advance t path); [apply IH|done].
Qed.

Lemma render_app path1 path2 :
  Path.render (path1 ++ path2)
  = Path.render path1
    +:+ String.concat "" (map Path.render_component path2).
Proof.
  unfold Path.render. rewrite fold_left_app.
  generalize (fold_left (λ result c, result +:+ Path.render_component c)
                path1 "root").
  induction path2 as [|c path2 IH]; intros acc; cbn [fold_left map].
  - by rewrite append_nil_r.
  - by rewrite IH, concat_cons, append_assoc.
Qed.

Lemma render_location_app location1 location2 :
  render_location (location1 ++ location2)
  = render_location location1
    +:+ String.concat "" (map render_step location2).
Proof.
  unfold render_location. rewrite fold_left_app.
  generalize (fold_left (λ result step, result +:+ render_step step)
                location1 "root").
  induction location2 as [|c location2 IH]; intros acc; cbn [fold_left map].
  - by rewrite append_nil_r.
  - by rewrite IH, concat_cons, append_assoc.
Qed.

Lemma scalar_event_advance token path :
  scalar_event token = true →
  TokenStream.on_advance token path = Some (Path.value path).
Proof. by destruct token. Qed.

(** Along the events of a whole value the path comes back to where it
    was, advanced if it ends in an array. *)
Lemma path_after_elements (elements : list Document) path index :
  Forall (λ d, ∀ path, path_after (events_of d) path
                       = Some (Path.advance_array_if_needed path)) elements →
  path_after (concat (map events_of elements)) (path ++ [Path.Array index])
  = Some (path ++ [Path.Array (index + Z.of_nat (length elements))]).
Proof.
  intros H. revert index. induction H as [|d elements Hd _ IH]; intros index.
  - cbn. by rewrite Z.add_0_r.
  - cbn [map concat]. rewrite path_after_app, Hd. cbn.
    rewrite advance_array_snoc_array, IH. do 4 f_equal.
    cbn [length]. lia.
Qed.

Lemma path_after_members (members : list (string * Document)) path key :
  Forall (λ m, ∀ path, path_after (events_of m.2) path
                       = Some (Path.advance_array_if_needed path)) members →
  path_after
    (concat (map (λ m, Token.KeyToken m.1 :: events_of m.2) members))
    (path ++ [Path.Object key])
  = Some (path ++ [Path.Object (default key (Some <$> last members.*1))]).
Proof.
  intros H. revert key. induction H as [|m members Hm _ IH]; intros key.
  - done.
  - cbn [map concat]. rewrite path_after_app. cbn [path_after].
    cbn [TokenStream.on_advance]. rewrite key_snoc_object.
    rewrite Hm. cbn. rewrite advance_array_snoc_object, IH.
    do 3 f_equal.
    destruct members as [|m' members]; [done|].
    cbn [fmap list_fmap]. rewrite last_cons_cons.
    destruct (last _) eqn:E; [done|]. by apply last_None in E.
Qed.

Lemma path_after_events d :
  well_formed d = true →
  ∀ path,
    path_after (events_of d) path = Some (Path.advance_array_if_needed path).
Proof.
  induction d using Document_nested_ind; intros Hwf path.
  - cbn in Hwf |- *. by rewrite scalar_event_advance.
  - cbn [events_of path_after TokenStream.on_advance].
    rewrite path_after_app. unfold Path.start_array.
    rewrite path_after_elements.
    + cbn. by rewrite pop_back_snoc.
    + cbn in Hwf. rewrite forallb_forall in Hwf.
      rewrite Forall_forall in H |- *. intros d Hd. apply H; [done|].
      apply Hwf. by apply list_elem_of_In.
  - cbn [events_of path_after TokenStream.on_advance].
    rewrite path_after_app. unfold Path.start_object.
    rewrite path_after_members.
    + cbn. by rewrite pop_back_snoc.
    + cbn in Hwf. rewrite forallb_forall in Hwf.
      rewrite Forall_forall in H |- *. intros m Hm. apply H; [done|].
      apply (Hwf m). by apply list_elem_of_In.
Qed.

Lemma well_formed_element elements index e :
  well_formed (ArrayOf elements) = true → elements !! index = Some e →
  well_formed e = true
  ∧ Forall (λ d, ∀ path, path_after (events_of d) path
                         = Some (Path.advance_array_if_needed path))
      (take index elements).
Proof.
  cbn. rewrite forallb_forall. intros Hwf He. split.
  - apply Hwf. apply list_elem_of_In. by eapply list_elem_of_lookup_2.
  - apply Forall_forall. intros d Hd. apply path_after_events.
    apply Hwf. apply list_elem_of_In. by eapply subseteq_take.
Qed.

Lemma well_formed_member (members : list (string * Document)) i m :
  well_formed (ObjectOf members) = true → members !! i = Some m →
  well_formed m.2 = true
  ∧ Forall (λ m, ∀ path, path_after (events_of m.2) path
                         = Some (Path.advance_array_if_needed path))
      (take i members).
Proof.
  cbn. rewrite forallb_forall. intros Hwf He. split.
  - apply (Hwf m). apply list_elem_of_In. by eapply list_elem_of_lookup_2.
  - apply Forall_forall. intros d Hd. apply path_after_events.
    apply (Hwf d). apply list_elem_of_In. by eapply subseteq_take.
Qed.

(** The path tracker follows the structure: once the events before a
    value are pulled, the path, advanced if it ends in an array, renders
    as the location of the value. *)
Lemma path_after_location d location before sub :
  at_location d location before sub →
  well_formed d = true →
  ∀ path, ∃ path',
    path_after before path = Some path'
    ∧ well_formed sub = true
    ∧ Path.render (Path.advance_array_if_needed path')
      = Path.render (Path.advance_array_if_needed path)
        +:+ String.concat "" (map render_step location).
Proof.
  induction 1 as [d|elements index e location before sub He _ IH
                  |members i key m location before sub Hm _ IH];
    intros Hwf path.
  - exists path. split; [done|]. split; [done|]. cbn. by rewrite append_nil_r.
  - destruct (well_formed_element _ _ _ Hwf He) as [Hwfe Hbefore].
    destruct (IH Hwfe (Path.advance_array_if_needed path
                       ++ [Path.Array (-1 + Z.of_nat index)]))
      as (path' & Hpath' & Hsub & Hrender).
    exists path'. split; [|split; [done|]].
    + cbn [path_after TokenStream.on_advance]. rewrite path_after_app.
      unfold Path.start_array. rewrite path_after_elements by done. cbn.
      rewrite length_take_le; [done|].
      apply lookup_lt_Some in He. lia.
    + rewrite Hrender, advance_array_snoc_array, render_app.
      cbn [map]. rewrite concat_cons, !append_assoc. f_equal.
      cbn [Path.render_component render_step].
      replace (-1 + Z.of_nat index + 1) with (Z.of_nat index) by lia.
      destruct (Z.of_nat index =? -1) eqn:E; [apply Z.eqb_eq in E; lia|].
      rewrite concat_cons. reflexivity.
  - destruct (well_formed_member _ _ _ Hwf Hm) as [Hwfm Hbefore].
    destruct (IH Hwfm (Path.advance_array_if_needed path
                       ++ [Path.Object (Some key)]))
      as (path' & Hpath' & Hsub & Hrender).
    exists path'. split; [|split; [done|]].
    + cbn [path_after TokenStream.on_advance]. rewrite path_after_app.
      unfold Path.start_object. rewrite path_after_members by done.
      cbn [mbind option_bind path_after TokenStream.on_advance].
      by rewrite key_snoc_object.
    + rewrite Hrender, advance_array_snoc_object, render_app.
      cbn [map]. rewrite concat_cons, !append_assoc. f_equal.
      rewrite concat_cons. reflexivity.
Qed.

Lemma first_event_advance sub path :
  well_formed sub = true →
  ∃ path',
    TokenStream.on_advance (first_event sub) path = Some path'
    ∧ Path.render path' = Path.render (Path.advance_array_if_needed path).
Proof.
  destruct sub; cbn; intros Hwf.
  - rewrite scalar_event_advance by done. by eexists.
  - eexists. split; [done|]. unfold Path.start_array.
    rewrite render_app. cbn. by rewrite append_nil_r.
  - eexists. split; [done|]. unfold Path.start_object.
    rewrite render_app. cbn. by rewrite append_nil_r.
Qed.

(** A first event that the target rejects gives a parse error at the
    path of the cursor that has just pulled it. *)
Lemma rejected_at_path T :
  ∀ fuel token path complete answers,
    rejects T token = true →
    (optionals T < fuel)%nat →
    ∃ message,
      Deserializer_parse fuel T (primed token path answers complete)
      = Done (ParseResult.Err ParseResult.PARSE_ERROR
                (ParseResult.mkError message (Some (Path.render path))),
              fresh path answers complete)
      ∨ Deserializer_parse fuel T (primed token path answers complete)
        = Done (ParseResult.Err ParseResult.PARSE_ERROR
                  (ParseResult.mkError message (Some (Path.render path))),
                primed token path answers complete).
Proof.
  induction T as [V|T IH|k T _|k T _|fields];
    intros [|fuel] token path complete answers Hrej Hfuel;
    try (cbn in Hfuel; lia); cbn [Deserializer_parse].
  - unfold Deserializer.parse_json_value. rewrite next_primed. cbn [bind].
    change (TokenStream.get_path (fresh path answers complete))
      with (Some (Path.render path)).
    assert (∀ p, ∃ message,
              Deserializer.parse_value V token p
              = ParseResult.Err ParseResult.PARSE_ERROR
                  (ParseResult.mkError message p)) as Herr.
    { intros p. cbn [rejects] in Hrej.
      destruct V as [|R|F|], token; cbn in Hrej |- *;
        try discriminate Hrej; try (by eexists);
        destruct (in_range R _ _); (discriminate Hrej || by eexists). }
    destruct (Herr (Some (Path.render path))) as [message ->].
    exists message. by left.
  - unfold Deserializer.parse_optional. rewrite peek_primed. cbn [bind].
    cbn in Hrej. apply andb_true_iff in Hrej as [Hnull Hrej].
    apply negb_true_iff in Hnull. rewrite Hnull.
    destruct (IH fuel token path complete answers Hrej
                ltac:(cbn in Hfuel; lia)) as [message [-> | ->]];
      exists message; [by left|by right].
  - unfold Deserializer.parse_array_like. rewrite next_primed. cbn [bind].
    cbn in Hrej. rewrite Hrej. eexists. by left.
  - unfold Deserializer.parse_dict_like. rewrite next_primed. cbn [bind].
    cbn in Hrej. rewrite Hrej. eexists. by left.
  - unfold DeserializationHelper.json_parse,
      DeserializationHelper.parse_object.
    rewrite next_primed. cbn [bind]. cbn in Hrej. rewrite Hrej.
    eexists. by left.
Qed.

(** C7: the path of a type-mismatch error is the full structural
    location.  Take any value [sub] inside a well-formed document, at the
    location given by the keys and indices that lead to it.  Once the
    cursor has pulled the events before [sub], a parse of a target type
    that rejects the first event of [sub] fails with a parse error whose
    path is the rendering of that location: [root], then [.key] for each
    object key and [[index]] for each array index.  In particular
    [{"items":[{"n": true}]}], where [items[0].n] expects an integer,
    gives a parse error with path [root.items[0].n]. *)
Theorem error_path_is_location d location before sub T :
  well_formed d = true →
  at_location d location before sub →
  rejects T (first_event sub) = true →
  (∃ path,
     path_after before Path.empty = Some path
     ∧ ∀ fuel completes answers,
         (optionals T < fuel)%nat →
         ∃ message tokens',
           Deserializer_parse fuel T
             (fresh path
                (Reader.deliver (first_event sub) completes :: answers)
                false)
           = Done (ParseResult.Err ParseResult.PARSE_ERROR
                     (ParseResult.mkError message
                        (Some (render_location location))),
                   tokens'))
  ∧ Json.parse 5
      (Class [("items",
               ArrayLike std_vector (Class [("n", Value (integer_t int))]))])
      (Tokenizer.document
         (events_of
            (ObjectOf
               [("items",
                 ArrayOf [ObjectOf [("n", Scalar (Token.BoolToken true))]])])))
    = Done (ParseResult.Err ParseResult.PARSE_ERROR
              (ParseResult.mkError "Unexpected bool"
                 (Some "root.items[0].n"))).
Proof.
  intros Hwf Hat Hrej. split; [|vm_compute; reflexivity].
  destruct (path_after_location _ _ _ _ Hat Hwf Path.empty)
    as (path & Hpath & Hsub & Hrender).
  exists path. split; [done|]. intros fuel completes answers Hfuel.
  destruct (first_event_advance sub path Hsub) as (path' & Hadv & Hrender').
  rewrite (parse_fresh _ _ _ _ _ _ _ Hadv).
  assert (Path.render path' = render_location location) as Hloc.
  { rewrite Hrender', Hrender.
    change location with ([] ++ location) at 2.
    by rewrite render_location_app. }
  destruct (rejected_at_path T fuel (first_event sub) path' completes answers
              Hrej Hfuel) as [message [H|H]];
    rewrite H, Hloc; by do 2 eexists.
Qed.

Lemma error_path_is_location_witness :
  ∃ path,
    path_after
      [Token.StartObjectToken; Token.KeyToken "items";
       Token.StartArrayToken; Token.StartObjectToken; Token.KeyToken "n"]
      Path.empty = Some path
    ∧ ∀ fuel completes answers,
        (0 < fuel)%nat →
        ∃ message tokens',
          Deserializer_parse fuel (Value (integer_t int))
            (fresh path
               (Reader.deliver (Token.BoolToken true) completes :: answers)
               false)
          = Done (ParseResult.Err ParseResult.PARSE_ERROR
                    (ParseResult.mkError message (Some "root.items[0].n")),
                  tokens').
Proof.
  refine (proj1 (error_path_is_location
                   (ObjectOf
                      [("items",
                        ArrayOf
                          [ObjectOf [("n", Scalar (Token.BoolToken true))]])])
                   [Member "items"; Element 0; Member "n"] _
                   (Scalar (Token.BoolToken true))
                   (Value (integer_t int)) eq_refl _ eq_refl)).
  refine (at_member
            [("items",
              ArrayOf [ObjectOf [("n", Scalar (Token.BoolToken true))]])]
            0 "items" _ _ _ _ eq_refl _).
  refine (at_element [ObjectOf [("n", Scalar (Token.BoolToken true))]]
            0 _ _ _ _ eq_refl _).
  refine (at_member [("n", Scalar (Token.BoolToken true))]
            0 "n" _ _ _ _ eq_refl _).
  apply at_root.
Defined.

(* ===================================================================== *)
(** * Further properties of the library                                   *)
(* ===================================================================== *)

(** ** The six comparisons *)

Lemma cmp_equal_exact T U t u :
  representable T t → representable U u →
  cmp_equal T U t u = (t =? u).
Proof.
  intros Ht Hu. unfold cmp_equal.
  destruct (Bool.eqb (is_signed T) (is_signed U)) eqn:E; [done|].
  destruct (is_signed T) eqn:ET.
  - destruct (is_signed U) eqn:EU; [done|].
    destruct (t <? 0) eqn:E0.
    + symmetry. apply Z.eqb_neq.
      assert (0 <= u); [|lia].
      unfold representable, numeric_limits_min in Hu.
      rewrite EU in Hu. lia.
    + rewrite make_unsigned_nonneg; [done|done|lia].
  - destruct (is_signed U) eqn:EU; [|done].
    destruct (u <? 0) eqn:E0.
    + symmetry. apply Z.eqb_neq.
      assert (0 <= t); [|lia].
      unfold representable, numeric_limits_min in Ht.
      rewrite ET in Ht. lia.
    + rewrite make_unsigned_nonneg; [done|done|lia].
Qed.

(** X1: on operands that their types can hold, each of the six comparisons
    of detail/TypeUtils.hpp is the comparison of the mathematical
    values, whatever the signedness and the width of either side: no
    operand is ever converted to a type that changes its value. *)
Theorem comparisons_are_exact T U t u :
  representable T t → representable U u →
  cmp_equal T U t u = (t =? u)
  ∧ cmp_not_equal T U t u = negb (t =? u)
  ∧ cmp_less T U t u = (t <? u)
  ∧ cmp_greater T U t u = (u <? t)
  ∧ cmp_less_equal T U t u = (t <=? u)
  ∧ cmp_greater_equal T U t u = (u <=? t).
Proof.
  intros Ht Hu.
  unfold cmp_not_equal, cmp_less_equal, cmp_greater_equal, cmp_greater.
  rewrite cmp_equal_exact, !cmp_less_exact by done.
  repeat split; try done; symmetry; apply Z.leb_antisym.
Qed.

Lemma comparisons_are_exact_witness :
  cmp_equal int unsigned (-1) 4294967295 = false
  ∧ cmp_less int unsigned (-1) 1 = true
  ∧ cmp_greater_equal uint64_t int8_t 18446744073709551615 (-128) = true.
Proof.
  assert (representable int (-1)) as H1 by (unfold representable; cbn; lia).
  assert (representable unsigned 4294967295) as H2
    by (unfold representable; cbn; lia).
  assert (representable unsigned 1) as H3 by (unfold representable; cbn; lia).
  assert (representable uint64_t 18446744073709551615) as H4
    by (unfold representable; cbn; lia).
  assert (representable int8_t (-128)) as H5
    by (unfold representable; cbn; lia).
  split; [exact (proj1 (comparisons_are_exact int unsigned _ _ H1 H2))|].
  split.
  - exact (proj1 (proj2 (proj2 (comparisons_are_exact int unsigned _ _ H1 H3)))).
  - exact (proj2 (proj2 (proj2 (proj2 (proj2
             (comparisons_are_exact uint64_t int8_t _ _ H4 H5)))))).
Defined.

(** ** What an error reports *)

Section Reports.

Import TokenStream ParseResult Deserializer.

Lemma acquire_token_context s b s' :
  acquire_token s = Done (b, s') → context s' = context s.
Proof.
  unfold acquire_token.
  destruct (has_error s || is_complete s).
  { by intros [= <- <-]. }
  destruct (has_token s); cbn [bind].
  { by intros [= <- <-]. }
  unfold advance.
  destruct (Reader.IterativeParseNext (m_reader s)) as [[token result] r].
  destruct result as [code|]; cbn [bind].
  { by intros [= <- <-]. }
  destruct (match token with Some _ => token | None => m_handler s end)
    as [tok|]; cbn.
  - destruct (context s) eqn:Hc.
    + destruct (on_advance tok (m_path s)); cbn; [|done].
      by intros [= <- <-].
    + by intros [= <- <-].
  - by intros [= <- <-].
Qed.

Lemma peek_context s tok s' : peek s = Done (tok, s') → context s' = context s.
Proof.
  unfold peek. destruct (acquire_token s) as [[b s1]| |] eqn:E; [|done..].
  cbn. intros [= <- <-]. by eapply acquire_token_context.
Qed.

Lemma next_context s tok s' : next s = Done (tok, s') → context s' = context s.
Proof.
  unfold next. destruct (acquire_token s) as [[b s1]| |] eqn:E; [|done..].
  cbn. apply acquire_token_context in E.
  destruct b; intros [= <- <-]; done.
Qed.

Lemma no_token_reports {A : Type} s error_type e :
  @no_token A s = Err error_type e →
  path e = get_path s
  ∧ (error_type = JSON_ERROR → m_error s = Some (error e)).
Proof.
  unfold no_token. destruct (m_error s) as [msg|]; intros [= <- <-]; done.
Qed.

Lemma parse_value_reports V token p error_type e :
  parse_value V token p = Err error_type e →
  error_type = PARSE_ERROR ∧ path e = p
  ∧ (error e = "Integer value not in range"
     ∨ error e = "Unexpected " +:+ Token.name token).
Proof.
  unfold parse_value.
  destruct token; cbn [parse_value_impl Token.is_of_type Token.type];
    repeat (rewrite bool_decide_eq_false_2 by done; cbn [negb]);
    try rewrite bool_decide_eq_true_2 by done; cbn [negb];
    try (intros [= <- <-]; by auto).
  all: destruct V as [|R|F|]; cbn [convert Token.integer_value];
    try (intros [= <- <-]; by auto); try done.
  all: destruct (in_range _ _ _); try done; intros [= <- <-]; by auto.
Qed.

Section Overloads.

Variable parse : TokenStream.t → Parsed JValue.
Hypothesis parse_reports : reports parse.

Lemma parse_json_value_reports V : reports (parse_json_value V).
Proof.
  intros s r s'. unfold parse_json_value.
  destruct (next s) as [[[token|] s1]| |] eqn:E; cbn [bind]; [| |done..];
    intros [= <- <-]; (split; [by eapply next_context|]);
    intros error_type e He.
  - apply parse_value_reports in He as (-> & -> & _). done.
  - by apply no_token_reports in He.
Qed.

Lemma parse_optional_reports : reports (parse_optional parse).
Proof.
  intros s r s'. unfold parse_optional.
  destruct (peek s) as [[[token|] s1]| |] eqn:E; cbn [bind]; [| |done..].
  - apply peek_context in E.
    destruct (Token.is_of_type TokenType.Null token).
    + destruct (next s1) as [[tok s2]| |] eqn:E2; cbn [bind]; [|done..].
      intros [= <- <-]. apply next_context in E2.
      split; [congruence|done].
    + destruct (parse s1) as [[[v|ty e] s2]| |] eqn:E2; cbn [bind];
        [| |done..]; intros [= <- <-];
        destruct (parse_reports _ _ _ E2) as [Hc He];
        (split; [congruence|]); [done|].
      intros error_type e' [= <- <-]. by apply He.
  - intros [= <- <-]. split; [by eapply peek_context|].
    intros error_type e He. by apply no_token_reports in He.
Qed.

Lemma array_loop_reports n k acc : reports (array_loop parse n k acc).
Proof.
  revert acc. induction n as [|n IH]; intros acc s r s'; [done|].
  cbn [array_loop].
  destruct (peek s) as [[[token|] s1]| |] eqn:E; cbn [bind]; [| |done..].
  - apply peek_context in E.
    destruct (Token.is_of_type TokenType.EndArray token).
    + destruct (next s1) as [[tok s2]| |] eqn:E2; cbn [bind]; [|done..].
      intros [= <- <-]. apply next_context in E2.
      split; [congruence|done].
    + destruct (parse s1) as [[[v|ty e] s2]| |] eqn:E2; cbn [bind];
        [| |done..]; destruct (parse_reports _ _ _ E2) as [Hc He].
      * intros H. destruct (IH _ _ _ _ H) as [Hc' He'].
        split; [congruence|done].
      * intros [= <- <-]. split; [congruence|].
        intros error_type e' [= <- <-]. by apply He.
  - intros [= <- <-]. split; [by eapply peek_context|].
    intros error_type e He. by apply no_token_reports in He.
Qed.

Lemma parse_array_like_reports n k : reports (parse_array_like parse n k).
Proof.
  intros s r s'. unfold parse_array_like.
  destruct (next s) as [[[token|] s1]| |] eqn:E; cbn [bind]; [| |done..].
  - apply next_context in E.
    destruct (negb (Token.is_of_type TokenType.StartArray token)).
    + intros [= <- <-]. split; [done|]. by intros error_type e [= <- <-].
    + intros H. destruct (array_loop_reports _ _ _ _ _ _ H) as [Hc He].
      split; [congruence|done].
  - intros [= <- <-]. split; [by eapply next_context|].
    intros error_type e He. by apply no_token_reports in He.
Qed.

Lemma dict_loop_reports n k acc : reports (dict_loop parse n k acc).
Proof.
  revert acc. induction n as [|n IH]; intros acc s r s'; [done|].
  cbn [dict_loop].
  destruct (next s) as [[[token|] s1]| |] eqn:E; cbn [bind]; [| |done..].
  - apply next_context in E.
    destruct token;
      try (intros [= <- <-]; split; [done|];
           by intros error_type e [= <- <-]).
    destruct (parse s1) as [[[v|ty e] s2]| |] eqn:E2; cbn [bind];
      [| |done..]; destruct (parse_reports _ _ _ E2) as [Hc He].
    + intros H. destruct (IH _ _ _ _ H) as [Hc' He'].
      split; [congruence|done].
    + intros [= <- <-]. split; [congruence|].
      intros error_type e' [= <- <-]. by apply He.
  - intros [= <- <-]. split; [by eapply next_context|].
    intros error_type e He. by apply no_token_reports in He.
Qed.

Lemma parse_dict_like_reports n k : reports (parse_dict_like parse n k).
Proof.
  intros s r s'. unfold parse_dict_like.
  destruct (next s) as [[[token|] s1]| |] eqn:E; cbn [bind]; [| |done..].
  - apply next_context in E.
    destruct (negb (Token.is_of_type TokenType.StartObject token)).
    + intros [= <- <-]. split; [done|]. by intros error_type e [= <- <-].
    + intros H. destruct (dict_loop_reports _ _ _ _ _ _ H) as [Hc He].
      split; [congruence|done].
  - intros [= <- <-]. split; [by eapply next_context|].
    intros error_type e He. by apply no_token_reports in He.
Qed.

End Overloads.

Section Helper.

Import DeserializationHelper.
Variable parse : JType → TokenStream.t → Parsed JValue.
Hypothesis parse_reports : ∀ T, reports (parse T).

Lemma object_loop_reports n map s fields object r s' fields' object' :
  object_loop parse n map s fields object = Done (r, s', fields', object') →
  context s' = context s
  ∧ ∀ error_type e, r = Err error_type e →
      path e = get_path s'
      ∧ (error_type = JSON_ERROR → m_error s' = Some (error e)).
Proof.
  revert s fields object. induction n as [|n IH]; intros s fields object;
    [done|].
  cbn [object_loop].
  destruct (next s) as [[[token|] s1]| |] eqn:E; cbn [bind]; [| |done..].
  - apply next_context in E.
    destruct token;
      try (change (Token.is_of_type TokenType.EndObject _) with false;
           cbn match; intros [= <- <- <- <-]; split; [done|];
           by intros error_type e [= <- <-]).
    + (* Key *)
      change (Token.is_of_type TokenType.EndObject _) with false. cbn match.
      destruct (map !! value) as [index|].
      * rewrite parse_field_unfold.
        destruct (fields !! index) as [field|]; [|done].
        destruct (is_set field).
        { cbn [bind]. intros [= <- <- <- <-]. split; [done|].
          by intros error_type e [= <- <-]. }
        destruct (parse (type field) s1) as [[[v|ty e] s2]| |] eqn:E2;
          cbn [bind]; [| |done..];
          destruct (parse_reports _ _ _ _ E2) as [Hc He].
        -- intros H. destruct (IH _ _ _ H) as [Hc' He'].
           split; [congruence|done].
        -- intros [= <- <- <- <-]. split; [congruence|].
           intros error_type e' [= <- <-]. by apply He.
      * intros [= <- <- <- <-]. split; [done|].
        by intros error_type e [= <- <-].
    + (* EndObject *)
      change (Token.is_of_type TokenType.EndObject _) with true. cbn match.
      destruct (forallb is_ready fields).
      * intros [= <- <- <- <-]. split; [done|]. done.
      * destruct fields; intros [= <- <- <- <-]; (split; [done|]);
          by intros error_type e [= <- <-].
  - intros [= <- <- <- <-]. split; [by eapply next_context|].
    intros error_type e He. by apply no_token_reports in He.
Qed.

Lemma json_parse_reports n members : reports (json_parse parse n members).
Proof.
  intros s r s'. unfold json_parse, parse_object.
  destruct (next s) as [[[token|] s1]| |] eqn:E; cbn [bind]; [| |done..].
  - apply next_context in E.
    destruct (negb (Token.is_of_type TokenType.StartObject token)).
    + cbn [bind]. intros [= <- <-]. split; [done|].
      by intros error_type e [= <- <-].
    + destruct (object_loop _ _ _ _ _ _) as [[[[u s2] fields2] object2]| |]
        eqn:E2; cbn [bind]; [|done..].
      destruct (object_loop_reports _ _ _ _ _ _ _ _ _ E2) as [Hc He].
      destruct u as [[]|ty e]; intros [= <- <-]; (split; [congruence|]);
        [done|].
      intros error_type e' [= <- <-]. by apply He.
  - cbn [bind]. apply next_context in E. unfold no_token.
    destruct (m_error s1) eqn:Em; cbn; intros [= <- <-]; (split; [done|]);
      intros error_type e [= <- <-]; cbn; by rewrite ?Em.
Qed.

End Helper.

Lemma Deserializer_parse_reports fuel T : reports (Deserializer_parse fuel T).
Proof.
  revert T. induction fuel as [|fuel IH]; intros T; [done|].
  destruct T; cbn [Deserializer_parse].
  - apply parse_json_value_reports.
  - by apply parse_optional_reports.
  - by apply parse_array_like_reports.
  - by apply parse_dict_like_reports.
  - by apply json_parse_reports.
Qed.

End Reports.

Lemma render_root path :
  Path.render path
  = "root" +:+ String.concat "" (map Path.render_component path).
Proof. exact (render_app [] path). Qed.

(** X2: for a target type built from scalars, optionals, array-like
    and dict-like containers and classes parsed with [parse_object]
    (a class with a conversion of its own, such as one written with
    [parse_from], whose errors may carry no path, is not among them),
    every error that the public [parse] returns carries a path, and the
    path starts with [root]; a parse of such a type over the plain
    [TokenStream], which does not track the path, returns its errors
    without one. *)
Theorem errors_carry_the_path fuel T json error_type e :
  (Json.parse fuel T json = Done (ParseResult.Err error_type e) →
   ∃ suffix, ParseResult.path e = Some ("root" +:+ suffix))
  ∧ (∀ s', Deserializer_parse fuel T (TokenStream.TokenStream json)
           = Done (ParseResult.Err error_type e, s') →
           ParseResult.path e = None).
Proof.
  split.
  - unfold Json.parse.
    destruct (Deserializer_parse fuel T _) as [[r s']| |] eqn:E;
      cbn [bind]; [|done..].
    intros [= ->].
    destruct (Deserializer_parse_reports _ _ _ _ _ E) as [Hc He].
    destruct (He _ _ eq_refl) as [-> _].
    unfold TokenStream.get_path. rewrite Hc. cbn.
    eexists. by rewrite render_root.
  - intros s' E.
    destruct (Deserializer_parse_reports _ _ _ _ _ E) as [Hc He].
    destruct (He _ _ eq_refl) as [-> _].
    unfold TokenStream.get_path. by rewrite Hc.
Qed.

Lemma errors_carry_the_path_witness :
  ∃ suffix,
    ParseResult.path (ParseResult.mkError "Unexpected bool" (Some "root[1]"))
    = Some ("root" +:+ suffix).
Proof.
  apply (proj1 (errors_carry_the_path 3
                  (ArrayLike std_vector (Value (integer_t int)))
                  (Tokenizer.document
                     [Token.StartArrayToken; Tokenizer.number 1;
                      Token.BoolToken true; Token.EndArrayToken 2])
                  ParseResult.PARSE_ERROR
                  (ParseResult.mkError "Unexpected bool" (Some "root[1]")))).
  vm_compute. reflexivity.
Defined.

(** X3: a JSON error is the tokenizer's: whenever [Deserializer::parse]
    returns one, its message is the error that the cursor has recorded
    and its path is the path at which the cursor stands. *)
Theorem json_error_is_the_tokenizers fuel T s e s' :
  Deserializer_parse fuel T s
  = Done (ParseResult.Err ParseResult.JSON_ERROR e, s') →
  TokenStream.m_error s' = Some (ParseResult.error e)
  ∧ ParseResult.path e = TokenStream.get_path s'.
Proof.
  intros E. destruct (Deserializer_parse_reports _ _ _ _ _ E) as [_ He].
  destruct (He _ _ eq_refl) as [Hp Hm]. split; [by apply Hm|done].
Qed.

Lemma json_error_is_the_tokenizers_witness :
  let code := Reader.mkCode false "Invalid value." in
  let s :=
    TokenStream.ContextTokenStream
      [Reader.deliver Token.StartArrayToken false;
       Reader.deliver (Tokenizer.number 1) false;
       Reader.mkAnswer None (Some code) false] in
  ∃ s', Deserializer_parse 3 (ArrayLike std_vector (Value (integer_t int))) s
        = Done (ParseResult.Err ParseResult.JSON_ERROR
                  (ParseResult.mkError "Invalid value." (Some "root[0]")), s')
        ∧ TokenStream.m_error s' = Some "Invalid value.".
Proof.
  eexists. split; [vm_compute; reflexivity|].
  exact (proj1 (json_error_is_the_tokenizers 3
                  (ArrayLike std_vector (Value (integer_t int)))
                  (TokenStream.ContextTokenStream
                     [Reader.deliver Token.StartArrayToken false;
                      Reader.deliver (Tokenizer.number 1) false;
                      Reader.mkAnswer None
                        (Some (Reader.mkCode false "Invalid value.")) false])
                  (ParseResult.mkError "Invalid value." (Some "root[0]"))
                  _ ltac:(vm_compute; reflexivity))).
Defined.

(** ** A cursor that has no token to give *)

Section NoToken.

Import TokenStream.

Lemma acquire_token_stopped s :
  has_error s || is_complete s = true → acquire_token s = Done (false, s).
Proof. intros H. unfold acquire_token. by rewrite H. Qed.

Lemma next_stopped s :
  has_error s || is_complete s = true → next s = Done (None, s).
Proof. intros H. unfold next. by rewrite acquire_token_stopped. Qed.

Lemma peek_stopped s :
  has_error s || is_complete s = true → peek s = Done (m_handler s, s).
Proof. intros H. unfold peek. by rewrite acquire_token_stopped. Qed.

End NoToken.

(** X4: when the cursor holds no token and will pull none, because it has
    recorded an error or because the document is complete,
    [Deserializer::parse<T>] fails for every [T] without touching the
    cursor: with the JSON error that the cursor recorded, or else with
    the parse error "Unexpected end of json"; either at the cursor's
    path. *)
Theorem parse_without_token fuel T s :
  TokenStream.m_handler s = None →
  TokenStream.has_error s || TokenStream.is_complete s = true →
  Deserializer_parse (S fuel) T s
  = Done (match TokenStream.m_error s with
          | Some error =>
              ParseResult.Err ParseResult.JSON_ERROR
                (ParseResult.mkError error (TokenStream.get_path s))
          | None =>
              ParseResult.Err ParseResult.PARSE_ERROR
                (ParseResult.mkError "Unexpected end of json"
                   (TokenStream.get_path s))
          end, s).
Proof.
  intros Hh Hs.
  assert (Deserializer.no_token s
          = match TokenStream.m_error s with
            | Some error =>
                ParseResult.Err ParseResult.JSON_ERROR
                  (ParseResult.mkError error (TokenStream.get_path s))
            | None =>
                ParseResult.Err ParseResult.PARSE_ERROR
                  (ParseResult.mkError "Unexpected end of json"
                     (TokenStream.get_path s))
            end) as <-.
  { unfold Deserializer.no_token. by destruct (TokenStream.m_error s). }
  destruct T; cbn [Deserializer_parse].
  - unfold Deserializer.parse_json_value. by rewrite next_stopped.
  - unfold Deserializer.parse_optional. by rewrite peek_stopped, Hh.
  - unfold Deserializer.parse_array_like. by rewrite next_stopped.
  - unfold Deserializer.parse_dict_like. by rewrite next_stopped.
  - unfold DeserializationHelper.json_parse,
      DeserializationHelper.parse_object.
    rewrite next_stopped by done. cbn [bind].
    unfold Deserializer.no_token. by destruct (TokenStream.m_error s).
Qed.

Lemma parse_without_token_witness :
  let s :=
    TokenStream.mkStream (Reader.mkReader [] true) None None true [] in
  Deserializer_parse 1 (Optional (Value bool_t)) s
  = Done (ParseResult.Err ParseResult.PARSE_ERROR
            (ParseResult.mkError "Unexpected end of json" (Some "root")), s).
Proof.
  exact (parse_without_token O (Optional (Value bool_t))
           (TokenStream.mkStream (Reader.mkReader [] true) None None true [])
           eq_refl eq_refl).
Defined.

(** X5: a text on which the tokenizer fails at the first pull, without a
    token (the empty text, or one that starts with an invalid
    character), gives a JSON error at [root] whatever the target type:
    the message is the tokenizer's, marked as unexpected for the two
    codes that the cursor does not expect. *)
Theorem malformed_start_is_json_error fuel T code completes more :
  Json.parse (S fuel) T
    (Reader.mkAnswer None (Some code) completes :: more)
  = Done (ParseResult.Err ParseResult.JSON_ERROR
            (ParseResult.mkError (TokenStream.handle_parse_error code)
               (Some "root"))).
Proof.
  unfold Json.parse.
  destruct T; cbn [Deserializer_parse]; reflexivity.
Qed.

(** ** Looking ahead *)

Section Lookahead.

Import TokenStream.

Lemma next_after_peek s tok s' :
  peek s = Done (tok, s') → has_error s' = false → next s = next s'.
Proof.
  intros Hpeek He.
  pose proof (peek_spec _ _ _ Hpeek) as (_ & Hrest & _).
  rewrite (next_idle s') by done. rewrite He. cbn [orb].
  unfold peek in Hpeek. unfold next.
  destruct (acquire_token s) as [[b s1]| |] eqn:E; [|done..].
  cbn in Hpeek. injection Hpeek as _ ->. cbn [bind].
  rewrite (acquire_token_result _ _ _ E).
  destruct (has_error s || is_complete s) eqn:Hs.
  - rewrite acquire_token_stopped in E by done. injection E as _ <-.
    apply orb_true_iff in Hs as [Hs|Hs]; [congruence|].
    rewrite Hs. done.
  - cbn [negb andb]. unfold is_complete.
    destruct (has_token s'); by rewrite ?andb_false_r.
Qed.

Lemma peek_after_peek s tok s' :
  peek s = Done (tok, s') → peek s = peek s'.
Proof.
  intros Hpeek. rewrite Hpeek.
  pose proof (peek_spec _ _ _ Hpeek) as (-> & Hrest & _).
  by rewrite peek_idle.
Qed.

End Lookahead.

Lemma parse_after_peek fuel T s tok s' :
  TokenStream.peek s = Done (tok, s') →
  TokenStream.has_error s' = false →
  Deserializer_parse fuel T s' = Deserializer_parse fuel T s.
Proof.
  intros Hpeek He. destruct fuel as [|fuel]; [done|].
  pose proof (next_after_peek _ _ _ Hpeek He) as Hn.
  pose proof (peek_after_peek _ _ _ Hpeek) as Hp.
  destruct T; cbn [Deserializer_parse].
  - unfold Deserializer.parse_json_value. by rewrite Hn.
  - unfold Deserializer.parse_optional. by rewrite Hp.
  - unfold Deserializer.parse_array_like. by rewrite Hn.
  - unfold Deserializer.parse_dict_like. by rewrite Hn.
  - unfold DeserializationHelper.json_parse,
      DeserializationHelper.parse_object. by rewrite Hn.
Qed.

(** X6: looking ahead is harmless: after a [peek] that left no error in the
    cursor, [Deserializer::parse<T>] returns what it would have returned
    without that [peek], for every [T]. *)
Theorem lookahead_is_harmless fuel T s tok s' :
  TokenStream.peek s = Done (tok, s') →
  TokenStream.has_error s' = false →
  Deserializer_parse fuel T s' = Deserializer_parse fuel T s.
Proof. apply parse_after_peek. Qed.

Lemma lookahead_is_harmless_witness :
  let s := TokenStream.ContextTokenStream
             (Tokenizer.document [Tokenizer.number 7]) in
  ∃ s', TokenStream.peek s = Done (Some (Token.UintToken 7), s')
        ∧ Deserializer_parse 1 (Value (integer_t int8_t)) s'
          = Deserializer_parse 1 (Value (integer_t int8_t)) s.
Proof.
  eexists. split; [reflexivity|].
  exact (lookahead_is_harmless 1 (Value (integer_t int8_t))
           (TokenStream.ContextTokenStream
              (Tokenizer.document [Tokenizer.number 7]))
           _ _ eq_refl eq_refl).
Defined.

(** ** Keys that no descriptor answers to, and descriptors that no key
       reaches *)

Section FieldsMap.

Import DeserializationHelper.

Lemma build_fields_map_fold_last (fields : list Field)
    (m0 : gmap string nat) (c0 : nat) (key : string) (idx : nat) :
  (fold_left
     (λ '(result, counter) field,
        (<[name field := counter]> result, S counter))
     fields (m0, c0)).1 !! key = Some idx →
  ((key ∉ name <$> fields) ∧ m0 !! key = Some idx)
  ∨ (∃ j f, idx = (c0 + j)%nat ∧ fields !! j = Some f ∧ name f = key
            ∧ ∀ j' f', (j < j')%nat → fields !! j' = Some f' →
                       name f' ≠ key).
Proof.
  revert m0 c0. induction fields as [|f0 fields IH]; intros m0 c0 H.
  - left. split; [by apply not_elem_of_nil|done].
  - cbn [fold_left] in H. apply IH in H as [[Hnot H]|(j & f & -> & Hj & Hf & Hlast)].
    + destruct (decide (name f0 = key)) as [Heq|Hne].
      * right. exists O, f0. rewrite Heq, lookup_insert_eq in H.
        injection H as <-. split; [lia|]. split; [done|]. split; [done|].
        intros [|j'] f' Hlt Hj'; [lia|]. cbn in Hj'.
        intros Heq'. apply Hnot. rewrite <- Heq'.
        apply list_elem_of_fmap. exists f'. split; [done|].
        by eapply list_elem_of_lookup_2.
      * left. rewrite lookup_insert_ne in H by done. split; [|done].
        rewrite fmap_cons. apply not_elem_of_cons. done.
    + right. exists (S j), f. split; [lia|]. split; [done|]. split; [done|].
      intros [|j'] f' Hlt Hj'; [lia|]. cbn in Hj'.
      apply (Hlast j' f'); [lia|done].
Qed.

(** A key is routed to the last descriptor that carries it. *)
Lemma build_fields_map_last fields key idx :
  build_fields_map fields !! key = Some idx →
  ∃ f, fields !! idx = Some f ∧ name f = key
       ∧ ∀ j' f', (idx < j')%nat → fields !! j' = Some f' → name f' ≠ key.
Proof.
  unfold build_fields_map. intros H.
  apply build_fields_map_fold_last in H
    as [[_ H]|(j & f & -> & Hj & Hf & Hlast)]; [done|].
  exists f. done.
Qed.

Lemma build_fields_map_unknown fields key :
  key ∉ name <$> fields → build_fields_map fields !! key = None.
Proof.
  intros H. unfold build_fields_map.
  destruct (build_fields_map_fold fields ∅ O key) as [H1 _].
  cbn zeta in H1. by rewrite H1.
Qed.

Variable parse : JType → TokenStream.t → Deserializer.Parsed JValue.

Lemma object_loop_unknown_key n map tokens tokens' fields object key :
  TokenStream.next tokens = Done (Some (Token.KeyToken key), tokens') →
  map !! key = None →
  object_loop parse (S n) map tokens fields object
  = Done (ParseResult.parse_error ("Unexpected key: " +:+ key)
            (TokenStream.get_path tokens'), tokens', fields, object).
Proof.
  intros Hnext Hmap. cbn [object_loop]. rewrite Hnext. cbn [bind].
  change (Token.is_of_type TokenType.EndObject (Token.KeyToken key))
    with false.
  cbn match. by rewrite Hmap.
Qed.

(** A descriptor that no key is routed to stays as it is; if it is not
    ready, the loop never succeeds. *)
Lemma object_loop_unreached n map i f :
  (∀ key idx, map !! key = Some idx → idx ≠ i) →
  is_ready f = false →
  ∀ s fields object s' fields' object',
    fields !! i = Some f →
    object_loop parse n map s fields object
    ≠ Done (ParseResult.Ok (), s', fields', object').
Proof.
  intros Hmap Hf. induction n as [|n IH];
    intros s fields object s' fields' object' Hi; [done|].
  cbn [object_loop].
  destruct (TokenStream.next s) as [[[token|] s1]| |]; cbn [bind];
    [| |done..].
  - destruct token;
      try (change (Token.is_of_type TokenType.EndObject _) with false;
           cbn match; done).
    + change (Token.is_of_type TokenType.EndObject _) with false. cbn match.
      destruct (map !! value) as [index|] eqn:Hm; [|done].
      rewrite parse_field_unfold.
      destruct (fields !! index) as [field|]; [|done].
      destruct (is_set field); [done|].
      destruct (parse (type field) s1) as [[[v|ty e] s2]| |];
        cbn [bind]; [|done..].
      apply IH. rewrite list_lookup_insert_ne; [done|].
      by eapply Hmap.
    + change (Token.is_of_type TokenType.EndObject _) with true. cbn match.
      destruct (forallb is_ready fields) eqn:Hready.
      * exfalso. rewrite forallb_forall in Hready.
        assert (is_ready f = true); [|congruence].
        apply Hready. apply list_elem_of_In.
        by eapply list_elem_of_lookup_2.
      * by destruct fields.
  - unfold Deserializer.no_token.
    by destruct (TokenStream.m_error s1).
Qed.

End FieldsMap.

(** X8: when the loop of [parse_object] reads a [Key] token that is the name
    of no field descriptor, it fails with the parse error
    "Unexpected key: " followed by the key, at the current path, and
    leaves descriptors and storage as they are: a record accepts no
    member beyond its fields. *)
Theorem unknown_key_rejected parse n tokens tokens' fields object key :
  TokenStream.next tokens = Done (Some (Token.KeyToken key), tokens') →
  key ∉ DeserializationHelper.name <$> fields →
  DeserializationHelper.object_loop parse (S n)
    (DeserializationHelper.build_fields_map fields) tokens fields object
  = Done (ParseResult.Err ParseResult.PARSE_ERROR
            (ParseResult.mkError ("Unexpected key: " +:+ key)
               (TokenStream.get_path tokens')),
          tokens', fields, object).
Proof.
  intros Hnext Hkey.
  by rewrite (object_loop_unknown_key _ _ _ _ _ _ _ _ Hnext
                (build_fields_map_unknown _ _ Hkey)).
Qed.

Lemma unknown_key_rejected_witness :
  let a := DeserializationHelper.mkField "a" (Value (integer_t int)) 0 true in
  let tokens :=
    TokenStream.mkStream
      (Reader.mkReader
         (Tokenizer.document [Token.KeyToken "b"; Tokenizer.number 2;
                              Token.EndObjectToken 2]) false)
      None None true [Path.Object (Some "a")] in
  ∃ tokens',
    DeserializationHelper.object_loop (Deserializer_parse 1) 1
      (DeserializationHelper.build_fields_map [a]) tokens [a] [VInteger 1]
    = Done (ParseResult.Err ParseResult.PARSE_ERROR
              (ParseResult.mkError "Unexpected key: b" (Some "root.b")),
            tokens', [a], [VInteger 1]).
Proof.
  eexists.
  exact (unknown_key_rejected (Deserializer_parse 1) O
           (TokenStream.mkStream
              (Reader.mkReader
                 (Tokenizer.document
                    [Token.KeyToken "b"; Tokenizer.number 2;
                     Token.EndObjectToken 2]) false)
              None None true [Path.Object (Some "a")])
           _
           [DeserializationHelper.mkField "a" (Value (integer_t int)) 0 true]
           [VInteger 1] "b" eq_refl ltac:(by compute_done)).
Defined.

(** X9: field descriptors that share a name: every key is routed to the
    last descriptor with that name, so an earlier one is never set.  A
    record whose fields list a name twice, the earlier time with a type
    that is not optional, can therefore never be parsed: no text makes
    [Deserializer::parse] return a value for it. *)
Theorem shadowed_field_blocks_the_record members i j key Ti Tj :
  (i < j)%nat →
  members !! i = Some (key, Ti) → members !! j = Some (key, Tj) →
  (∀ T', Ti ≠ Optional T') →
  ∀ fuel s v s',
    Deserializer_parse fuel (Class members) s ≠ Done (ParseResult.Ok v, s').
Proof.
  intros Hij Hi Hj Hopt [|fuel] s v s'; [done|].
  cbn [Deserializer_parse].
  unfold DeserializationHelper.json_parse, DeserializationHelper.parse_object.
  destruct (TokenStream.next s) as [[[token|] s1]| |]; cbn [bind];
    [| |done..].
  - destruct (negb (Token.is_of_type TokenType.StartObject token));
      [done|].
    destruct (DeserializationHelper.object_loop _ _ _ _ _ _)
      as [[[[[[]|ty e] s2] fields2] object2]| |] eqn:E; cbn [bind];
      [|done..].
    exfalso. revert E.
    apply (object_loop_unreached _ _ _ i
             (DeserializationHelper.mkField key Ti i false)).
    + intros key' idx Hm ->.
      apply build_fields_map_last in Hm as (f & Hf & Hname & Hlast).
      unfold DeserializationHelper.fields_of in Hf, Hlast.
      rewrite list_lookup_imap, Hi in Hf. injection Hf as <-.
      cbn in Hname. subst key'.
      apply (Hlast j (DeserializationHelper.mkField key Tj j false));
        [done| |done].
      by rewrite list_lookup_imap, Hj.
    + unfold DeserializationHelper.is_ready, DeserializationHelper.is_opt.
      cbn. destruct Ti; try done. by destruct (Hopt Ti).
    + unfold DeserializationHelper.fields_of.
      by rewrite list_lookup_imap, Hi.
  - unfold Deserializer.no_token.
    by destruct (TokenStream.m_error s1).
Qed.

Lemma shadowed_field_blocks_the_record_witness :
  Deserializer_parse 3
    (Class [("a", Value (integer_t int)); ("a", Value string_t)])
    (TokenStream.ContextTokenStream
       (Tokenizer.document
          [Token.StartObjectToken; Token.KeyToken "a";
           Token.StringToken "x"; Token.EndObjectToken 1]))
  ≠ Done (ParseResult.Ok (VClass [VInteger 0; VString "x"]),
          fresh [] [] true).
Proof.
  exact (shadowed_field_blocks_the_record
           [("a", Value (integer_t int)); ("a", Value string_t)]
           0 1 "a" (Value (integer_t int)) (Value string_t)
           ltac:(lia) eq_refl eq_refl ltac:(done) 3 _ _ _).
Defined.

(** ** The values that a parse returns *)

Lemma static_cast_range T v : representable T (static_cast T v).
Proof.
  unfold representable, numeric_limits_min, numeric_limits_max, static_cast.
  destruct T as [[] []]; cbn -[Z.modulo Z.div].
  all: repeat match goal with
       | |- context [2 ^ ?k] =>
           let c := eval vm_compute in (2 ^ k) in change (2 ^ k) with c
       end.
  all: repeat match goal with
       | |- context [?m `div` 2] =>
           let c := eval vm_compute in (m `div` 2) in
           change (m `div` 2) with c
       end.
  all: match goal with
       | |- context [(?a) `mod` ?m] =>
           pose proof (Z.mod_pos_bound a m ltac:(lia))
       end.
  all: lia.
Qed.

Lemma default_value_has_type T : has_type T (default_value T).
Proof.
  induction T as [V|T IH|k T IH|k T IH|fields IH] using JType_nested_ind.
  - destruct V; cbn; constructor. unfold representable; cbn.
    destruct T as [[] []]; cbn; lia.
  - constructor.
  - constructor; [constructor|done].
  - constructor; [constructor|done].
  - cbn. constructor. induction IH; constructor; done.
Qed.

Lemma no_duplicates_emplace k acc value :
  no_duplicates k acc → no_duplicates k (array_emplace k acc value).
Proof.
  unfold no_duplicates. intros H.
  assert (array_emplace k acc value = acc
          ∨ array_emplace k acc value = acc ++ [value]) as [->|Heq].
  { unfold array_emplace. destruct k; [|destruct (existsb _ _)..]; auto. }
  - done.
  - rewrite Heq at 1 2. rewrite fold_left_app, H. done.
Qed.

Lemma no_duplicate_keys_emplace acc key value :
  no_duplicate_keys acc → no_duplicate_keys (dict_emplace acc key value).
Proof.
  unfold no_duplicate_keys. intros H.
  assert (dict_emplace acc key value = acc
          ∨ dict_emplace acc key value = acc ++ [(key, value)])
    as [->|Heq].
  { unfold dict_emplace. destruct (existsb _ _); auto. }
  - done.
  - rewrite Heq at 1 2. rewrite fold_left_app, H. done.
Qed.

Section Typed.

Import TokenStream ParseResult Deserializer.

Lemma parse_value_typed V token p v :
  parse_value V token p = Ok v → has_type (Value V) v.
Proof.
  unfold parse_value.
  destruct token; cbn [parse_value_impl Token.is_of_type Token.type];
    repeat (rewrite bool_decide_eq_false_2 by done; cbn [negb]);
    try rewrite bool_decide_eq_true_2 by done; cbn [negb];
    try done.
  all: destruct V as [|R|F|]; cbn [convert Token.integer_value]; try done.
  all: try (intros [= <-]; constructor; apply static_cast_range).
  all: destruct (in_range _ _ _); try done; intros [= <-]; constructor;
    apply static_cast_range.
Qed.

Lemma parse_json_value_typed V : typed (Value V) (parse_json_value V).
Proof.
  intros s v s'. unfold parse_json_value.
  destruct (next s) as [[[token|] s1]| |]; cbn [bind]; [| |done..].
  - intros [= H <-]. by eapply parse_value_typed.
  - unfold no_token. by destruct (m_error s1).
Qed.

Section Overloads.

Variable T : JType.
Variable parse : TokenStream.t → Parsed JValue.
Hypothesis parse_typed : typed T parse.

Lemma parse_optional_typed : typed (Optional T) (parse_optional parse).
Proof.
  intros s v s'. unfold parse_optional.
  destruct (peek s) as [[[token|] s1]| |]; cbn [bind]; [| |done..].
  - destruct (Token.is_of_type TokenType.Null token).
    + destruct (next s1) as [[tok s2]| |]; cbn [bind]; [|done..].
      intros [= <- <-]. constructor.
    + destruct (parse s1) as [[[x|ty e] s2]| |] eqn:E; cbn [bind];
        [| |done..]; intros [= <- <-].
      constructor. by eapply parse_typed.
  - unfold no_token. by destruct (m_error s1).
Qed.

Lemma array_loop_typed n k acc :
  Forall (has_type T) acc → no_duplicates k acc →
  typed (ArrayLike k T) (array_loop parse n k acc).
Proof.
  revert acc. induction n as [|n IH]; intros acc Hacc Hnd s v s'; [done|].
  cbn [array_loop].
  destruct (peek s) as [[[token|] s1]| |]; cbn [bind]; [| |done..].
  - destruct (Token.is_of_type TokenType.EndArray token).
    + destruct (next s1) as [[tok s2]| |]; cbn [bind]; [|done..].
      intros [= <- <-]. by constructor.
    + destruct (parse s1) as [[[x|ty e] s2]| |] eqn:E; cbn [bind];
        [| |done..]; [|done].
      apply IH; [|by apply no_duplicates_emplace].
      apply parse_typed in E. unfold array_emplace.
      destruct k; [|destruct (existsb _ _)..]; try done;
        apply Forall_app; split; try done; by constructor.
  - unfold no_token. by destruct (m_error s1).
Qed.

Lemma parse_array_like_typed n k :
  typed (ArrayLike k T) (parse_array_like parse n k).
Proof.
  intros s v s'. unfold parse_array_like.
  destruct (next s) as [[[token|] s1]| |]; cbn [bind]; [| |done..].
  - destruct (negb (Token.is_of_type TokenType.StartArray token)); [done|].
    by apply array_loop_typed.
  - unfold no_token. by destruct (m_error s1).
Qed.

Lemma dict_loop_typed n k acc :
  Forall (λ e, has_type T e.2) acc → no_duplicate_keys acc →
  typed (DictLike k T) (dict_loop parse n k acc).
Proof.
  revert acc. induction n as [|n IH]; intros acc Hacc Hnd s v s'; [done|].
  cbn [dict_loop].
  destruct (next s) as [[[token|] s1]| |]; cbn [bind]; [| |done..].
  - destruct token; try done.
    + destruct (parse s1) as [[[x|ty e] s2]| |] eqn:E; cbn [bind];
        [| |done..]; [|done].
      apply IH; [|by apply no_duplicate_keys_emplace].
      apply parse_typed in E. unfold dict_emplace.
      destruct (existsb _ _); [done|].
      apply Forall_app; split; [done|]. by constructor.
    + intros [= <- <-]. by constructor.
  - unfold no_token. by destruct (m_error s1).
Qed.

Lemma parse_dict_like_typed n k :
  typed (DictLike k T) (parse_dict_like parse n k).
Proof.
  intros s v s'. unfold parse_dict_like.
  destruct (next s) as [[[token|] s1]| |]; cbn [bind]; [| |done..].
  - destruct (negb (Token.is_of_type TokenType.StartObject token)); [done|].
    by apply dict_loop_typed.
  - unfold no_token. by destruct (m_error s1).
Qed.

End Overloads.

Section Helper.

Import DeserializationHelper.
Variable parse : JType → TokenStream.t → Parsed JValue.
Hypothesis parse_typed : ∀ T, typed T (parse T).

Lemma object_loop_typed (members : list (string * JType)) n map :
  ∀ s fields object s' fields' object',
    (∀ i f, fields !! i = Some f →
            m_ref f = i ∧ ∃ m, members !! i = Some m ∧ type f = m.2) →
    Forall2 (λ m v, has_type m.2 v) members object →
    object_loop parse n map s fields object
    = Done (Ok (), s', fields', object') →
    Forall2 (λ m v, has_type m.2 v) members object'.
Proof.
  induction n as [|n IH];
    intros s fields object s' fields' object' Hfields Hobject; [done|].
  cbn [object_loop].
  destruct (next s) as [[[token|] s1]| |]; cbn [bind]; [| |done..].
  - destruct token;
      try (change (Token.is_of_type TokenType.EndObject _) with false;
           cbn match; done).
    + change (Token.is_of_type TokenType.EndObject _) with false. cbn match.
      destruct (map !! value) as [index|]; [|done].
      rewrite parse_field_unfold.
      destruct (fields !! index) as [field|] eqn:Hf; [|done].
      destruct (is_set field); [done|].
      destruct (parse (type field) s1) as [[[v|ty e] s2]| |] eqn:E;
        cbn [bind]; [| |done..]; [|done].
      destruct (Hfields _ _ Hf) as (Href & m & Hm & Hty).
      apply IH.
      * intros i f. destruct (decide (i = index)) as [->|Hne].
        -- rewrite list_lookup_insert_eq by by eapply lookup_lt_Some.
           intros [= <-]. cbn. split; [done|]. by exists m.
        -- rewrite list_lookup_insert_ne by done. apply Hfields.
      * cbn [set snd]. rewrite Href.
        rewrite <- (list_insert_id members index m) by done.
        apply Forall2_insert; [done|].
        rewrite <- Hty. by eapply parse_typed.
    + change (Token.is_of_type TokenType.EndObject _) with true. cbn match.
      destruct (forallb is_ready fields).
      * by intros [= <- <- <-].
      * by destruct fields.
  - unfold no_token. by destruct (m_error s1).
Qed.

Lemma json_parse_typed n members :
  typed (Class members) (json_parse parse n members).
Proof.
  intros s v s'. unfold json_parse, parse_object.
  destruct (next s) as [[[token|] s1]| |]; cbn [bind]; [| |done..].
  - destruct (negb (Token.is_of_type TokenType.StartObject token));
      [done|].
    destruct (object_loop _ _ _ _ _ _)
      as [[[[[[]|ty e] s2] fields2] object2]| |] eqn:E; cbn [bind];
      [| |done..]; [|done].
    intros [= <- <-]. constructor.
    eapply object_loop_typed; [| |exact E].
    + intros i f. unfold fields_of. rewrite list_lookup_imap.
      destruct (members !! i) as [m|]; [|done].
      intros [= <-]. cbn. split; [done|]. by exists m.
    + apply Forall2_fmap_r, Forall_Forall2_diag, Forall_forall.
      intros m _. apply default_value_has_type.
  - unfold no_token. by destruct (m_error s1).
Qed.

End Helper.

Lemma Deserializer_parse_typed fuel T : typed T (Deserializer_parse fuel T).
Proof.
  revert T. induction fuel as [|fuel IH]; intros T; [done|].
  destruct T; cbn [Deserializer_parse].
  - apply parse_json_value_typed.
  - by apply parse_optional_typed.
  - by apply parse_array_like_typed.
  - by apply parse_dict_like_typed.
  - by apply json_parse_typed.
Qed.

End Typed.

(** X10: whatever the text, a value that the public [parse<T>] returns is a
    value of [T]: every integer lies within the range of its target
    type, a set-like container holds no element twice and a dict-like
    one no key twice, and a record has one member of the right type for
    each of its fields. *)
Theorem parse_returns_values_of_the_type fuel T json v :
  Json.parse fuel T json = Done (ParseResult.Ok v) → has_type T v.
Proof.
  unfold Json.parse.
  destruct (Deserializer_parse fuel T _) as [[r s']| |] eqn:E;
    cbn [bind]; [|done..].
  intros [= ->]. by eapply Deserializer_parse_typed.
Qed.

Lemma parse_returns_values_of_the_type_witness :
  has_type (ArrayLike std_set (Value (integer_t int8_t)))
    (VArray std_set [VInteger 5; VInteger (-3)]).
Proof.
  apply (parse_returns_values_of_the_type 5
           (ArrayLike std_set (Value (integer_t int8_t)))
           (Tokenizer.document
              [Token.StartArrayToken; Tokenizer.number 5;
               Tokenizer.number (-3); Tokenizer.number 5;
               Token.EndArrayToken 3])).
  vm_compute. reflexivity.
Defined.

(** ** The calls of a dump *)

Lemma integer_one_call Int z :
  value_calls (SimpleWriter.integer Int z []).
Proof.
  unfold SimpleWriter.integer.
  repeat match goal with |- context [if ?c then _ else _] => destruct c end;
    constructor.
Qed.

(** X13: for every value of its type, [dump] makes the calls of exactly one
    JSON value: every array and object it opens it closes, in the right
    order, every key it writes is inside an object and is followed by
    one value, and nothing is written outside the value. *)
Theorem dump_writes_one_value T v :
  has_type T v → value_calls (Json.dump T v).
Proof.
  revert T. induction v using JValue_nested_ind; intros T Htype;
    inversion Htype; subst.
  - constructor.
  - apply integer_one_call.
  - constructor.
  - constructor.
  - constructor.
  - by apply IHv.
  - rewrite dump_array. apply calls_array.
    apply Forall_fmap. apply Forall_forall. intros x Hx. cbn.
    rewrite Forall_forall in H. apply H; [done|].
    match goal with Hl : Forall (has_type _) l |- _ =>
      rewrite Forall_forall in Hl; by apply Hl end.
  - rewrite dump_dict.
    match goal with |- context [Json.dump ?T0] =>
      replace (map (λ e : string * JValue, WKey e.1 :: Json.dump T0 e.2) l)
        with (map (λ m : string * list WriterCall, WKey m.1 :: m.2)
                (map (λ e : string * JValue, (e.1, Json.dump T0 e.2)) l))
        by (rewrite map_map; done)
    end.
    apply calls_object. apply Forall_fmap, Forall_forall. intros e He. cbn.
    rewrite Forall_forall in H. apply H; [done|].
    match goal with Hl : Forall (λ e, has_type _ e.2) l |- _ =>
      rewrite Forall_forall in Hl; by apply Hl end.
  - rewrite dump_class.
    replace (zip_with (λ (field : string * JType) m,
                         WKey field.1 :: Json.dump field.2 m) fields members)
      with (map (λ m : string * list WriterCall, WKey m.1 :: m.2)
              (zip_with (λ (field : string * JType) m,
                           (field.1, Json.dump field.2 m)) fields members)).
    2:{ clear. revert members.
        induction fields as [|f fields IH]; intros [|m members]; cbn;
          try done. by rewrite IH. }
    apply calls_object. clear Htype.
    match goal with Hl : Forall2 _ fields members |- _ =>
      induction Hl as [|f m fields members Hfm _ IH] end; [constructor|].
    apply Forall_cons in H as [Hm H].
    cbn. constructor; [by apply Hm|by apply IH].
Qed.

Lemma dump_writes_one_value_witness :
  value_calls
    [WStartObject; WKey "xs"; WStartArray; WUint 1; WInt (-1); WEndArray;
     WKey "o"; WNull; WEndObject].
Proof.
  apply (dump_writes_one_value
           (Class [("xs", ArrayLike std_vector (Value (integer_t int)));
                   ("o", Optional (Value string_t))])
           (VClass [VArray std_vector [VInteger 1; VInteger (-1)];
                    VOptional None])).
  repeat (constructor; try (unfold representable; cbn; lia)); reflexivity.
Defined.

(** ** What a dump keeps of its value *)

Lemma Forall_exists_Forall2 {A B : Type} (R : A → B → Prop) l :
  Forall (λ a, ∃ b, R a b) l → ∃ k, Forall2 R l k.
Proof.
  induction 1 as [|a l [b Hb] _ [k IH]].
  - exists []. constructor.
  - exists (b :: k). by constructor.
Qed.

Lemma dump_readable T v :
  exact_type T → has_type T v →
  Forall (λ c, ∃ t, Tokenizer.reads c t) (Json.dump T v).
Proof.
  revert T. induction v using JValue_nested_ind; intros T Hexact Htype;
    inversion Htype; subst; inversion Hexact; subst.
  - repeat constructor. eexists; constructor.
  - unfold Json.dump. cbn. unfold SimpleWriter.integer.
    repeat match goal with |- context [if ?c then _ else _] => destruct c end;
      repeat constructor; eexists; constructor.
  - repeat constructor. eexists; constructor.
  - repeat constructor. eexists; constructor.
  - by apply IHv.
  - rewrite dump_array. constructor; [eexists; constructor|].
    apply Forall_app.
    split; [|repeat constructor; exists (Token.EndArrayToken 0); constructor].
    apply Forall_concat, Forall_fmap, Forall_forall. intros x Hx. cbn.
    rewrite Forall_forall in H. apply H; [done..|].
    match goal with Hl : Forall (has_type _) l |- _ =>
      rewrite Forall_forall in Hl; by apply Hl end.
  - rewrite dump_dict. constructor; [eexists; constructor|].
    apply Forall_app.
    split; [|repeat constructor; exists (Token.EndObjectToken 0); constructor].
    apply Forall_concat, Forall_fmap, Forall_forall. intros e He. cbn.
    constructor; [eexists; constructor|].
    rewrite Forall_forall in H. apply H; [done..|].
    match goal with Hl : Forall (λ e, has_type _ e.2) l |- _ =>
      rewrite Forall_forall in Hl; by apply Hl end.
  - rewrite dump_class. constructor; [eexists; constructor|].
    apply Forall_app.
    split; [|repeat constructor; exists (Token.EndObjectToken 0); constructor].
    apply Forall_concat. clear Htype Hexact.
    match goal with Hn : NoDup _ |- _ => clear Hn end.
    match goal with Hl : Forall2 _ fields members |- _ =>
      induction Hl as [|f m fields members Hfm _ IH] end; [constructor|].
    apply Forall_cons in H as [Hm H].
    match goal with He : Forall (λ field, exact_type field.2) (f :: fields)
                    |- _ => apply Forall_cons in He as [Hf He] end.
    cbn. constructor; [|by apply IH].
    constructor; [eexists; constructor|]. by apply Hm.
Qed.

(** X14: a dump keeps everything of its value: for a type built without
    floating-point scalars, with distinct field names in each record,
    two values in which no present optional holds an absent one and
    that are dumped with the same calls are the same value. *)
Theorem dump_is_injective T v1 v2 :
  exact_type T → has_type T v1 → has_type T v2 →
  present_absent v1 = false → present_absent v2 = false →
  Json.dump T v1 = Json.dump T v2 → v1 = v2.
Proof.
  intros Hexact Ht1 Ht2 Hs1 Hs2 Hdump.
  destruct (Forall_exists_Forall2 _ _ (dump_readable T v1 Hexact Ht1))
    as [tokens Hreads].
  destruct (parses_back_dump v1 T tokens Hexact Ht1 Hs1 Hreads)
    as (n1 & token & tokens' & -> & _ & _ & H1).
  rewrite Hdump in Hreads.
  destruct (parses_back_dump v2 T _ Hexact Ht2 Hs2 Hreads)
    as (n2 & token2 & tokens2 & [= <- <-] & _ & _ & H2).
  destruct (H1 (n1 `max` n2)%nat ltac:(lia) [] true []) as (p1 & Hp1 & E1).
  destruct (H2 (n1 `max` n2)%nat ltac:(lia) [] true []) as (p2 & Hp2 & E2).
  rewrite Hp1 in Hp2. injection Hp2 as <-.
  rewrite E1 in E2. by injection E2.
Qed.

Lemma dump_is_injective_witness :
  let T := ArrayLike std_set (Optional (Value (integer_t int))) in
  let v := VArray std_set [VOptional None; VOptional (Some (VInteger 0))] in
  has_type T v ∧ Json.dump T v = [WStartArray; WNull; WInt 0; WEndArray]
  ∧ v = v.
Proof.
  intros T v.
  assert (has_type T v) as Hv.
  { constructor; [|reflexivity].
    repeat (constructor; try (unfold representable; cbn; lia)). }
  split; [exact Hv|]. split; [reflexivity|].
  exact (dump_is_injective T v v ltac:(repeat constructor) Hv Hv
           eq_refl eq_refl eq_refl).
Defined.

(** X15: parsing back the text of a dump consumes exactly that text: the
    parse returns the value and leaves the cursor with no token held,
    nothing left to pull, no error, the document complete, and the path
    back at [root]. *)
Theorem round_trip_consumes_the_text T v tokens :
  exact_type T → has_type T v → present_absent v = false →
  Forall2 Tokenizer.reads (Json.dump T v) tokens →
  ∃ n, ∀ fuel, (n ≤ fuel)%nat →
    ∃ s',
      Deserializer_parse fuel T
        (TokenStream.ContextTokenStream (Tokenizer.document tokens))
      = Done (ParseResult.Ok v, s')
      ∧ TokenStream.m_handler s' = None
      ∧ TokenStream.unread s' = O
      ∧ TokenStream.has_error s' = false
      ∧ TokenStream.is_complete s' = true
      ∧ TokenStream.get_path s' = Some "root".
Proof.
  intros Hexact Htype Hsafe Hreads.
  destruct (parses_back_dump v T tokens Hexact Htype Hsafe Hreads)
    as (n & token & tokens' & -> & _ & _ & H).
  exists n. intros fuel Hfuel.
  destruct (H fuel Hfuel [] true []) as (path' & Hadv & Hparse).
  exists (fresh [] [] true). split; [|done].
  unfold Tokenizer.document. rewrite events_cons.
  change (TokenStream.ContextTokenStream ?a) with (fresh [] a false).
  by rewrite (parse_fresh _ _ _ _ _ _ _ Hadv), Hparse.
Qed.

Lemma round_trip_consumes_the_text_witness :
  ∃ n, ∀ fuel, (n ≤ fuel)%nat →
    ∃ s',
      Deserializer_parse fuel (DictLike std_map (Value bool_t))
        (TokenStream.ContextTokenStream
           (Tokenizer.document
              [Token.StartObjectToken; Token.KeyToken "k";
               Token.BoolToken true; Token.EndObjectToken 1]))
      = Done (ParseResult.Ok (VDict std_map [("k", VBool true)]), s')
      ∧ TokenStream.m_handler s' = None
      ∧ TokenStream.unread s' = O
      ∧ TokenStream.has_error s' = false
      ∧ TokenStream.is_complete s' = true
      ∧ TokenStream.get_path s' = Some "root".
Proof.
  apply round_trip_consumes_the_text.
  - repeat constructor.
  - repeat constructor.
  - reflexivity.
  - vm_compute Json.dump. repeat constructor.
Defined.

(** ** The members of a record in any order *)

Section AnyOrder.

Import DeserializationHelper.

Lemma descriptors_in_nil members :
  descriptors_in members [] = fields_of members.
Proof.
  unfold descriptors_in, fields_of. apply imap_ext. intros i f _.
  rewrite bool_decide_eq_false_2; [done|]. apply not_elem_of_nil.
Qed.

Lemma descriptors_in_lookup members seen i f :
  members !! i = Some f →
  descriptors_in members seen !! i
  = Some (mkField f.1 f.2 i (bool_decide (i ∈ seen))).
Proof. intros H. unfold descriptors_in. by rewrite list_lookup_imap, H. Qed.

Lemma descriptors_in_set members seen i f :
  members !! i = Some f →
  <[i := mkField f.1 f.2 i true]> (descriptors_in members seen)
  = descriptors_in members (seen ++ [i]).
Proof.
  intros Hi. apply list_eq. intros j.
  destruct (decide (j = i)) as [->|Hne].
  - rewrite list_lookup_insert_eq.
    + rewrite (descriptors_in_lookup _ _ _ _ Hi).
      rewrite bool_decide_eq_true_2; [done|].
      apply elem_of_app. right. by apply list_elem_of_singleton.
    + unfold descriptors_in. rewrite length_imap. by eapply lookup_lt_Some.
  - rewrite list_lookup_insert_ne by done.
    unfold descriptors_in. rewrite !list_lookup_imap.
    destruct (members !! j); [|done]. cbn. do 2 f_equal.
    apply bool_decide_ext. rewrite elem_of_app, list_elem_of_singleton.
    split; [by left|intros [?|?]; done].
Qed.

Lemma keyed_members_cons members tss i order f ts :
  members !! i = Some f → tss !! i = Some ts →
  keyed_members members tss (i :: order)
  = (Token.KeyToken f.1 :: ts) ++ keyed_members members tss order.
Proof. intros Hf Hts. unfold keyed_members. cbn. by rewrite Hf, Hts. Qed.

(** The loop of [parse_object] over the members with the indices
    [todo], given in that order: it sets their descriptors, stores
    their values, and goes on with what follows them. *)
Lemma object_loop_prefix N all map vs tss :
  NoDup all.*1 → map = build_fields_map (fields_of all) →
  Forall3 (λ f v ts, parses_back_at N f.2 v ts) all vs tss →
  ∀ todo seen obj fuel n path key0 completes rest more,
    NoDup (seen ++ todo) → Forall (λ i, (i < length all)%nat) todo →
    length obj = length all → (N ≤ fuel)%nat → more ≠ [] →
    ∃ obj' key1,
      object_loop (Deserializer_parse fuel) (length todo + n) map
        (fresh (path ++ [Path.Object key0])
           (Tokenizer.events (keyed_members all tss todo ++ more)
              completes rest) false)
        (descriptors_in all seen) obj
      = object_loop (Deserializer_parse fuel) n map
          (fresh (path ++ [Path.Object key1])
             (Tokenizer.events more completes rest) false)
          (descriptors_in all (seen ++ todo)) obj'
      ∧ length obj' = length obj
      ∧ ∀ i, obj' !! i = if decide (i ∈ todo) then vs !! i else obj !! i.
Proof.
  intros Hnd -> Hall. induction todo as [|i todo IH];
    intros seen obj fuel n path key0 completes rest more
      Hseen Hlt Hobj Hfuel Hmore.
  - rewrite app_nil_r. exists obj, key0.
    change (keyed_members all tss []) with (@nil Token.t).
    split; [done|]. split; [done|].
    intros i. rewrite decide_False; [done|]. apply not_elem_of_nil.
  - apply Forall_cons in Hlt as [Hi Hlt].
    apply lookup_lt_is_Some in Hi as [f Hf].
    destruct (Forall3_lookup_l _ _ _ _ _ _ Hall Hf)
      as (v & ts & Hv & Hts & Hback).
    destruct Hback as (token & tokens' & -> & _ & _ & Hback).
    rewrite (keyed_members_cons _ _ _ _ _ _ Hf Hts).
    set (after := keyed_members all tss todo ++ more).
    assert (after ≠ []) as Hafter.
    { subst after. intros H. apply app_eq_nil in H as [_ H]. done. }
    destruct (Hback fuel Hfuel (path ++ [Path.Object (Some f.1)]) false
                (Tokenizer.events after completes rest))
      as (path' & Hadv & Hparse).
    rewrite <- !app_comm_cons, <- app_assoc.
    fold after. rewrite events_cons. cbn [after_first].
    change (token :: tokens' ++ after) with ((token :: tokens') ++ after).
    rewrite events_app by done.
    rewrite events_cons.
    assert (i ∉ seen) as Hnotin.
    { apply NoDup_app in Hseen as (_ & Hdisj & _).
      intros Hin. apply (Hdisj _ Hin). by left. }
    cbn [length Nat.add].
    erewrite object_loop_key;
      [|rewrite (next_fresh _ _ (path ++ [Path.Object (Some f.1)]));
        [done|apply key_snoc_object]
       |by apply build_fields_map_lookup].
    erewrite parse_field_writes;
      [|by apply descriptors_in_lookup
       |cbn; by rewrite bool_decide_eq_false_2
       |cbn [type]; rewrite (parse_fresh _ _ _ _ _ _ _ Hadv); exact Hparse].
    cbn [bind set fst m_ref name type].
    rewrite advance_array_snoc_object.
    rewrite (descriptors_in_set _ _ _ _ Hf).
    subst after.
    destruct (IH (seen ++ [i]) (<[i := v]> obj) fuel n path (Some f.1)
                completes rest more) as (obj' & key1 & Hloop & Hlen & Hobj').
    + rewrite <- app_assoc. done.
    + done.
    + by rewrite length_insert.
    + done.
    + done.
    + exists obj', key1. rewrite Hloop. rewrite <- app_assoc.
      split; [done|]. split; [by rewrite Hlen, length_insert|].
      intros j. rewrite Hobj'.
      apply NoDup_app in Hseen as (_ & _ & Htodo).
      apply NoDup_cons in Htodo as [Hi _].
      destruct (decide (j ∈ todo)) as [Hj|Hj].
      * rewrite decide_True; [done|]. by right.
      * destruct (decide (j = i)) as [->|Hne].
        -- rewrite decide_True by by left.
           rewrite list_lookup_insert_eq; [done|].
           rewrite Hobj. by eapply lookup_lt_Some.
        -- rewrite decide_False.
           ++ by rewrite list_lookup_insert_ne.
           ++ intros Hin. apply elem_of_cons in Hin as [?|?]; done.
Qed.

Lemma object_loop_at_end parse n map path key1 completes rest size fields
    obj :
  object_loop parse (S n) map
    (fresh (path ++ [Path.Object key1])
       (Tokenizer.events [Token.EndObjectToken size] completes rest) false)
    fields obj
  = if forallb is_ready fields
    then Done (ParseResult.Ok (), fresh path rest completes, fields, obj)
    else Done (ParseResult.parse_error (missing_keys_error fields)
                 (Some (Path.render path)),
               fresh path rest completes, fields, obj).
Proof.
  rewrite events_cons.
  erewrite object_loop_end;
    [|rewrite (next_fresh _ _ path); [done|apply pop_back_snoc]].
  done.
Qed.

End AnyOrder.

Lemma members_parse_back (fields : list (string * JType)) members tss :
  Forall (λ f, exact_type f.2) fields →
  Forall2 (λ f m, has_type f.2 m) fields members →
  existsb present_absent members = false →
  Forall3 (λ f m ts, Forall2 Tokenizer.reads (Json.dump f.2 m) ts)
    fields members tss →
  Forall3 (λ f m ts, ∃ n, parses_back_at n f.2 m ts) fields members tss.
Proof.
  intros Hexact Htype Hsafe Hreads.
  induction Hreads as [|f m ts fields members tss Hr _ IH]; [constructor|].
  apply Forall_cons in Hexact as [Hf Hexact].
  apply Forall2_cons in Htype as [Hm Htype].
  cbn in Hsafe. apply orb_false_iff in Hsafe as [Hs Hsafe].
  constructor; [|by apply IH].
  by apply (parses_back_dump m).
Qed.

(** X16: the members of a record may come in any order, and those that are
    absent optionals may be left out.  Let [vs] be a record of the class
    [members] (no floating-point scalars, distinct field names, no
    present optional holding an absent one), let [tss] hold for every
    member the events that the tokenizer reads from its dump, and let
    [order] list, without repetition, indices of members, among them
    every member that is not an absent optional.  Then the object that
    gives these members in that order, each after its key, parses to
    [vs]. *)
Theorem record_members_in_any_order members vs tss order size :
  exact_type (Class members) → has_type (Class members) (VClass vs) →
  present_absent (VClass vs) = false →
  Forall3 (λ f v ts, Forall2 Tokenizer.reads (Json.dump f.2 v) ts)
    members vs tss →
  NoDup order → Forall (λ i, (i < length members)%nat) order →
  Forall (λ i, i ∈ order ∨ vs !! i = Some (VOptional None))
    (seq 0 (length members)) →
  ∃ n, ∀ fuel, (n ≤ fuel)%nat →
    Json.parse fuel (Class members)
      (Tokenizer.document
         (Token.StartObjectToken
          :: keyed_members members tss order
          ++ [Token.EndObjectToken size]))
    = Done (ParseResult.Ok (VClass vs)).
Proof.
  intros Hexact Htype Hsafe Hreads Hnd Hlt Hcover.
  inversion Hexact as [| | | | | |fs Hnames Hfields]; subst.
  inversion Htype as [| | | | | | | |fs ms Hms]; subst.
  cbn [present_absent] in Hsafe.
  pose proof (members_parse_back _ _ _ Hfields Hms Hsafe Hreads) as Hall.
  apply (uniform_fuel3 (λ n f m tsv, parses_back_at n f.2 m tsv))
    in Hall as [N Hall];
    [|intros; by eapply parses_back_at_mono].
  exists (N + length order + 2)%nat. intros [|fuel] Hfuel; [lia|].
  unfold Json.parse, Tokenizer.document. rewrite events_cons.
  change (TokenStream.ContextTokenStream ?a) with (fresh [] a false).
  cbn [Deserializer_parse].
  unfold DeserializationHelper.json_parse, DeserializationHelper.parse_object.
  rewrite (next_fresh _ [] [Path.Object None]) by done. cbn [bind].
  change (Token.is_of_type _ _) with true. cbn [negb].
  replace (after_first _ true) with false
    by by destruct (keyed_members _ _ _).
  assert (∀ i m, members !! i = Some m → i ∉ order →
                 vs !! i = Some (VOptional None) ∧ ∃ T', m.2 = Optional T')
    as Habsent.
  { intros i m Hm Hi. rewrite Forall_forall in Hcover.
    destruct (Hcover i) as [?|Hv]; [|done|].
    { apply elem_of_seq. apply lookup_lt_Some in Hm. lia. }
    split; [done|].
    pose proof (Forall2_lookup_lr _ _ _ _ _ _ Hms Hm Hv) as Hty.
    inversion Hty. by eexists. }
  destruct (object_loop_prefix N members _ vs tss Hnames eq_refl Hall
              order [] (map (λ member, default_value member.2) members)
              fuel (fuel - length order) [] None true []
              [Token.EndObjectToken size])
    as (obj' & key1 & Hloop & Hlen & Hobj'); [done|done| |lia|done|].
  { by rewrite length_map. }
  cbn [app] in Hloop. rewrite descriptors_in_nil in Hloop.
  replace (length order + (fuel - length order))%nat with fuel in Hloop
    by lia.
  rewrite Hloop.
  destruct (fuel - length order)%nat as [|n'] eqn:Hn'; [lia|].
  match goal with
  | |- context [DeserializationHelper.object_loop ?p _ ?mp _ ?fs ?o] =>
      pose proof (object_loop_at_end p n' mp [] key1 true [] size fs o)
        as Hend
  end.
  cbn [app] in Hend. rewrite Hend. clear Hend.
  assert (forallb DeserializationHelper.is_ready
            (descriptors_in members order) = true) as ->.
  { apply forallb_forall. intros f Hf. apply list_elem_of_In in Hf.
    apply list_elem_of_lookup in Hf as [i Hi].
    unfold descriptors_in in Hi. rewrite list_lookup_imap in Hi.
    destruct (members !! i) as [m|] eqn:Hm; [|done].
    injection Hi as <-. unfold DeserializationHelper.is_ready. cbn.
    destruct (decide (i ∈ order)) as [Hin|Hin].
    + by rewrite bool_decide_eq_true_2.
    + destruct (Habsent _ _ Hm Hin) as [_ [T' Ho]].
      unfold DeserializationHelper.is_opt. cbn. rewrite Ho.
      apply orb_true_r. }
  cbn [bind].
  do 3 f_equal. apply list_eq. intros i. rewrite Hobj'.
  destruct (decide (i ∈ order)) as [Hin|Hin]; [done|].
  rewrite list_lookup_fmap.
  destruct (members !! i) as [m|] eqn:Hm; cbn.
  + destruct (Habsent _ _ Hm Hin) as [-> [T' Ho]]. by rewrite Ho.
  + symmetry. apply lookup_ge_None.
    apply lookup_ge_None in Hm.
    apply Forall2_length in Hms. lia.
Qed.

Lemma record_members_in_any_order_witness :
  ∃ n, ∀ fuel, (n ≤ fuel)%nat →
    Json.parse fuel
      (Class [("id", Value (integer_t int));
              ("note", Optional (Value string_t));
              ("tags", ArrayLike std_vector (Value string_t))])
      (Tokenizer.document
         [Token.StartObjectToken;
          Token.KeyToken "tags"; Token.StartArrayToken;
            Token.StringToken "a"; Token.EndArrayToken 1;
          Token.KeyToken "id"; Token.UintToken 7;
          Token.EndObjectToken 2])
    = Done (ParseResult.Ok
              (VClass [VInteger 7; VOptional None;
                       VArray std_vector [VString "a"]])).
Proof.
  apply (record_members_in_any_order
           [("id", Value (integer_t int));
            ("note", Optional (Value string_t));
            ("tags", ArrayLike std_vector (Value string_t))]
           [VInteger 7; VOptional None; VArray std_vector [VString "a"]]
           [[Token.UintToken 7]; [Token.NullToken];
            [Token.StartArrayToken; Token.StringToken "a";
             Token.EndArrayToken 1]]
           [2; 0]%nat 2).
  - repeat (constructor || compute_done).
  - repeat (constructor; try (unfold representable; cbn; lia));
      reflexivity.
  - reflexivity.
  - repeat (apply Forall3_cons; [vm_compute; repeat constructor|]);
      apply Forall3_nil.
  - compute_done.
  - repeat constructor.
  - repeat constructor; compute_done.
Defined.

(** ** The overload for optionals *)

(** X7: the overload for [std::optional<T>] looks at the next token.  On
    [null] it returns the absent optional, and consumes the [null]
    unless the cursor has recorded an error; on any other token, with no
    error recorded, it returns what [parse<T>] returns on the same
    input, a value wrapped as the present optional, an error as it
    is. *)
Theorem optional_overload fuel T s token s' :
  TokenStream.peek s = Done (Some token, s') →
  if Token.is_of_type TokenType.Null token then
    ∃ s2,
      Deserializer_parse (S fuel) (Optional T) s
      = Done (ParseResult.Ok (VOptional None), s2)
      ∧ (TokenStream.has_error s' = false → s2 = (TokenStream.token s').2)
      ∧ (TokenStream.has_error s' = true → s2 = s')
  else
    TokenStream.has_error s' = false →
    Deserializer_parse (S fuel) (Optional T) s
    = match Deserializer_parse fuel T s with
      | Done (ParseResult.Ok v, s2) =>
          Done (ParseResult.Ok (VOptional (Some v)), s2)
      | r => r
      end.
Proof.
  intros Hpeek.
  pose proof (peek_spec _ _ _ Hpeek) as (Htok & Hrest & _).
  cbn [Deserializer_parse]. unfold Deserializer.parse_optional.
  rewrite Hpeek. cbn [bind].
  destruct (Token.is_of_type TokenType.Null token) eqn:Hnull.
  - rewrite (next_idle s') by done.
    unfold TokenStream.has_token. rewrite <- Htok.
    destruct (TokenStream.has_error s') eqn:He; cbn [orb negb andb bind].
    + eexists. split; [reflexivity|]. split; done.
    + unfold TokenStream.is_complete, TokenStream.has_token.
      rewrite <- Htok. rewrite andb_false_r. cbn [orb negb andb bind].
      eexists. split; [reflexivity|]. split; done.
  - intros He.
    rewrite <- (parse_after_peek fuel T _ _ _ Hpeek He).
    destruct (Deserializer_parse fuel T s') as [[[v|ty e] s2]| |]; done.
Qed.

Lemma optional_overload_witness :
  let s := TokenStream.ContextTokenStream
             (Tokenizer.document [Token.BoolToken true]) in
  Deserializer_parse 2 (Optional (Value bool_t)) s
  = match Deserializer_parse 1 (Value bool_t) s with
    | Done (ParseResult.Ok v, s2) =>
        Done (ParseResult.Ok (VOptional (Some v)), s2)
    | r => r
    end.
Proof.
  exact (optional_overload 1 (Value bool_t)
           (TokenStream.ContextTokenStream
              (Tokenizer.document [Token.BoolToken true]))
           (Token.BoolToken true) _ eq_refl eq_refl).
Defined.

(** ** Repeated elements in an array *)

Lemma array_emplace_vector l acc :
  fold_left (array_emplace std_vector) l acc = acc ++ l.
Proof.
  revert acc. induction l as [|x l IH]; intros acc; cbn [fold_left].
  - by rewrite app_nil_r.
  - rewrite IH. cbn. by rewrite <- app_assoc.
Qed.

Lemma array_emplace_fold_sub k l acc x :
  x ∈ fold_left (array_emplace k) l acc → x ∈ acc ∨ x ∈ l.
Proof.
  revert acc. induction l as [|y l IH]; intros acc; cbn [fold_left].
  - by left.
  - intros H. apply IH in H as [H|H]; [|right; by right].
    assert (array_emplace k acc y = acc
            ∨ array_emplace k acc y = acc ++ [y]) as [Heq|Heq].
    { unfold array_emplace. destruct k; [|destruct (existsb _ _)..]; auto. }
    + rewrite Heq in H. by left.
    + rewrite Heq in H. apply elem_of_app in H as [H|H]; [by left|].
      apply list_elem_of_singleton in H as ->. right. by left.
Qed.

Lemma no_duplicates_fold k l acc :
  no_duplicates k acc → no_duplicates k (fold_left (array_emplace k) l acc).
Proof.
  revert acc. induction l as [|x l IH]; intros acc H; [done|].
  cbn [fold_left]. apply IH. by apply no_duplicates_emplace.
Qed.

(** X20: an array text parsed into an array-like container: the elements are
    entered one after the other with the container's [emplace].  A
    vector gets every element, in the order of the text; a set or an
    unordered set gets an element only when it holds no equal one, so of
    equal elements the first stays, the container holds no element
    twice and nothing that the text does not give.  No error is raised
    for a repeated element. *)
Theorem array_elements_are_emplaced k T (elements : list JValue) tss size :
  exact_type T →
  Forall2 (λ x ts, has_type T x ∧ present_absent x = false
                   ∧ Forall2 Tokenizer.reads (Json.dump T x) ts)
    elements tss →
  ∃ n, ∀ fuel, (n ≤ fuel)%nat →
    ∃ l,
      Json.parse fuel (ArrayLike k T)
        (Tokenizer.document
           (Token.StartArrayToken :: concat tss
            ++ [Token.EndArrayToken size]))
      = Done (ParseResult.Ok (VArray k l))
      ∧ l = fold_left (array_emplace k) elements []
      ∧ (k = std_vector → l = elements)
      ∧ no_duplicates k l
      ∧ (∀ x, x ∈ l → x ∈ elements).
Proof.
  intros Hexact Helements.
  assert (Forall2 (λ x ts, ∃ n, parses_back_at n T x ts) elements tss)
    as Hall.
  { eapply Forall2_impl; [exact Helements|].
    intros x ts (Ht & Hs & Hr). by apply (parses_back_dump x). }
  apply (uniform_fuel (λ n x ts, parses_back_at n T x ts))
    in Hall as [N Hall];
    [|intros; by eapply parses_back_at_mono].
  exists (N + length elements + 2)%nat. intros [|fuel] Hfuel; [lia|].
  exists (fold_left (array_emplace k) elements []).
  split; [|split; [done|split; [|split]]].
  - unfold Json.parse, Tokenizer.document. rewrite events_cons.
    change (TokenStream.ContextTokenStream ?a) with (fresh [] a false).
    rewrite (parse_fresh _ _ Token.StartArrayToken []
               (Path.start_array []) _ _ eq_refl).
    cbn [Deserializer_parse]. unfold Deserializer.parse_array_like.
    rewrite next_primed. cbn [bind].
    change (Token.is_of_type _ _) with true. cbn [negb].
    replace (after_first _ true) with false by by destruct (concat _).
    unfold Path.start_array.
    by rewrite (array_loop_elements N T k elements tss Hall) by lia.
  - intros ->. by rewrite array_emplace_vector.
  - by apply no_duplicates_fold.
  - intros x Hx. apply array_emplace_fold_sub in Hx as [Hx|Hx]; [|done].
    by apply not_elem_of_nil in Hx.
Qed.

Lemma array_elements_are_emplaced_witness :
  ∃ n, ∀ fuel, (n ≤ fuel)%nat →
    ∃ l,
      Json.parse fuel (ArrayLike std_set (Value (integer_t int)))
        (Tokenizer.document
           [Token.StartArrayToken; Token.UintToken 3; Token.IntToken (-1);
            Token.UintToken 3; Token.EndArrayToken 3])
      = Done (ParseResult.Ok (VArray std_set l))
      ∧ l = [VInteger 3; VInteger (-1)].
Proof.
  destruct (array_elements_are_emplaced std_set (Value (integer_t int))
              [VInteger 3; VInteger (-1); VInteger 3]
              [[Token.UintToken 3]; [Token.IntToken (-1)];
               [Token.UintToken 3]] 3) as [n H].
  - constructor.
  - repeat (constructor; try (unfold representable; cbn; lia)).
  - exists n. intros fuel Hfuel. destruct (H fuel Hfuel) as (l & Hl & -> & _).
    eexists. split; [exact Hl|reflexivity].
Defined.

(** ** The loops end *)

Section Progress.

Import TokenStream ParseResult Deserializer.

Lemma acquire_token_progress s b s' :
  orderly s → acquire_token s = Done (b, s') →
  orderly s' ∧ (avail s' ≤ avail s)%nat.
Proof.
  intros [Hans Hnull]. unfold acquire_token.
  destruct (has_error s || is_complete s) eqn:Hs.
  { intros [= <- <-]. done. }
  apply orb_false_iff in Hs as [He _].
  destruct (has_token s) eqn:Ht; cbn [bind].
  { intros [= <- <-]. done. }
  unfold advance, avail, unread, orderly, Reader.IterativeParseNext in *.
  rewrite Ht.
  assert (m_handler s = None) as Hh.
  { unfold has_token in Ht. by destruct (m_handler s). }
  rewrite Hh. unfold has_error in He.
  destruct (m_error s) as [|] eqn:Hm; [done|].
  destruct (m_reader s) as [[|a rest] c]; cbn [Reader.answers] in *.
  - cbn. intros [= <- <-]. cbn. split; [|lia]. split; done.
  - apply Forall_cons in Hans as [Ha Hans].
    destruct (Reader.failure a) as [code|] eqn:Hf; cbn.
    + intros [= <- <-]. cbn. split.
      * split; [done|]. intros _. destruct (Reader.dispatched a); [|done].
        by apply Ha.
      * destruct (Reader.dispatched a); cbn; lia.
    + destruct (Reader.dispatched a) as [tok|]; cbn.
      * destruct (context s); [destruct (on_advance tok (m_path s))|];
          cbn; [|done|]; intros [= <- <-]; cbn; rewrite ?Hm;
          (split; [|lia]); split; done.
      * intros [= <- <-]. cbn. split; [|lia]. split; done.
Qed.

Lemma next_progress s tok s' :
  orderly s → next s = Done (tok, s') →
  orderly s' ∧ (avail s' ≤ avail s)%nat
  ∧ (tok ≠ None → (avail s' < avail s)%nat).
Proof.
  intros Hs. unfold next.
  destruct (acquire_token s) as [[b s1]| |] eqn:E; [|done..]. cbn [bind].
  destruct (acquire_token_progress _ _ _ Hs E) as [[Hans Hnull] Hle].
  pose proof (acquire_token_result _ _ _ E) as Hb.
  destruct b; intros [= <- <-].
  - symmetry in Hb. apply andb_true_iff in Hb as [_ Ht].
    unfold avail, unread, has_token in *. cbn.
    destruct (m_handler s1); [|done].
    split; [split; done|]. split; [lia|]. intros _. lia.
  - split; [done|]. split; [done|]. done.
Qed.

Lemma peek_progress s tok s' :
  orderly s → peek s = Done (tok, s') →
  orderly s' ∧ (avail s' ≤ avail s)%nat ∧ tok = m_handler s' ∧ at_rest s'.
Proof.
  intros Hs Hpeek.
  pose proof (peek_spec _ _ _ Hpeek) as (Htok & Hrest & _).
  unfold peek in Hpeek.
  destruct (acquire_token s) as [[b s1]| |] eqn:E; [|done..].
  cbn in Hpeek. injection Hpeek as _ <-.
  destruct (acquire_token_progress _ _ _ Hs E) as [Ho Hle]. done.
Qed.

Lemma next_consumes_null s tok s' :
  orderly s → at_rest s → m_handler s = Some Token.NullToken →
  next s = Done (tok, s') →
  orderly s' ∧ (avail s' < avail s)%nat.
Proof.
  intros Hs Hrest Hh Hnext.
  destruct (next_progress _ _ _ Hs Hnext) as (Ho & _ & Hlt).
  split; [done|]. apply Hlt.
  rewrite (next_idle s) in Hnext by done.
  destruct Hs as [_ Hnull].
  destruct (has_error s) eqn:He; [by destruct (Hnull eq_refl)|].
  unfold is_complete, has_token in Hnext. rewrite Hh in Hnext.
  rewrite andb_false_r in Hnext. cbn in Hnext.
  injection Hnext as <- _. by rewrite Hh.
Qed.

Lemma next_returns s : next s ≠ OutOfFuel.
Proof.
  unfold next, acquire_token.
  destruct (has_error s || is_complete s); [done|].
  destruct (has_token s); cbn [bind].
  { by destruct (has_token s). }
  unfold advance.
  destruct (Reader.IterativeParseNext (m_reader s)) as [[token result] r].
  destruct result; cbn [bind].
  { by destruct (has_token _). }
  destruct (match token with Some _ => token | None => m_handler s end);
    cbn.
  - destruct (context s); [destruct (on_advance _ _)|]; cbn; done.
  - done.
Qed.

Lemma peek_returns s : peek s ≠ OutOfFuel.
Proof.
  unfold peek, acquire_token.
  destruct (has_error s || is_complete s); [done|].
  destruct (has_token s); cbn [bind]; [done|].
  unfold advance.
  destruct (Reader.IterativeParseNext (m_reader s)) as [[token result] r].
  destruct result; cbn [bind]; [done|].
  destruct (match token with Some _ => token | None => m_handler s end);
    cbn.
  - destruct (context s); [destruct (on_advance _ _)|]; cbn; done.
  - done.
Qed.

End Progress.

Section ProgressOverloads.

Import TokenStream ParseResult Deserializer.

Lemma no_token_not_ok {A : Type} s : is_ok (@no_token A s) = false.
Proof. unfold no_token. by destruct (m_error s). Qed.

Lemma parse_json_value_progress V : progresses (parse_json_value V).
Proof.
  intros s r s' Hs. unfold parse_json_value.
  destruct (next s) as [[[token|] s1]| |] eqn:E; cbn [bind]; [| |done..];
    intros [= <- <-];
    destruct (next_progress _ _ _ Hs E) as (Ho & Hle & Hlt).
  - split; [done|]. split; [done|]. intros _. by apply Hlt.
  - split; [done|]. split; [done|]. by rewrite no_token_not_ok.
Qed.

Section Overloads.

Variable parse : TokenStream.t → Parsed JValue.
Hypothesis parse_progresses : progresses parse.

Lemma parse_optional_progress : progresses (parse_optional parse).
Proof.
  intros s r s' Hs. unfold parse_optional.
  destruct (peek s) as [[[token|] s1]| |] eqn:E; cbn [bind]; [| |done..];
    destruct (peek_progress _ _ _ Hs E) as (Ho & Hle & Htok & Hrest).
  - destruct (Token.is_of_type TokenType.Null token) eqn:Hnull.
    + destruct token; try done.
      destruct (next s1) as [[tok s2]| |] eqn:E2; cbn [bind]; [|done..].
      intros [= <- <-].
      destruct (next_consumes_null _ _ _ Ho Hrest (eq_sym Htok) E2)
        as [Ho2 Hlt].
      split; [done|]. split; [lia|]. intros _. lia.
    + destruct (parse s1) as [[[v|ty e] s2]| |] eqn:E2; cbn [bind];
        [| |done..]; intros [= <- <-];
        destruct (parse_progresses _ _ _ Ho E2) as (Ho2 & Hle2 & Hlt2).
      * split; [done|]. split; [lia|]. intros _.
        specialize (Hlt2 eq_refl). lia.
      * split; [done|]. split; [lia|]. done.
  - intros [= <- <-]. split; [done|]. split; [done|].
    by rewrite no_token_not_ok.
Qed.

Lemma array_loop_progress n k acc s r s' :
  orderly s → array_loop parse n k acc s = Done (r, s') →
  orderly s' ∧ (avail s' ≤ avail s)%nat.
Proof.
  revert acc s. induction n as [|n IH]; intros acc s Hs; [done|].
  cbn [array_loop].
  destruct (peek s) as [[[token|] s1]| |] eqn:E; cbn [bind]; [| |done..];
    destruct (peek_progress _ _ _ Hs E) as (Ho & Hle & Htok & Hrest).
  - destruct (Token.is_of_type TokenType.EndArray token).
    + destruct (next s1) as [[tok s2]| |] eqn:E2; cbn [bind]; [|done..].
      intros [= <- <-].
      destruct (next_progress _ _ _ Ho E2) as (Ho2 & Hle2 & _).
      split; [done|lia].
    + destruct (parse s1) as [[[v|ty e] s2]| |] eqn:E2; cbn [bind];
        [| |done..];
        destruct (parse_progresses _ _ _ Ho E2) as (Ho2 & Hle2 & _).
      * intros H. destruct (IH _ _ Ho2 H) as [Ho3 Hle3].
        split; [done|lia].
      * intros [= <- <-]. split; [done|lia].
  - intros [= <- <-]. done.
Qed.

Lemma parse_array_like_progress n k : progresses (parse_array_like parse n k).
Proof.
  intros s r s' Hs. unfold parse_array_like.
  destruct (next s) as [[[token|] s1]| |] eqn:E; cbn [bind]; [| |done..];
    destruct (next_progress _ _ _ Hs E) as (Ho & Hle & Hlt).
  - specialize (Hlt ltac:(done)).
    destruct (negb (Token.is_of_type TokenType.StartArray token)).
    + intros [= <- <-]. split; [done|]. split; [lia|]. intros _. lia.
    + intros H. destruct (array_loop_progress _ _ _ _ _ _ Ho H)
        as [Ho2 Hle2].
      split; [done|]. split; [lia|]. intros _. lia.
  - intros [= <- <-]. split; [done|]. split; [done|].
    by rewrite no_token_not_ok.
Qed.

Lemma dict_loop_progress n k acc s r s' :
  orderly s → dict_loop parse n k acc s = Done (r, s') →
  orderly s' ∧ (avail s' ≤ avail s)%nat.
Proof.
  revert acc s. induction n as [|n IH]; intros acc s Hs; [done|].
  cbn [dict_loop].
  destruct (next s) as [[[token|] s1]| |] eqn:E; cbn [bind]; [| |done..];
    destruct (next_progress _ _ _ Hs E) as (Ho & Hle & _).
  - destruct token; try (intros [= <- <-]; done).
    destruct (parse s1) as [[[v|ty e] s2]| |] eqn:E2; cbn [bind];
      [| |done..];
      destruct (parse_progresses _ _ _ Ho E2) as (Ho2 & Hle2 & _).
    + intros H. destruct (IH _ _ Ho2 H) as [Ho3 Hle3].
      split; [done|lia].
    + intros [= <- <-]. split; [done|lia].
  - intros [= <- <-]. done.
Qed.

Lemma parse_dict_like_progress n k : progresses (parse_dict_like parse n k).
Proof.
  intros s r s' Hs. unfold parse_dict_like.
  destruct (next s) as [[[token|] s1]| |] eqn:E; cbn [bind]; [| |done..];
    destruct (next_progress _ _ _ Hs E) as (Ho & Hle & Hlt).
  - specialize (Hlt ltac:(done)).
    destruct (negb (Token.is_of_type TokenType.StartObject token)).
    + intros [= <- <-]. split; [done|]. split; [lia|]. intros _. lia.
    + intros H. destruct (dict_loop_progress _ _ _ _ _ _ Ho H)
        as [Ho2 Hle2].
      split; [done|]. split; [lia|]. intros _. lia.
  - intros [= <- <-]. split; [done|]. split; [done|].
    by rewrite no_token_not_ok.
Qed.

End Overloads.

Section Helper.

Import DeserializationHelper.
Variable parse : JType → TokenStream.t → Parsed JValue.
Hypothesis parse_progresses : ∀ T, progresses (parse T).

Lemma object_loop_progress n map s fields object r s' fields' object' :
  orderly s →
  object_loop parse n map s fields object = Done (r, s', fields', object') →
  orderly s' ∧ (avail s' ≤ avail s)%nat.
Proof.
  revert s fields object. induction n as [|n IH]; intros s fields object Hs;
    [done|].
  cbn [object_loop].
  destruct (next s) as [[[token|] s1]| |] eqn:E; cbn [bind]; [| |done..];
    destruct (next_progress _ _ _ Hs E) as (Ho & Hle & _).
  - destruct token;
      try (change (Token.is_of_type TokenType.EndObject _) with false;
           cbn match; intros [= <- <- <- <-]; done).
    + change (Token.is_of_type TokenType.EndObject _) with false. cbn match.
      destruct (map !! value) as [index|]; [|by intros [= <- <- <- <-]].
      rewrite parse_field_unfold.
      destruct (fields !! index) as [field|]; [|done].
      destruct (is_set field); [by intros [= <- <- <- <-]|].
      destruct (parse (type field) s1) as [[[v|ty e] s2]| |] eqn:E2;
        cbn [bind]; [| |done..];
        destruct (parse_progresses _ _ _ _ Ho E2) as (Ho2 & Hle2 & _).
      * intros H. destruct (IH _ _ _ Ho2 H) as [Ho3 Hle3].
        split; [done|lia].
      * intros [= <- <- <- <-]. split; [done|lia].
    + change (Token.is_of_type TokenType.EndObject _) with true. cbn match.
      destruct (forallb is_ready fields); [by intros [= <- <- <- <-]|].
      destruct fields; by intros [= <- <- <- <-].
  - intros [= <- <- <- <-]. done.
Qed.

Lemma json_parse_progress n members : progresses (json_parse parse n members).
Proof.
  intros s r s' Hs. unfold json_parse, parse_object.
  destruct (next s) as [[[token|] s1]| |] eqn:E; cbn [bind]; [| |done..];
    destruct (next_progress _ _ _ Hs E) as (Ho & Hle & Hlt).
  - specialize (Hlt ltac:(done)).
    destruct (negb (Token.is_of_type TokenType.StartObject token)).
    + cbn [bind]. intros [= <- <-]. split; [done|]. split; [lia|].
      intros _. lia.
    + destruct (object_loop _ _ _ _ _ _) as [[[[u s2] fields2] object2]| |]
        eqn:E2; cbn [bind]; [|done..].
      destruct (object_loop_progress _ _ _ _ _ _ _ _ _ Ho E2) as [Ho2 Hle2].
      destruct u as [[]|ty e]; intros [= <- <-]; (split; [done|]);
        (split; [lia|]); intros _; lia.
  - unfold no_token. destruct (m_error s1); cbn; intros [= <- <-];
      (split; [done|]); split; done.
Qed.

End Helper.

Lemma Deserializer_parse_progress fuel T :
  progresses (Deserializer_parse fuel T).
Proof.
  revert T. induction fuel as [|fuel IH]; intros T; [done|].
  destruct T; cbn [Deserializer_parse].
  - apply parse_json_value_progress.
  - by apply parse_optional_progress.
  - by apply parse_array_like_progress.
  - by apply parse_dict_like_progress.
  - by apply json_parse_progress.
Qed.

End ProgressOverloads.

Section Ends.

Import TokenStream ParseResult Deserializer.

Section Overloads.

Variable parse : TokenStream.t → Parsed JValue.
Variable m : nat.
Hypothesis parse_progresses : progresses parse.
Hypothesis parse_ends :
  ∀ s, orderly s → (avail s ≤ m)%nat → parse s ≠ OutOfFuel.

Lemma parse_optional_ends s :
  orderly s → (avail s ≤ m)%nat → parse_optional parse s ≠ OutOfFuel.
Proof.
  intros Hs Hm. unfold parse_optional.
  pose proof (peek_returns s) as Hp.
  destruct (peek s) as [[[token|] s1]| |] eqn:E; cbn [bind]; [| |done..];
    [|done].
  destruct (peek_progress _ _ _ Hs E) as (Ho & Hle & _).
  destruct (Token.is_of_type TokenType.Null token).
  - pose proof (next_returns s1).
    by destruct (next s1) as [[tok s2]| |].
  - pose proof (parse_ends s1 Ho ltac:(lia)).
    by destruct (parse s1) as [[[v|ty e] s2]| |].
Qed.

Lemma array_loop_ends n k acc s :
  orderly s → (avail s ≤ m)%nat → (avail s < n)%nat →
  array_loop parse n k acc s ≠ OutOfFuel.
Proof.
  revert acc s. induction n as [|n IH]; intros acc s Hs Hm Hn; [lia|].
  cbn [array_loop].
  pose proof (peek_returns s) as Hp.
  destruct (peek s) as [[[token|] s1]| |] eqn:E; cbn [bind]; [| |done..];
    [|done].
  destruct (peek_progress _ _ _ Hs E) as (Ho & Hle & _).
  destruct (Token.is_of_type TokenType.EndArray token).
  - pose proof (next_returns s1).
    by destruct (next s1) as [[tok s2]| |].
  - pose proof (parse_ends s1 Ho ltac:(lia)).
    destruct (parse s1) as [[[v|ty e] s2]| |] eqn:E2; cbn [bind]; try done.
    destruct (parse_progresses _ _ _ Ho E2) as (Ho2 & Hle2 & Hlt2).
    specialize (Hlt2 eq_refl). apply IH; [done|lia|lia].
Qed.

Lemma parse_array_like_ends n k s :
  orderly s → (avail s ≤ m)%nat → (avail s ≤ n)%nat →
  parse_array_like parse n k s ≠ OutOfFuel.
Proof.
  intros Hs Hm Hn. unfold parse_array_like.
  pose proof (next_returns s) as Hp.
  destruct (next s) as [[[token|] s1]| |] eqn:E; cbn [bind]; [| |done..];
    [|done].
  destruct (next_progress _ _ _ Hs E) as (Ho & Hle & Hlt).
  specialize (Hlt ltac:(done)).
  destruct (negb (Token.is_of_type TokenType.StartArray token)); [done|].
  apply array_loop_ends; [done|lia|lia].
Qed.

Lemma dict_loop_ends n k acc s :
  orderly s → (avail s ≤ m)%nat → (avail s < n)%nat →
  dict_loop parse n k acc s ≠ OutOfFuel.
Proof.
  revert acc s. induction n as [|n IH]; intros acc s Hs Hm Hn; [lia|].
  cbn [dict_loop].
  pose proof (next_returns s) as Hp.
  destruct (next s) as [[[token|] s1]| |] eqn:E; cbn [bind]; [| |done..];
    [|done].
  destruct (next_progress _ _ _ Hs E) as (Ho & Hle & Hlt).
  specialize (Hlt ltac:(done)).
  destruct token; try done.
  pose proof (parse_ends s1 Ho ltac:(lia)).
  destruct (parse s1) as [[[v|ty e] s2]| |] eqn:E2; cbn [bind]; try done.
  destruct (parse_progresses _ _ _ Ho E2) as (Ho2 & Hle2 & _).
  apply IH; [done|lia|lia].
Qed.

Lemma parse_dict_like_ends n k s :
  orderly s → (avail s ≤ m)%nat → (avail s ≤ n)%nat →
  parse_dict_like parse n k s ≠ OutOfFuel.
Proof.
  intros Hs Hm Hn. unfold parse_dict_like.
  pose proof (next_returns s) as Hp.
  destruct (next s) as [[[token|] s1]| |] eqn:E; cbn [bind]; [| |done..];
    [|done].
  destruct (next_progress _ _ _ Hs E) as (Ho & Hle & Hlt).
  specialize (Hlt ltac:(done)).
  destruct (negb (Token.is_of_type TokenType.StartObject token)); [done|].
  apply dict_loop_ends; [done|lia|lia].
Qed.

End Overloads.

Section Helper.

Import DeserializationHelper.
Variable parse : JType → TokenStream.t → Parsed JValue.
Variable m d : nat.
Hypothesis parse_progresses : ∀ T, progresses (parse T).
Hypothesis parse_ends :
  ∀ T s, (depth T ≤ d)%nat → orderly s → (avail s ≤ m)%nat →
         parse T s ≠ OutOfFuel.

Lemma object_loop_ends n map s fields object :
  Forall (λ f, (depth (type f) ≤ d)%nat) fields →
  orderly s → (avail s ≤ m)%nat → (avail s < n)%nat →
  object_loop parse n map s fields object ≠ OutOfFuel.
Proof.
  revert s fields object. induction n as [|n IH];
    intros s fields object Hfields Hs Hm Hn; [lia|].
  cbn [object_loop].
  pose proof (next_returns s) as Hp.
  destruct (next s) as [[[token|] s1]| |] eqn:E; cbn [bind]; [| |done..];
    [|done].
  destruct (next_progress _ _ _ Hs E) as (Ho & Hle & Hlt).
  specialize (Hlt ltac:(done)).
  destruct token;
    try (change (Token.is_of_type TokenType.EndObject _) with false;
         cbn match; done).
  - change (Token.is_of_type TokenType.EndObject _) with false. cbn match.
    destruct (map !! value) as [index|]; [|done].
    rewrite parse_field_unfold.
    destruct (fields !! index) as [field|] eqn:Hf; [|done].
    destruct (is_set field); [done|].
    assert (depth (type field) ≤ d)%nat as Hd.
    { rewrite Forall_forall in Hfields. apply Hfields.
      by eapply list_elem_of_lookup_2. }
    pose proof (parse_ends _ s1 Hd Ho ltac:(lia)).
    destruct (parse (type field) s1) as [[[v|ty e] s2]| |] eqn:E2;
      cbn [bind]; try done.
    destruct (parse_progresses _ _ _ _ Ho E2) as (Ho2 & Hle2 & _).
    apply IH; [|done|lia|lia].
    apply Forall_insert; [done|]. done.
  - change (Token.is_of_type TokenType.EndObject _) with true. cbn match.
    destruct (forallb is_ready fields); [done|]. by destruct fields.
Qed.

Lemma json_parse_ends n members s :
  Forall (λ f : string * JType, (depth f.2 ≤ d)%nat) members →
  orderly s → (avail s ≤ m)%nat → (avail s ≤ n)%nat →
  json_parse parse n members s ≠ OutOfFuel.
Proof.
  intros Hmembers Hs Hm Hn. unfold json_parse, parse_object.
  pose proof (next_returns s) as Hp.
  destruct (next s) as [[[token|] s1]| |] eqn:E; cbn [bind]; [| |done..].
  - destruct (next_progress _ _ _ Hs E) as (Ho & Hle & Hlt).
    specialize (Hlt ltac:(done)).
    destruct (negb (Token.is_of_type TokenType.StartObject token)); [done|].
    pose proof (object_loop_ends n (build_fields_map (fields_of members))
                  s1 (fields_of members)
                  (map (λ member, default_value member.2) members)) as Hl.
    destruct (object_loop _ _ _ _ _ _) as [[[[u s2] fields2] object2]| |];
      cbn [bind]; [by destruct u|done|].
    exfalso. apply Hl; [|done|lia|lia|done].
    apply Forall_forall. intros f Hf.
    apply list_elem_of_lookup in Hf as [i Hi].
    unfold fields_of in Hi. rewrite list_lookup_imap in Hi.
    destruct (members !! i) as [mb|] eqn:Hmb; [|done].
    injection Hi as <-. cbn. rewrite Forall_forall in Hmembers.
    apply Hmembers. by eapply list_elem_of_lookup_2.
  - unfold no_token. by destruct (m_error s1).
Qed.

End Helper.

Lemma depth_member (fields : list (string * JType)) :
  Forall (λ f, (depth f.2
                ≤ fold_right (λ f d, Nat.max (depth f.2) d) O fields)%nat)
    fields.
Proof.
  induction fields as [|f fields IH]; [constructor|].
  cbn [fold_right]. constructor; [lia|].
  eapply Forall_impl; [exact IH|]. intros f' Hf'. cbn in Hf'. lia.
Qed.

Lemma Deserializer_parse_ends fuel T s :
  orderly s → (avail s + depth T < fuel)%nat →
  Deserializer_parse fuel T s ≠ OutOfFuel.
Proof.
  revert T s. induction fuel as [|fuel IH]; intros T s Hs Hfuel; [lia|].
  destruct T; cbn [Deserializer_parse]; cbn [depth] in Hfuel.
  - unfold parse_json_value. pose proof (next_returns s).
    by destruct (next s) as [[[token|] s1]| |].
  - apply (parse_optional_ends _ (avail s)); [|done|lia].
    intros s1 Hs1 Hle. apply IH; [done|lia].
  - apply (parse_array_like_ends _ (avail s)); [| |done|lia|lia].
    + apply Deserializer_parse_progress.
    + intros s1 Hs1 Hle. apply IH; [done|lia].
  - apply (parse_dict_like_ends _ (avail s)); [| |done|lia|lia].
    + apply Deserializer_parse_progress.
    + intros s1 Hs1 Hle. apply IH; [done|lia].
  - apply (json_parse_ends _ (avail s)
             (fold_right (λ f d, Nat.max (depth f.2) d) O fields));
      [| |apply depth_member|done|lia|lia].
    + intros T. apply Deserializer_parse_progress.
    + intros T s1 HT Hs1 Hle. apply IH; [done|lia].
Qed.

End Ends.

(** X21: the loops of the overloads end.  Take a reader that never hands
    over [null] in a call that fails.  Then, whatever its answers and
    whatever the target type, [parse] comes to an end: it returns a
    result, or stops at an operation that has no defined behaviour, as
    soon as the bound on the calls and iterations exceeds the number of
    answers plus the depth of the type.  Every turn of a loop that does
    not leave it has consumed a token. *)
Theorem parse_comes_to_an_end fuel T json :
  Forall (λ a, Reader.failure a ≠ None →
               Reader.dispatched a ≠ Some Token.NullToken) json →
  (length json + depth T < fuel)%nat →
  Json.parse fuel T json ≠ OutOfFuel.
Proof.
  intros Hjson Hfuel. unfold Json.parse.
  pose proof (Deserializer_parse_ends fuel T
                (TokenStream.ContextTokenStream json)) as H.
  destruct (Deserializer_parse fuel T _) as [[r s']| |]; cbn [bind];
    [done|done|].
  exfalso. apply H; [|cbn; lia|done].
  split; [done|]. done.
Qed.

Lemma parse_comes_to_an_end_witness :
  Json.parse 6 (ArrayLike std_vector (Optional (Value bool_t)))
    [Reader.deliver Token.StartArrayToken false;
     Reader.deliver Token.NullToken false;
     Reader.mkAnswer None
       (Some (Reader.mkCode false "Invalid value.")) false]
  ≠ OutOfFuel.
Proof.
  apply parse_comes_to_an_end.
  - repeat constructor; done.
  - cbn. lia.
Defined.

(** ** Optionals in the values that a parse returns *)

Section Plain.

Import TokenStream ParseResult Deserializer.

Lemma default_value_plain T : present_absent (default_value T) = false.
Proof.
  induction T as [V|T IH|k T IH|k T IH|fields IH] using JType_nested_ind.
  - by destruct V.
  - done.
  - done.
  - done.
  - cbn. induction IH as [|f fields Hf _ IHf]; [done|].
    cbn. by rewrite Hf, IHf.
Qed.

Lemma existsb_app_false {A : Type} (f : A → bool) l x :
  existsb f l = false → f x = false → existsb f (l ++ [x]) = false.
Proof. intros Hl Hx. rewrite existsb_app, Hl. cbn. by rewrite Hx. Qed.

Lemma parse_json_value_plain V : plain (parse_json_value V).
Proof.
  intros s v s' H.
  apply parse_json_value_typed in H. inversion H; done.
Qed.

Section Overloads.

Variable parse : TokenStream.t → Parsed JValue.
Hypothesis parse_plain : plain parse.
Hypothesis parse_absent : absent_on_null parse.

Lemma parse_optional_plain : plain (parse_optional parse).
Proof.
  intros s v s'. unfold parse_optional.
  destruct (peek s) as [[[token|] s1]| |] eqn:E; cbn [bind]; [| |done..].
  - pose proof (peek_spec _ _ _ E) as (Htok & Hrest & _).
    destruct (Token.is_of_type TokenType.Null token) eqn:Hnull.
    + destruct (next s1) as [[tok s2]| |]; cbn [bind]; [|done..].
      by intros [= <- <-].
    + destruct (parse s1) as [[[x|ty e] s2]| |] eqn:E2; cbn [bind];
        [| |done..]; intros [= <- <-].
      pose proof (parse_plain _ _ _ E2) as Hx.
      destruct x as [| | | |[x|]| | |]; try done.
      apply (parse_absent _ _ Hrest) in E2.
      rewrite <- Htok in E2. injection E2 as ->. done.
  - unfold no_token. by destruct (m_error s1).
Qed.

Lemma parse_optional_absent : absent_on_null (parse_optional parse).
Proof.
  intros s s' Hrest. unfold parse_optional.
  rewrite (peek_idle s) by done.
  destruct (m_handler s) as [token|]; cbn [bind].
  - destruct (Token.is_of_type TokenType.Null token) eqn:Hnull.
    + by destruct token.
    + destruct (parse s) as [[[x|ty e] s2]| |]; cbn [bind]; done.
  - unfold no_token. by destruct (m_error s).
Qed.

Lemma array_loop_plain n k acc :
  existsb present_absent acc = false → plain (array_loop parse n k acc).
Proof.
  revert acc. induction n as [|n IH]; intros acc Hacc s v s'; [done|].
  cbn [array_loop].
  destruct (peek s) as [[[token|] s1]| |]; cbn [bind]; [| |done..].
  - destruct (Token.is_of_type TokenType.EndArray token).
    + destruct (next s1) as [[tok s2]| |]; cbn [bind]; [|done..].
      by intros [= <- <-].
    + destruct (parse s1) as [[[x|ty e] s2]| |] eqn:E; cbn [bind];
        [| |done..]; [|done].
      apply IH. apply parse_plain in E. unfold array_emplace.
      destruct k; [|destruct (existsb (value_eqb x) acc)..]; try done;
        by apply existsb_app_false.
  - unfold no_token. by destruct (m_error s1).
Qed.

Lemma parse_array_like_plain n k : plain (parse_array_like parse n k).
Proof.
  intros s v s'. unfold parse_array_like.
  destruct (next s) as [[[token|] s1]| |]; cbn [bind]; [| |done..].
  - destruct (negb (Token.is_of_type TokenType.StartArray token)); [done|].
    by apply array_loop_plain.
  - unfold no_token. by destruct (m_error s1).
Qed.

Lemma dict_loop_plain n k acc :
  existsb (λ e, present_absent e.2) acc = false →
  plain (dict_loop parse n k acc).
Proof.
  revert acc. induction n as [|n IH]; intros acc Hacc s v s'; [done|].
  cbn [dict_loop].
  destruct (next s) as [[[token|] s1]| |]; cbn [bind]; [| |done..].
  - destruct token; try done.
    + destruct (parse s1) as [[[x|ty e] s2]| |] eqn:E; cbn [bind];
        [| |done..]; [|done].
      apply IH. apply parse_plain in E. unfold dict_emplace.
      destruct (existsb (λ e, String.eqb value e.1) acc); [done|].
      by apply (existsb_app_false (λ e, present_absent e.2)).
    + by intros [= <- <-].
  - unfold no_token. by destruct (m_error s1).
Qed.

Lemma parse_dict_like_plain n k : plain (parse_dict_like parse n k).
Proof.
  intros s v s'. unfold parse_dict_like.
  destruct (next s) as [[[token|] s1]| |]; cbn [bind]; [| |done..].
  - destruct (negb (Token.is_of_type TokenType.StartObject token)); [done|].
    by apply dict_loop_plain.
  - unfold no_token. by destruct (m_error s1).
Qed.

End Overloads.

Section Helper.

Import DeserializationHelper.
Variable parse : JType → TokenStream.t → Parsed JValue.
Hypothesis parse_plain : ∀ T, plain (parse T).

Lemma existsb_insert_false {A : Type} (f : A → bool) l i x :
  existsb f l = false → f x = false → existsb f (<[i := x]> l) = false.
Proof.
  revert i. induction l as [|y l IH]; intros i Hl Hx; [done|].
  cbn in Hl. apply orb_false_iff in Hl as [Hy Hl].
  destruct i as [|i]; cbn.
  - by rewrite Hx, Hl.
  - by rewrite Hy, IH.
Qed.

Lemma object_loop_plain n map :
  ∀ s fields object s' fields' object',
    existsb present_absent object = false →
    object_loop parse n map s fields object
    = Done (Ok (), s', fields', object') →
    existsb present_absent object' = false.
Proof.
  induction n as [|n IH];
    intros s fields object s' fields' object' Hobject; [done|].
  cbn [object_loop].
  destruct (next s) as [[[token|] s1]| |]; cbn [bind]; [| |done..].
  - destruct token;
      try (change (Token.is_of_type TokenType.EndObject _) with false;
           cbn match; done).
    + change (Token.is_of_type TokenType.EndObject _) with false. cbn match.
      destruct (map !! value) as [index|]; [|done].
      rewrite parse_field_unfold.
      destruct (fields !! index) as [field|]; [|done].
      destruct (is_set field); [done|].
      destruct (parse (type field) s1) as [[[v|ty e] s2]| |] eqn:E;
        cbn [bind]; [| |done..]; [|done].
      apply IH. cbn [set snd]. apply existsb_insert_false; [done|].
      by eapply parse_plain.
    + change (Token.is_of_type TokenType.EndObject _) with true. cbn match.
      destruct (forallb is_ready fields).
      * by intros [= <- <- <-].
      * by destruct fields.
  - unfold no_token. by destruct (m_error s1).
Qed.

Lemma json_parse_plain n members : plain (json_parse parse n members).
Proof.
  intros s v s'. unfold json_parse, parse_object.
  destruct (next s) as [[[token|] s1]| |]; cbn [bind]; [| |done..].
  - destruct (negb (Token.is_of_type TokenType.StartObject token));
      [done|].
    destruct (object_loop _ _ _ _ _ _)
      as [[[[[[]|ty e] s2] fields2] object2]| |] eqn:E; cbn [bind];
      [| |done..]; [|done].
    intros [= <- <-]. cbn [present_absent].
    eapply object_loop_plain; [|exact E].
    clear. induction members as [|m members IH]; [done|].
    cbn. by rewrite default_value_plain, IH.
  - unfold no_token. by destruct (m_error s1).
Qed.

End Helper.

Lemma Deserializer_parse_plain fuel T :
  plain (Deserializer_parse fuel T) ∧ absent_on_null (Deserializer_parse fuel T).
Proof.
  revert T. induction fuel as [|fuel IH]; intros T; [done|].
  destruct T; cbn [Deserializer_parse].
  - split; [apply parse_json_value_plain|].
    intros s s' _ H. apply parse_json_value_typed in H. inversion H.
  - split; [apply parse_optional_plain; apply IH|].
    apply parse_optional_absent.
  - split; [apply parse_array_like_plain; apply IH|].
    intros s s' _ H.
    apply (parse_array_like_typed T) in H; [inversion H|].
    apply Deserializer_parse_typed.
  - split; [apply parse_dict_like_plain; apply IH|].
    intros s s' _ H.
    apply (parse_dict_like_typed T) in H; [inversion H|].
    apply Deserializer_parse_typed.
  - split; [apply json_parse_plain; intros T; apply IH|].
    intros s s' _ H.
    apply json_parse_typed in H; [inversion H|].
    intros T. apply Deserializer_parse_typed.
Qed.

End Plain.

(** X11: a value that the public [parse] returns never holds a present
    optional around an absent one: [null] always makes the outermost
    optional absent.  So every value that [parse] returns is one that
    a dump and a parse give back unchanged. *)
Theorem parse_never_nests_an_absent_optional fuel T json v :
  Json.parse fuel T json = Done (ParseResult.Ok v) →
  present_absent v = false.
Proof.
  unfold Json.parse.
  destruct (Deserializer_parse fuel T _) as [[r s']| |] eqn:E;
    cbn [bind]; [|done..].
  intros [= ->]. by eapply Deserializer_parse_plain.
Qed.

Lemma parse_never_nests_an_absent_optional_witness :
  present_absent (VArray std_vector [VOptional None]) = false.
Proof.
  apply (parse_never_nests_an_absent_optional 4
           (ArrayLike std_vector (Optional (Optional (Value bool_t))))
           (Tokenizer.document
              [Token.StartArrayToken; Token.NullToken;
               Token.EndArrayToken 1])).
  vm_compute. reflexivity.
Defined.

(** X12: parsing is stable under a dump: for a type built without
    floating-point scalars, with distinct field names in each record,
    the dump of a value that [parse] returned, on whatever text, parses
    back to that value. *)
Theorem parsed_values_round_trip fuel T json v tokens :
  exact_type T →
  Json.parse fuel T json = Done (ParseResult.Ok v) →
  Forall2 Tokenizer.reads (Json.dump T v) tokens →
  ∃ n, ∀ fuel', (n ≤ fuel')%nat →
    Json.parse fuel' T (Tokenizer.document tokens)
    = Done (ParseResult.Ok v).
Proof.
  intros Hexact Hparse Hreads.
  assert (has_type T v ∧ present_absent v = false) as [Htype Hsafe].
  { unfold Json.parse in Hparse.
    destruct (Deserializer_parse fuel T _) as [[r s']| |] eqn:E;
      cbn [bind] in Hparse; [|done..].
    injection Hparse as ->. split.
    - by eapply Deserializer_parse_typed.
    - by eapply Deserializer_parse_plain. }
  destruct (parses_back_dump v T tokens Hexact Htype Hsafe Hreads)
    as (n & token & tokens' & -> & _ & _ & H).
  exists n. intros fuel' Hfuel.
  destruct (H fuel' Hfuel [] true []) as (path' & Hadv & Hp).
  unfold Json.parse, Tokenizer.document. rewrite events_cons.
  change (TokenStream.ContextTokenStream ?a) with (fresh [] a false).
  by rewrite (parse_fresh _ _ _ _ _ _ _ Hadv), Hp.
Qed.

Lemma parsed_values_round_trip_witness :
  ∃ n, ∀ fuel', (n ≤ fuel')%nat →
    Json.parse fuel' (DictLike std_map (Value (integer_t int)))
      (Tokenizer.document
         [Token.StartObjectToken; Token.KeyToken "a"; Token.UintToken 1;
          Token.EndObjectToken 1])
    = Done (ParseResult.Ok (VDict std_map [("a", VInteger 1)])).
Proof.
  apply (parsed_values_round_trip 4
           (DictLike std_map (Value (integer_t int)))
           (Tokenizer.document
              [Token.StartObjectToken;
               Token.KeyToken "a"; Token.UintToken 1;
               Token.KeyToken "a"; Token.UintToken 2;
               Token.EndObjectToken 2])).
  - repeat constructor.
  - vm_compute. reflexivity.
  - vm_compute. repeat constructor.
Defined.

(** ** What ends the members of a record *)

Section AfterMembers.

Import DeserializationHelper.

(** [parse<T>] for a class on an object that gives the members with the
    indices [order] and then goes on with [more]: the loop of
    [parse_object] reaches [more] with those members set and stored. *)
Lemma record_after_members members vs tss order more :
  exact_type (Class members) → has_type (Class members) (VClass vs) →
  present_absent (VClass vs) = false →
  Forall3 (λ f v ts, Forall2 Tokenizer.reads (Json.dump f.2 v) ts)
    members vs tss →
  NoDup order → Forall (λ i, (i < length members)%nat) order →
  more ≠ [] →
  ∃ N, ∀ fuel, (N ≤ fuel)%nat →
    ∃ obj' key1,
      Json.parse (S (length order + fuel)) (Class members)
        (Tokenizer.document
           (Token.StartObjectToken :: keyed_members members tss order
            ++ more))
      = (let* '(r, _, _, object) :=
           object_loop (Deserializer_parse (length order + fuel)) fuel
             (build_fields_map (fields_of members))
             (fresh [Path.Object key1] (Tokenizer.events more true [])
                false)
             (descriptors_in members order) obj' in
         match r with
         | ParseResult.Ok _ => Done (ParseResult.Ok (VClass object))
         | ParseResult.Err error_type e =>
             Done (ParseResult.Err error_type e)
         end)
      ∧ ∀ i, obj' !! i = if decide (i ∈ order) then vs !! i
                         else default_value <$> members.*2 !! i.
Proof.
  intros Hexact Htype Hsafe Hreads Hnd Hlt Hmore.
  inversion Hexact as [| | | | | |fs Hnames Hfields]; subst.
  inversion Htype as [| | | | | | | |fs ms Hms]; subst.
  cbn [present_absent] in Hsafe.
  pose proof (members_parse_back _ _ _ Hfields Hms Hsafe Hreads) as Hall.
  apply (uniform_fuel3 (λ n f m tsv, parses_back_at n f.2 m tsv))
    in Hall as [N Hall];
    [|intros; by eapply parses_back_at_mono].
  exists N. intros fuel Hfuel.
  destruct (object_loop_prefix N members _ vs tss Hnames eq_refl Hall
              order [] (map (λ member, default_value member.2) members)
              (length order + fuel)%nat fuel [] None true [] more)
    as (obj' & key1 & Hloop & Hlen & Hobj'); [done|done| |lia|done|].
  { by rewrite length_map. }
  cbn [app] in Hloop. rewrite descriptors_in_nil in Hloop.
  exists obj', key1. split.
  - unfold Json.parse, Tokenizer.document. rewrite events_cons.
    change (TokenStream.ContextTokenStream ?a) with (fresh [] a false).
    cbn [Deserializer_parse].
    unfold json_parse, parse_object.
    rewrite (next_fresh _ [] [Path.Object None]) by done. cbn [bind].
    change (Token.is_of_type _ _) with true. cbn [negb].
    replace (after_first _ true) with false.
    2:{ destruct (keyed_members _ _ _); [by destruct more|done]. }
    rewrite Hloop. clear Hloop.
    destruct (object_loop _ _ _ _ _ _)
      as [[[[[[]|ty e] s2] fields2] object2]| |]; done.
  - intros i. rewrite Hobj'. destruct (decide (i ∈ order)); [done|].
    rewrite !list_lookup_fmap. by destruct (members !! i).
Qed.

End AfterMembers.

(** X17: a record whose text ends before every required member was given:
    after the members with the indices [order], the end of the object
    gives the parse error "Missing keys: ", listing in the order of the
    fields the names of the members that were not given and are not
    optional, at [root]. *)
Theorem record_with_missing_members members vs tss order size :
  exact_type (Class members) → has_type (Class members) (VClass vs) →
  present_absent (VClass vs) = false →
  Forall3 (λ f v ts, Forall2 Tokenizer.reads (Json.dump f.2 v) ts)
    members vs tss →
  NoDup order → Forall (λ i, (i < length members)%nat) order →
  forallb DeserializationHelper.is_ready (descriptors_in members order)
  = false →
  ∃ n, ∀ fuel, (n ≤ fuel)%nat →
    Json.parse fuel (Class members)
      (Tokenizer.document
         (Token.StartObjectToken
          :: keyed_members members tss order
          ++ [Token.EndObjectToken size]))
    = Done (ParseResult.Err ParseResult.PARSE_ERROR
              (ParseResult.mkError
                 ("Missing keys: "
                  +:+ String.concat ""
                        (map (λ field,
                                DeserializationHelper.name field +:+ ", ")
                           (filter
                              (λ field,
                                 DeserializationHelper.is_ready field
                                 = false)
                              (descriptors_in members order)))
                  +:+ "got end object")
                 (Some "root"))).
Proof.
  intros Hexact Htype Hsafe Hreads Hnd Hlt Hready.
  destruct (record_after_members members vs tss order
              [Token.EndObjectToken size] Hexact Htype Hsafe Hreads Hnd Hlt
              ltac:(done)) as [N H].
  exists (S (length order + S N)). intros fuel Hfuel.
  destruct (H (fuel - S (length order))%nat ltac:(lia))
    as (obj' & key1 & Hparse & _).
  replace (S (length order + (fuel - S (length order))))%nat with fuel
    in Hparse by lia.
  rewrite Hparse.
  destruct (fuel - S (length order))%nat as [|n'] eqn:Hn'; [lia|].
  match goal with
  | |- context [DeserializationHelper.object_loop ?p _ ?mp _ ?fs ?o] =>
      pose proof (object_loop_at_end p n' mp [] key1 true [] size fs o)
        as Hend
  end.
  cbn [app] in Hend. rewrite Hend, Hready. cbn [bind].
  by rewrite missing_keys_error_lists.
Qed.

Lemma record_with_missing_members_witness :
  ∃ n, ∀ fuel, (n ≤ fuel)%nat →
    Json.parse fuel
      (Class [("id", Value (integer_t int));
              ("note", Optional (Value string_t));
              ("name", Value string_t)])
      (Tokenizer.document
         [Token.StartObjectToken;
          Token.KeyToken "note"; Token.StringToken "n";
          Token.EndObjectToken 1])
    = Done (ParseResult.Err ParseResult.PARSE_ERROR
              (ParseResult.mkError "Missing keys: id, name, got end object"
                 (Some "root"))).
Proof.
  apply (record_with_missing_members
           [("id", Value (integer_t int));
            ("note", Optional (Value string_t));
            ("name", Value string_t)]
           [VInteger 7; VOptional (Some (VString "n")); VString "x"]
           [[Token.UintToken 7]; [Token.StringToken "n"];
            [Token.StringToken "x"]]
           [1]%nat 1).
  - repeat (constructor || compute_done).
  - repeat (constructor; try (unfold representable; cbn; lia)).
  - reflexivity.
  - repeat (apply Forall3_cons; [vm_compute; repeat constructor|]);
      apply Forall3_nil.
  - compute_done.
  - repeat constructor.
  - reflexivity.
Defined.

(** X18: a record whose text gives, after the members with the indices
    [order], a key that is the name of no field: the parse fails with
    the parse error "Unexpected key: " followed by the key, at the
    path of that key, whatever follows it in the text. *)
Theorem record_with_unknown_member members vs tss order key rest_of_text :
  exact_type (Class members) → has_type (Class members) (VClass vs) →
  present_absent (VClass vs) = false →
  Forall3 (λ f v ts, Forall2 Tokenizer.reads (Json.dump f.2 v) ts)
    members vs tss →
  NoDup order → Forall (λ i, (i < length members)%nat) order →
  key ∉ members.*1 →
  ∃ n, ∀ fuel, (n ≤ fuel)%nat →
    Json.parse fuel (Class members)
      (Tokenizer.document
         (Token.StartObjectToken
          :: keyed_members members tss order
          ++ Token.KeyToken key :: rest_of_text))
    = Done (ParseResult.Err ParseResult.PARSE_ERROR
              (ParseResult.mkError ("Unexpected key: " +:+ key)
                 (Some ("root." +:+ key)))).
Proof.
  intros Hexact Htype Hsafe Hreads Hnd Hlt Hkey.
  destruct (record_after_members members vs tss order
              (Token.KeyToken key :: rest_of_text)
              Hexact Htype Hsafe Hreads Hnd Hlt ltac:(done)) as [N H].
  exists (S (length order + S N)). intros fuel Hfuel.
  destruct (H (fuel - S (length order))%nat ltac:(lia))
    as (obj' & key1 & Hparse & _).
  replace (S (length order + (fuel - S (length order))))%nat with fuel
    in Hparse by lia.
  rewrite Hparse.
  destruct (fuel - S (length order))%nat as [|n'] eqn:Hn'; [lia|].
  rewrite events_cons.
  erewrite object_loop_unknown_key;
    [|rewrite (next_fresh _ _ [Path.Object (Some key)]); done
     |apply build_fields_map_unknown; by rewrite fields_of_names].
  reflexivity.
Qed.

Lemma record_with_unknown_member_witness :
  ∃ n, ∀ fuel, (n ≤ fuel)%nat →
    Json.parse fuel
      (Class [("id", Value (integer_t int)); ("name", Value string_t)])
      (Tokenizer.document
         [Token.StartObjectToken;
          Token.KeyToken "name"; Token.StringToken "x";
          Token.KeyToken "age"; Token.UintToken 3;
          Token.EndObjectToken 2])
    = Done (ParseResult.Err ParseResult.PARSE_ERROR
              (ParseResult.mkError "Unexpected key: age"
                 (Some "root.age"))).
Proof.
  apply (record_with_unknown_member
           [("id", Value (integer_t int)); ("name", Value string_t)]
           [VInteger 7; VString "x"]
           [[Token.UintToken 7]; [Token.StringToken "x"]]
           [1]%nat "age" [Token.UintToken 3; Token.EndObjectToken 2]).
  - repeat (constructor || compute_done).
  - repeat (constructor; try (unfold representable; cbn; lia)).
  - reflexivity.
  - repeat (apply Forall3_cons; [vm_compute; repeat constructor|]);
      apply Forall3_nil.
  - compute_done.
  - repeat constructor.
  - compute_done.
Defined.

(** X19: a record whose text gives a member a second time: after the
    members with the indices [order], the key of one of them fails the
    parse with the parse error "Duplicate key: " followed by the key,
    at the path of that key, whatever follows it in the text; the value
    that follows the repeated key is not looked at. *)
Theorem record_with_repeated_member members vs tss order i f rest_of_text :
  exact_type (Class members) → has_type (Class members) (VClass vs) →
  present_absent (VClass vs) = false →
  Forall3 (λ f v ts, Forall2 Tokenizer.reads (Json.dump f.2 v) ts)
    members vs tss →
  NoDup order → Forall (λ i, (i < length members)%nat) order →
  i ∈ order → members !! i = Some f →
  ∃ n, ∀ fuel, (n ≤ fuel)%nat →
    Json.parse fuel (Class members)
      (Tokenizer.document
         (Token.StartObjectToken
          :: keyed_members members tss order
          ++ Token.KeyToken f.1 :: rest_of_text))
    = Done (ParseResult.Err ParseResult.PARSE_ERROR
              (ParseResult.mkError ("Duplicate key: " +:+ f.1)
                 (Some ("root." +:+ f.1)))).
Proof.
  intros Hexact Htype Hsafe Hreads Hnd Hlt Hi Hf.
  destruct (record_after_members members vs tss order
              (Token.KeyToken f.1 :: rest_of_text)
              Hexact Htype Hsafe Hreads Hnd Hlt ltac:(done)) as [N H].
  exists (S (length order + S N)). intros fuel Hfuel.
  destruct (H (fuel - S (length order))%nat ltac:(lia))
    as (obj' & key1 & Hparse & _).
  replace (S (length order + (fuel - S (length order))))%nat with fuel
    in Hparse by lia.
  rewrite Hparse.
  destruct (fuel - S (length order))%nat as [|n'] eqn:Hn'; [lia|].
  rewrite events_cons.
  inversion Hexact as [| | | | | |fs Hnames Hfields]; subst.
  erewrite object_loop_key;
    [|rewrite (next_fresh _ _ [Path.Object (Some f.1)]); done
     |by apply build_fields_map_lookup].
  erewrite parse_field_set;
    [|by apply descriptors_in_lookup
     |cbn; by rewrite bool_decide_eq_true_2].
  reflexivity.
Qed.

Lemma record_with_repeated_member_witness :
  ∃ n, ∀ fuel, (n ≤ fuel)%nat →
    Json.parse fuel
      (Class [("id", Value (integer_t int)); ("name", Value string_t)])
      (Tokenizer.document
         [Token.StartObjectToken;
          Token.KeyToken "name"; Token.StringToken "x";
          Token.KeyToken "name"; Token.StringToken "y";
          Token.EndObjectToken 2])
    = Done (ParseResult.Err ParseResult.PARSE_ERROR
              (ParseResult.mkError "Duplicate key: name"
                 (Some "root.name"))).
Proof.
  apply (record_with_repeated_member
           [("id", Value (integer_t int)); ("name", Value string_t)]
           [VInteger 7; VString "x"]
           [[Token.UintToken 7]; [Token.StringToken "x"]]
           [1]%nat 1%nat ("name", Value string_t)
           [Token.StringToken "y"; Token.EndObjectToken 2]).
  - repeat (constructor || compute_done).
  - repeat (constructor; try (unfold representable; cbn; lia)).
  - reflexivity.
  - repeat (apply Forall3_cons; [vm_compute; repeat constructor|]);
      apply Forall3_nil.
  - compute_done.
  - repeat constructor.
  - compute_done.
  - reflexivity.
Defined.
